(** * wazuh-agent: communication and event-queue core

    A shallow embedding of the parts of the agent that own the persistent
    event queue and its dispatcher ([poc/curl/event_queue_monitor.hpp]),
    the session token ([communicator.cpp]), the HTTP request helpers
    ([http_client.cpp]), the time-unit parser ([configuration_parser.cpp])
    and the batching adapter exercised by [message_queue_utils_test.cpp].

    Conventions.  C++ [int], [long] and [std::time_t] values are integers
    of [Z]; where the source computes on an unsigned type the wrap-around is
    written out.  [std::string] is [string].  A member function that mutates
    its object takes the old object and returns the new one.  A function that
    can throw returns an [Except]. *)

From Stdlib Require Import ZArith List String Ascii Bool Lia.
From Stdlib Require Import Numbers.DecimalString.
From Stdlib Require DecimalZ.
Import ListNotations.

Open Scope string_scope.
Open Scope Z_scope.

(* ================================================================== *)
(** * The persistent event queue and its dispatcher *)
(* ================================================================== *)

Module EventQueue.

(** [struct Event] of [db_wrapper.hpp]. *)
Record Event : Type := mkEvent {
  id : Z;
  event_data : string;
  event_type : string;
  status : string
}.

Definition with_status (st : string) (e : Event) : Event :=
  {| id := id e; event_data := event_data e;
     event_type := event_type e; status := st |}.

(** The operations [EventQueueMonitor<QueueDB>] calls on its template
    parameter.  The monitor is written against this interface only. *)
Class QueueDB (DB : Type) : Type := {
  createTable : DB -> DB;
  updateEntriesStatus : string -> string -> DB -> DB;
  deleteEntriesWithStatus : string -> DB -> DB;
  getPendingEventCount : DB -> Z;
  fetchAndMarkPendingEvents : Z -> DB -> list Event * DB;
  updateEventStatus : list Z -> string -> DB -> DB
}.

(** What a sink worker's closure captures: [event_data] and [event_ids]
    (both by value).  [onEvent] is the same for every worker. *)
Record SinkWorker : Type := mkWorker {
  captured_data : string;
  captured_ids : list Z
}.

(** One step of the [for] loop over [pending_events], lines 82-88:
    the id is pushed back, the payload is appended, then a line feed. *)
Definition LF : string := String (ascii_of_nat 10) EmptyString.

Definition collect_event (acc : list Z * string) (event : Event)
  : list Z * string :=
  let '(event_ids, data) := acc in
  ((event_ids ++ [id event])%list, (data ++ event_data event) ++ LF).

Definition collect_events (pending_events : list Event) : list Z * string :=
  fold_left collect_event pending_events ([], "").

Definition make_worker (pending_events : list Event) : SinkWorker :=
  let '(event_ids, data) := collect_events pending_events in
  {| captured_data := data; captured_ids := event_ids |}.

(** The payload as the specification words it: the payloads in order,
    separated by a line feed. *)
Definition payload_separated (pending_events : list Event) : string :=
  String.concat LF (map event_data pending_events).

(** The payload with every event's payload followed by a line feed. *)
Definition payload_terminated (pending_events : list Event) : string :=
  String.concat "" (map (fun e => event_data e ++ LF) pending_events).

(** Batch parameters, lines 44-45. *)
Definition N : Z := 10.
Definition T : Z := 5.

(** [std::chrono::steady_clock] counts nanoseconds (libstdc++, libc++);
    [duration_cast<seconds>] truncates toward zero. *)
Definition ticks_per_second : Z := 1000000000.

Definition duration_cast_seconds (d : Z) : Z := Z.quot d ticks_per_second.

(** What the dispatcher does at the end of an iteration. *)
Inductive Step : Type :=
| Sleep (seconds : Z)
| Fetch (limit : Z) (pending_events : list Event).

Section Monitor.

Context {DB : Type} `{QueueDB DB}.

Record Monitor : Type := mkMonitor {
  eventQueue : DB;
  eventDispatchThreads : list SinkWorker
}.

(** The body of the lambda handed to [eventDispatchThreads.emplace_back],
    lines 91-101. *)
Definition run_worker (onEvent : string -> bool) (w : SinkWorker) (db : DB)
  : DB :=
  if onEvent (captured_data w)
  then updateEventStatus (captured_ids w) "dispatched" db
  else updateEventStatus (captured_ids w) "pending" db.

(** Lines 53-67.  Every element of [eventDispatchThreads] is a started,
    never detached thread, hence joinable: [remove_if] joins each of them
    in order and [erase] empties the vector.  A worker is run here, at its
    join; this is the schedule in which no worker finishes early. *)
Definition reap (onEvent : string -> bool) (ws : list SinkWorker) (db : DB)
  : DB :=
  fold_left (fun d w => run_worker onEvent w d) ws db.

(** The gate of line 71. *)
Definition gate_closed (db : DB) (current_time last_dispatch_time : Z)
  : bool :=
  (getPendingEventCount db <? N)
  && (duration_cast_seconds (current_time - last_dispatch_time) <? T).

(** One turn of the [while] loop of [dispatcher], lines 51-104.
    [current_time] is the clock reading of line 69. *)
Definition dispatcher_iteration (onEvent : string -> bool)
    (current_time : Z) (st : Monitor * Z) : Monitor * Z * Step :=
  let '(m, last_dispatch_time) := st in
  let db1 := deleteEntriesWithStatus "dispatched" (eventQueue m) in
  let db2 := reap onEvent (eventDispatchThreads m) db1 in
  if gate_closed db2 current_time last_dispatch_time
  then ({| eventQueue := db2; eventDispatchThreads := [] |},
        last_dispatch_time, Sleep 1)
  else
    let '(pending_events, db3) := fetchAndMarkPendingEvents N db2 in
    let threads :=
      match pending_events with
      | [] => []
      | _ :: _ => [make_worker pending_events]
      end in
    ({| eventQueue := db3; eventDispatchThreads := threads |},
     current_time, Fetch N pending_events).

(** The constructor, lines 17-19, up to the start of the dispatcher
    thread. *)
Definition construct (db0 : DB) : Monitor :=
  let db1 := createTable db0 in
  {| eventQueue := updateEntriesStatus "processing" "pending" db1;
     eventDispatchThreads := [] |}.

(** [dispatcher], line 47 and the loop: [start_time] is the clock reading
    of line 47, [clock] the readings of line 69 for the iterations that
    run while [keepDbRunning] is set. *)
Definition dispatcher_loop (onEvent : string -> bool) (clock : list Z)
    (st : Monitor * Z) : Monitor * Z * list Step :=
  fold_left
    (fun acc now =>
       let '(m, last, steps) := acc in
       let '(m', last', s) := dispatcher_iteration onEvent now (m, last) in
       (m', last', (steps ++ [s])%list))
    clock (fst st, snd st, []).

Definition dispatcher (onEvent : string -> bool) (start_time : Z)
    (clock : list Z) (m : Monitor) : Monitor * Z * list Step :=
  dispatcher_loop onEvent clock (m, start_time).

(** The store the gate of an iteration looks at: after the collection of
    dispatched events and the join of the finished workers. *)
Definition at_gate (onEvent : string -> bool) (m : Monitor) : DB :=
  reap onEvent (eventDispatchThreads m)
       (deleteEntriesWithStatus "dispatched" (eventQueue m)).

(** The gate is open: enough pending events, or enough time. *)
Definition gate_open (db : DB) (current_time last_dispatch_time : Z) : Prop :=
  10 <= getPendingEventCount db
  \/ 5 * ticks_per_second <= current_time - last_dispatch_time.

End Monitor.

Arguments Monitor DB : clear implicits.

(** ** The store behind the interface

    The wrappers under [poc/curl/db] implement an older interface; the
    operations the monitor calls are modelled on an ordered list of events,
    oldest first. *)

Definition Store : Type := list Event.

Definition has_status (st : string) (e : Event) : bool :=
  String.eqb (status e) st.

(** [createTable] of both wrappers: [CREATE TABLE IF NOT EXISTS] for SQLite,
    an empty body for RocksDB.  The rows of an existing store stay. *)
Definition store_createTable (s : Store) : Store := s.

(** Modelled from the spec: [updateEntriesStatus(from, to)] is missing from
    the wrappers; the startup recovery step moves every event whose status
    is [from] to status [to]. *)
Definition store_updateEntriesStatus (from to : string) (s : Store) : Store :=
  map (fun e => if has_status from e then with_status to e else e) s.

(** Modelled from the spec: [deleteByStatus(status)] is missing from the
    wrappers; it removes all events with the given status. *)
Definition store_deleteEntriesWithStatus (st : string) (s : Store) : Store :=
  filter (fun e => negb (has_status st e)) s.

(** Modelled from the spec: [pendingCount()] is missing from the wrappers;
    it is the exact count of events with status [pending]. *)
Definition store_getPendingEventCount (s : Store) : Z :=
  Z.of_nat (List.length (filter (has_status "pending") s)).

(** Modelled from the spec: [fetchAndMarkPending(limit)] is missing from the
    wrappers; it selects up to [limit] oldest [pending] events, moves them
    to [processing] and returns the selected events. *)
Fixpoint mark_pending (limit : nat) (s : Store) : list Event * Store :=
  match s with
  | [] => ([], [])
  | e :: rest =>
      match limit with
      | O => ([], s)
      | S k =>
          if has_status "pending" e
          then let e' := with_status "processing" e in
               let '(sel, rest') := mark_pending k rest in
               (e' :: sel, e' :: rest')
          else let '(sel, rest') := mark_pending limit rest in
               (sel, e :: rest')
      end
  end.

Definition store_fetchAndMarkPendingEvents (limit : Z) (s : Store)
  : list Event * Store :=
  mark_pending (Z.to_nat limit) s.

(** Modelled from the spec: [updateStatus(ids, newStatus)] with a status
    argument is missing from the wrappers; the listed events get the new
    status, unknown ids are ignored. *)
Definition store_updateEventStatus (ids : list Z) (st : string) (s : Store)
  : Store :=
  map (fun e => if existsb (Z.eqb (id e)) ids then with_status st e else e) s.

#[export] Instance StoreDB : QueueDB Store := {
  createTable := store_createTable;
  updateEntriesStatus := store_updateEntriesStatus;
  deleteEntriesWithStatus := store_deleteEntriesWithStatus;
  getPendingEventCount := store_getPendingEventCount;
  fetchAndMarkPendingEvents := store_fetchAndMarkPendingEvents;
  updateEventStatus := store_updateEventStatus
}.

End EventQueue.

(* ================================================================== *)
(** * Exceptions *)
(* ================================================================== *)

(** The exception classes the modelled code throws or catches.  All of them
    derive from [std::exception]; [std_exception] stands for any other
    class that does (for instance [boost::system::system_error]). *)
Inductive exception : Type :=
| std_invalid_argument (msg : string)
| std_out_of_range (msg : string)
| std_exception (msg : string).

Definition what (e : exception) : string :=
  match e with
  | std_invalid_argument msg => msg
  | std_out_of_range msg => msg
  | std_exception msg => msg
  end.

Inductive Except (A : Type) : Type :=
| Ret (a : A)
| Throw (e : exception).

Arguments Ret {A} a.
Arguments Throw {A} e.

Definition bind {A B : Type} (m : Except A) (k : A -> Except B) : Except B :=
  match m with
  | Ret a => k a
  | Throw e => Throw e
  end.

Notation "x <- m ;; k" := (bind m (fun x => k))
  (at level 61, m at next level, right associativity).

(* ================================================================== *)
(** * The time-unit parser *)
(* ================================================================== *)

Module ConfigurationParser.

(** Lines 10-13, [unsigned int] constants; each is below [2^32]. *)
Definition A_SECOND_IN_MILLIS : Z := 1000.
Definition A_MINUTE_IN_MILLIS : Z := 60 * A_SECOND_IN_MILLIS.
Definition A_HOUR_IN_MILLIS : Z := 60 * A_MINUTE_IN_MILLIS.
Definition A_DAY_IN_MILLIS : Z := 24 * A_HOUR_IN_MILLIS.

(** [std::string::ends_with]. *)
Definition ends_with (s suffix : string) : bool :=
  let n := String.length s in
  let k := String.length suffix in
  (k <=? n)%nat && String.eqb (substring (n - k) k s) suffix.

(** [std::isdigit] in the C locale. *)
Definition isdigit (c : ascii) : bool :=
  ((48 <=? nat_of_ascii c) && (nat_of_ascii c <=? 57))%nat.

(** [std::all_of] over the characters of a string. *)
Fixpoint all_of (p : ascii -> bool) (s : string) : bool :=
  match s with
  | EmptyString => true
  | String c rest => p c && all_of p rest
  end.

(** [unsigned long] and [std::time_t] are 64 bits wide (LP64). *)
Definition ULONG_MAX : Z := 2 ^ 64 - 1.

Definition wrap_ulong (z : Z) : Z := z mod 2 ^ 64.

(** [static_cast<std::time_t>] of an [unsigned long]: the value modulo
    [2^64] in the signed range. *)
Definition to_time_t (u : Z) : Z :=
  if u <? 2 ^ 63 then u else u - 2 ^ 64.

Definition digit_value (c : ascii) : Z := Z.of_nat (nat_of_ascii c) - 48.

Fixpoint decimal_value (acc : Z) (s : string) : Z :=
  match s with
  | EmptyString => acc
  | String c rest => decimal_value (acc * 10 + digit_value c) rest
  end.

(** [std::stoul] in base 10.  [ParseTimeUnit] reaches it only with a string
    of digits, so the white space, sign and prefix handling of [strtoul]
    never applies: with no digit at all no conversion is performed
    ([std::invalid_argument]), a value above [ULONG_MAX] is out of range
    ([std::out_of_range]). *)
Definition stoul (number : string) : Except Z :=
  match number with
  | EmptyString => Throw (std_invalid_argument "stoul")
  | String _ _ =>
      let v := decimal_value 0 number in
      if v <=? ULONG_MAX then Ret v else Throw (std_out_of_range "stoul")
  end.

(** The chain of [if]s of [ParseTimeUnit], lines 92-124: [number] and
    [multiplier] as the chain leaves them. *)
Definition split_unit (option : string) : string * Z :=
  if ends_with option "ms"
  then (substring 0 (String.length option - 2) option, 1)
  else if ends_with option "s"
  then (substring 0 (String.length option - 1) option, A_SECOND_IN_MILLIS)
  else if ends_with option "m"
  then (substring 0 (String.length option - 1) option, A_MINUTE_IN_MILLIS)
  else if ends_with option "h"
  then (substring 0 (String.length option - 1) option, A_HOUR_IN_MILLIS)
  else if ends_with option "d"
  then (substring 0 (String.length option - 1) option, A_DAY_IN_MILLIS)
  else (option, A_SECOND_IN_MILLIS).

(** [ConfigurationParser::ParseTimeUnit], lines 90-132. *)
Definition ParseTimeUnit (option : string) : Except Z :=
  let '(number, multiplier) := split_unit option in
  if negb (all_of isdigit number)
  then Throw (std_invalid_argument ("Invalid time unit: " ++ option))
  else
    n <- stoul number ;;
    Ret (to_time_t (wrap_ulong (n * multiplier))).

(** The largest [std::time_t]. *)
Definition TIME_T_MAX : Z := 2 ^ 63 - 1.

(** A non-empty string of decimal digits. *)
Definition digits (s : string) : Prop :=
  s <> "" /\ all_of isdigit s = true.

End ConfigurationParser.

(* ================================================================== *)
(** * Boost.Beast messages *)
(* ================================================================== *)

Module Beast.

(** [boost::beast::http::status], by its integer value. *)
Definition status : Type := Z.
Definition ok : status := 200.
Definition unauthorized : status := 401.
Definition forbidden : status := 403.
Definition internal_server_error : status := 500.

(** [boost::beast::http::verb]: the verbs [prepare_payload] tells apart and
    the common ones.  The remaining verbs (WebDAV and later) behave like
    [get] in everything modelled here. *)
Inductive verb : Type :=
| unknown | delete_ | get | head | post | put | connect | options | trace.

Definition verb_eqb (a b : verb) : bool :=
  match a, b with
  | unknown, unknown | delete_, delete_ | get, get | head, head
  | post, post | put, put | connect, connect | options, options
  | trace, trace => true
  | _, _ => false
  end.

(** [boost::beast::http::field], the fields the client sets. *)
Inductive field : Type :=
| host | user_agent | accept | authorization
| content_type | transfer_encoding | content_length.

Definition field_eqb (a b : field) : bool :=
  match a, b with
  | host, host | user_agent, user_agent | accept, accept
  | authorization, authorization | content_type, content_type
  | transfer_encoding, transfer_encoding
  | content_length, content_length => true
  | _, _ => false
  end.

(** [basic_fields]: the header fields in order. *)
Definition fields : Type := list (field * string).

Definition erase (f : field) (fs : fields) : fields :=
  filter (fun kv => negb (field_eqb (fst kv) f)) fs.

(** [basic_fields::set]: the value replaces every earlier instance of the
    field. *)
Definition set (f : field) (value : string) (fs : fields) : fields :=
  (erase f fs ++ [(f, value)])%list.

Definition find (f : field) (fs : fields) : option string :=
  match List.find (fun kv => field_eqb (fst kv) f) fs with
  | Some kv => Some (snd kv)
  | None => None
  end.

Record request : Type := mkRequest {
  method : verb;
  target : string;
  version : Z;
  req_fields : fields;
  req_body : string
}.

Record response : Type := mkResponse {
  result : status;
  res_fields : fields;
  res_body : string
}.

(** A default-constructed response: status [ok], no field, empty body. *)
Definition empty_response : response :=
  {| result := ok; res_fields := []; res_body := "" |}.

Definition decimal (n : nat) : string :=
  NilEmpty.string_of_uint (Nat.to_uint n).

(** [message::content_length(n)]: the Content-Length field is set and the
    chunked coding is removed from Transfer-Encoding. *)
Definition set_chunked_false (fs : fields) : fields :=
  match find transfer_encoding fs with
  | Some "chunked" => erase transfer_encoding fs
  | _ => fs
  end.

Definition set_content_length (n : nat) (fs : fields) : fields :=
  set_chunked_false (set content_length (decimal n) fs).

(** [request::prepare_payload] for a [string_body], whose size is known. *)
Definition prepare_payload (req : request) : Except request :=
  let n := String.length (req_body req) in
  if verb_eqb (method req) trace && (0 <? n)%nat
  then Throw (std_invalid_argument "invalid request body")
  else if (0 <? n)%nat || verb_eqb (method req) options
          || verb_eqb (method req) put || verb_eqb (method req) post
  then Ret {| method := method req; target := target req;
              version := version req;
              req_fields := set_content_length n (req_fields req);
              req_body := req_body req |}
  else Ret {| method := method req; target := target req;
              version := version req;
              req_fields := set_chunked_false (req_fields req);
              req_body := req_body req |}.

Definition set_field (f : field) (value : string) (req : request) : request :=
  {| method := method req; target := target req; version := version req;
     req_fields := set f value (req_fields req); req_body := req_body req |}.

Definition set_body (b : string) (req : request) : request :=
  {| method := method req; target := target req; version := version req;
     req_fields := req_fields req; req_body := b |}.

End Beast.

(* ================================================================== *)
(** * The HTTP client *)
(* ================================================================== *)

Module HttpClient.

Import Beast.

(** [HttpRequestParams], with the members [http_client.cpp] reads. *)
Record HttpRequestParams : Type := mkParams {
  Method : verb;
  Host : string;
  Port : string;
  Endpoint : string;
  User_agent : string;
  Token : string;
  User_pass : string;
  Body : string;
  Use_Https : bool
}.

Definition empty (s : string) : bool :=
  match s with EmptyString => true | String _ _ => false end.

Definition HttpVersion1_1 : Z := 11.

(** [HttpClient::CreateHttpRequest], lines 40-70. *)
Definition CreateHttpRequest (params : HttpRequestParams) : Except request :=
  let req := {| method := Method params; target := Endpoint params;
                version := HttpVersion1_1; req_fields := [];
                req_body := "" |} in
  let req := set_field host (Host params) req in
  let req := set_field user_agent (User_agent params) req in
  let req := set_field accept "application/json" req in
  let req :=
    if negb (empty (Token params))
    then set_field authorization ("Bearer " ++ Token params) req
    else req in
  let req :=
    if negb (empty (User_pass params))
    then set_field authorization ("Basic " ++ User_pass params) req
    else req in
  if negb (empty (Body params))
  then
    let req := set_field content_type "application/json" req in
    let req := set_field transfer_encoding "chunked" req in
    let req := set_body (Body params) req in
    prepare_payload req
  else Ret req.

(** The authorization the specification words: the bearer token wins over
    basic authentication. *)
Definition authorization_bearer_first (params : HttpRequestParams)
  : option string :=
  if negb (empty (Token params)) then Some ("Bearer " ++ Token params)
  else if negb (empty (User_pass params))
  then Some ("Basic " ++ User_pass params)
  else None.

(** The authorization the code sets: basic authentication is written after
    the bearer token and replaces it. *)
Definition authorization_basic_last (params : HttpRequestParams)
  : option string :=
  if negb (empty (User_pass params)) then Some ("Basic " ++ User_pass params)
  else if negb (empty (Token params)) then Some ("Bearer " ++ Token params)
  else None.

(** The resolver and socket behind [IHttpResolverFactory] and
    [IHttpSocketFactory].  What the network answers is not the client's to
    decide: each operation is a function of what the client hands it.
    [Read] fills the response it is given and may throw after filling a
    part of it. *)
Record Network : Type := mkNetwork {
  endpoints : Type;
  Resolve : string -> string -> Except endpoints;
  Connect : bool -> endpoints -> Except unit;
  Write : bool -> request -> Except unit;
  Read : bool -> request -> response -> response * option exception
}.

(** The body of the [try] block of [PerformHttpRequest], lines 177-190:
    the response object as the block leaves it, and the exception it was
    left with, if any. *)
Definition try_block (net : Network) (params : HttpRequestParams)
    (res : response) : response * option exception :=
  match Resolve net (Host params) (Port params) with
  | Throw e => (res, Some e)
  | Ret results =>
      match Connect net (Use_Https params) results with
      | Throw e => (res, Some e)
      | Ret _ =>
          match CreateHttpRequest params with
          | Throw e => (res, Some e)
          | Ret req =>
              match Write net (Use_Https params) req with
              | Throw e => (res, Some e)
              | Ret _ => Read net (Use_Https params) req res
              end
          end
      end
  end.

(** The [catch] block, lines 194-198.  [response::prepare_payload] sets
    Content-Length to the size of the body. *)
Definition catch_block (res : response) (e : exception) : response :=
  let body := res_body res ++ "Internal server error: " ++ what e in
  {| result := internal_server_error;
     res_fields := set_content_length (String.length body) (res_fields res);
     res_body := body |}.

(** [HttpClient::PerformHttpRequest], lines 170-202. *)
Definition PerformHttpRequest (net : Network) (params : HttpRequestParams)
  : response :=
  let res := empty_response in
  match try_block net params res with
  | (res, None) => res
  | (res, Some e) => catch_block res e
  end.

(** [needle] occurs in [hay]. *)
Definition contains (needle hay : string) : Prop :=
  exists pre post, hay = pre ++ needle ++ post.

(** [res] is the synthetic answer to exception [e]. *)
Definition error_response (res : response) (e : exception) : Prop :=
  result res = internal_server_error /\ contains (what e) (res_body res).

End HttpClient.

(* ================================================================== *)
(** * The communicator: token and expiry *)
(* ================================================================== *)

Module Communicator.

Import Beast.

(** Lines 27-28. *)
Definition TOKEN_PRE_EXPIRY_SECS : Z := 2.
Definition A_SECOND_IN_MILLIS : Z := 1000.

(** The members [SendAuthenticationRequest] writes: the string [m_token]
    points to, and [m_tokenExpTimeInSeconds]. *)
Record Communicator : Type := mkCommunicator {
  m_token : string;
  m_tokenExpTimeInSeconds : Z
}.

(** What [jwt::decode] yields, as far as the communicator looks at it: the
    payload claim [exp], as a date in seconds since the epoch, when the
    token carries one. *)
Record decoded_jwt : Type := mkDecoded {
  exp_claim : option Z
}.

Section Authentication.

(** [jwt::decode] of jwt-cpp; it throws on a string that is no token. *)
Variable jwt_decode : string -> Except decoded_jwt.

(** [Communicator::SendAuthenticationRequest], lines 46-76.  [token] is
    what [m_httpClient->AuthenticateWithUuidAndKey] returned. *)
Definition SendAuthenticationRequest (token : option string)
    (c : Communicator) : Communicator * Except status :=
  match token with
  | None => (c, Ret unauthorized)
  | Some value =>
      let c := {| m_token := value;
                  m_tokenExpTimeInSeconds := m_tokenExpTimeInSeconds c |} in
      match jwt_decode (m_token c) with
      | Throw e => (c, Throw e)
      | Ret decoded =>
          match exp_claim decoded with
          | Some exp_time =>
              ({| m_token := m_token c;
                  m_tokenExpTimeInSeconds := exp_time |}, Ret ok)
          | None =>
              ({| m_token := ""; m_tokenExpTimeInSeconds := 1 |},
               Ret unauthorized)
          end
      end
  end.

(** [Communicator::GetTokenRemainingSecs], lines 78-83; [now_seconds] is
    the reading of the system clock. *)
Definition GetTokenRemainingSecs (now_seconds : Z) (c : Communicator) : Z :=
  Z.max 0 (m_tokenExpTimeInSeconds c - now_seconds).

(** The lambda of [WaitForTokenExpirationAndAuthenticate], lines 111-124:
    the timer duration in milliseconds.  The arithmetic is on [long]; the
    product is the integer product whenever that fits 64 bits. *)
Definition duration (token : option string) (now_seconds : Z)
    (c : Communicator) : Communicator * Except Z :=
  let '(c, r) := SendAuthenticationRequest token c in
  (c,
   result <- r ;;
   if negb (result =? ok)
   then Ret A_SECOND_IN_MILLIS
   else Ret ((GetTokenRemainingSecs now_seconds c - TOKEN_PRE_EXPIRY_SECS)
             * A_SECOND_IN_MILLIS)).

End Authentication.

(** [steady_timer::expires_after] followed by [async_wait], lines 126-129,
    when nobody cancels the timer: the time the coroutine stays suspended.
    A timer whose expiry is not in the future completes at once. *)
Definition timer_wait (duration_ms : Z) : Z := Z.max 0 duration_ms.

End Communicator.

(* ================================================================== *)
(** * The batching adapter *)
(* ================================================================== *)

Module MessageQueueUtils.

Definition LF : string := String (ascii_of_nat 10) EmptyString.
Definition DQ : ascii := ascii_of_nat 34.
Definition BACKSLASH : ascii := ascii_of_nat 92.

Inductive MessageType : Type := STATELESS | STATEFUL | COMMAND.

(** [Message] as the tests build it: type, data, module name, module type,
    metadata. *)
Record Message : Type := mkMessage {
  type : MessageType;
  data : list string;
  moduleName : string;
  moduleType : string;
  metaData : string
}.

Definition hex_digit (n : nat) : ascii :=
  ascii_of_nat (if (n <? 10)%nat then 48 + n else 87 + n).

(** Modelled from the spec: the JSON serializer is not part of the sources;
    a string is written between double quotes, with the quote, the
    backslash and the control characters escaped as JSON requires. *)
Definition json_escape_char (c : ascii) : string :=
  let n := nat_of_ascii c in
  if (n =? 34)%nat then String BACKSLASH (String DQ "")
  else if (n =? 92)%nat then String BACKSLASH (String BACKSLASH "")
  else if (n =? 8)%nat then String BACKSLASH "b"
  else if (n =? 12)%nat then String BACKSLASH "f"
  else if (n =? 10)%nat then String BACKSLASH "n"
  else if (n =? 13)%nat then String BACKSLASH "r"
  else if (n =? 9)%nat then String BACKSLASH "t"
  else if (n <? 32)%nat
  then String BACKSLASH
         ("u00" ++ String (hex_digit (n / 16)) (String (hex_digit (n mod 16)) ""))
  else String c "".

Fixpoint json_escape (s : string) : string :=
  match s with
  | EmptyString => EmptyString
  | String c rest => json_escape_char c ++ json_escape rest
  end.

Definition json_string (s : string) : string :=
  String DQ (json_escape s ++ String DQ "").

(** Modelled from the spec: a JSON array of strings, in order, written
    without white space. *)
Definition json_array (items : list string) : string :=
  "[" ++ String.concat "," (map json_string items) ++ "]".

(** Modelled from the spec: [GetMessagesFromQueue] of
    [message_queue_utils.cpp] is missing from the sources.  The body is the
    global metadata, a line feed, the metadata of the first drained message,
    a line feed, and the JSON array of the data of every drained message in
    drain order.  [getMetadataInfo] is the agent-info provider, [None] when
    the caller passes [nullptr] (the body then starts with the line feed, as
    [GetMessagesFromQueueTest] expects).  At least one message is drained:
    the adapter waits until one is available. *)
Definition GetMessagesFromQueue (getMetadataInfo : option string)
    (first : Message) (rest : list Message) : string :=
  let global :=
    match getMetadataInfo with
    | Some metadata => metadata
    | None => ""
    end in
  global ++ LF ++ metaData first ++ LF
  ++ json_array (flat_map data (first :: rest)).

(** Test data is written with an apostrophe where the C++ raw string has a
    double quote. *)
Fixpoint quoted (s : string) : string :=
  match s with
  | EmptyString => EmptyString
  | String c rest =>
      String (if (nat_of_ascii c =? 39)%nat then DQ else c) (quoted rest)
  end.

(** [c] occurs in [s]. *)
Fixpoint has_char (c : ascii) (s : string) : bool :=
  match s with
  | EmptyString => false
  | String x rest => Ascii.eqb x c || has_char c rest
  end.

End MessageQueueUtils.

(* ================================================================== *)
(** * The logger: file names *)
(* ================================================================== *)

Module Logger.

(** [strrchr]: the part of [s] that starts at the last occurrence of [c],
    if [c] occurs. *)
Fixpoint strrchr (s : string) (c : ascii) : option string :=
  match s with
  | EmptyString => None
  | String x rest =>
      match strrchr rest c with
      | Some file => Some file
      | None => if Ascii.eqb x c then Some s else None
      end
  end.

(** [p + 1] for a pointer [p] into a string. *)
Definition next (p : string) : string :=
  match p with
  | EmptyString => EmptyString
  | String _ rest => rest
  end.

(** [GetFileName], [logger.hpp] lines 8-12. *)
Definition GetFileName (path : string) : string :=
  match strrchr path "/" with
  | Some file => next file
  | None => path
  end.

End Logger.

(* ================================================================== *)
(** * The signal dispatcher *)
(* ================================================================== *)

Module SignalDispatcher.

Section Dispatcher.

(** What the listeners act on. *)
Variable World : Type.

(** A slot of [boost::signals2::signal<void()>]. *)
Definition slot_type : Type := World -> World.

(** A signal: its slots in the order they were connected. *)
Definition SignalType : Type := list slot_type.

(** [signal::connect]: the slot goes to the back. *)
Definition connect (slot : slot_type) (sig : SignalType) : SignalType :=
  (sig ++ [slot])%list.

(** [signal::operator()]: the slots are called in order. *)
Definition emit (sig : SignalType) (w : World) : World :=
  fold_left (fun w slot => slot w) sig w.

(** The member [signals]: a signal for each event that has one. *)
Definition Signals : Type := list (string * SignalType).

Fixpoint find (event : string) (signals : Signals) : option SignalType :=
  match signals with
  | [] => None
  | (e, sig) :: rest => if String.eqb e event then Some sig else find event rest
  end.

(** The signal of [event] becomes [sig]; the entry is created when there is
    none. *)
Fixpoint store (event : string) (sig : SignalType) (signals : Signals)
  : Signals :=
  match signals with
  | [] => [(event, sig)]
  | (e, old) :: rest =>
      if String.eqb e event then (e, sig) :: rest
      else (e, old) :: store event sig rest
  end.

(** [SignalDispatcher::RegisterListener], [signal_dispatcher.cpp] lines
    11-13: [signals[event]] is the signal of the event, a new one without
    slots when the event has none yet. *)
Definition RegisterListener (event : string) (slot : slot_type)
    (signals : Signals) : Signals :=
  let sig := match find event signals with Some sig => sig | None => [] end in
  store event (connect slot sig) signals.

(** [SignalDispatcher::Notify], lines 15-20. *)
Definition Notify (event : string) (signals : Signals) (w : World) : World :=
  match find event signals with
  | Some sig => emit sig w
  | None => w
  end.

(** The listeners of [slots] registered for [event], first to last. *)
Definition register_all (event : string) (slots : list slot_type)
    (signals : Signals) : Signals :=
  fold_left (fun s slot => RegisterListener event slot s) slots signals.

End Dispatcher.

End SignalDispatcher.

(* ================================================================== *)
(** * The HTTP client: the request loop and the authentication helpers *)
(* ================================================================== *)

Module RequestLoop.

Import Beast HttpClient.

(** [http_client.cpp] line 16. *)
Definition A_SECOND_IN_MILLIS : Z := 1000.

(** A [boost::system::error_code], by its value; 0 is success. *)
Definition error_code : Type := Z.

Definition failed (ec : error_code) : bool := negb (ec =? 0).

(** The resolver and the socket of the coroutine.  [AsyncResolve] reports
    by exception, the socket operations by error code. *)
Record AsyncNetwork : Type := mkAsyncNetwork {
  resolved : Type;
  AsyncResolve : string -> string -> Except resolved;
  AsyncConnect : bool -> resolved -> error_code;
  AsyncWrite : bool -> request -> error_code;
  AsyncRead : bool -> request -> response * error_code
}.

(** What an iteration does that its caller can see, in order: the socket
    is closed, the timer is awaited, [AsyncWrite] is handed a request, a
    callback is called. *)
Inductive Action : Type :=
| Close
| Wait (milliseconds : Z)
| Written (req : request)
| OnSuccess (body : string)
| OnUnauthorized.

Definition with_Body (body : string) (p : HttpRequestParams)
  : HttpRequestParams :=
  {| Method := Method p; Host := Host p; Port := Port p;
     Endpoint := Endpoint p; User_agent := User_agent p; Token := Token p;
     User_pass := User_pass p; Body := body; Use_Https := Use_Https p |}.

Definition with_Token (token : string) (p : HttpRequestParams)
  : HttpRequestParams :=
  {| Method := Method p; Host := Host p; Port := Port p;
     Endpoint := Endpoint p; User_agent := User_agent p; Token := token;
     User_pass := User_pass p; Body := Body p; Use_Https := Use_Https p |}.

(** The callbacks of one iteration: what [messageGetter] yields when it is
    awaited ([None] for [nullptr]), and whether [onUnauthorized] and
    [onSuccess] are set. *)
Record Callbacks : Type := mkCallbacks {
  messageGetter : option string;
  onUnauthorized : bool;
  onSuccess : bool
}.

(** One turn of the [do] loop of [Co_PerformHttpRequest], lines 89-167.
    [token] is what the shared token holds when line 121 reads it.  The
    result is [reqParams] as the turn leaves it and what the turn did; an
    exception leaves the coroutine. *)
Definition iteration (net : AsyncNetwork) (token : string)
    (cb : Callbacks) (connectionRetry batchingInterval : Z)
    (reqParams : HttpRequestParams)
  : Except (HttpRequestParams * list Action) :=
  let timerSleep := batchingInterval in
  results <- AsyncResolve net (Host reqParams) (Port reqParams) ;;
  let code := AsyncConnect net (Use_Https reqParams) results in
  if failed code
  then Ret (reqParams, [Close; Wait (connectionRetry * A_SECOND_IN_MILLIS)])
  else
    let reqParams :=
      match messageGetter cb with
      | Some body => with_Body body reqParams
      | None => with_Body "" reqParams
      end in
    let reqParams := with_Token token reqParams in
    req <- CreateHttpRequest reqParams ;;
    let ec := AsyncWrite net (Use_Https reqParams) req in
    if failed ec
    then Ret (reqParams, [Written req; Close])
    else
      let '(res, ec) := AsyncRead net (Use_Https reqParams) req in
      if failed ec
      then Ret (reqParams, [Written req; Close])
      else
        let '(called, timerSleep) :=
          if result res =? ok
          then (if onSuccess cb then [OnSuccess (res_body res)] else [],
                timerSleep)
          else if (result res =? unauthorized) || (result res =? forbidden)
          then (if onUnauthorized cb then [OnUnauthorized] else [],
                connectionRetry * A_SECOND_IN_MILLIS)
          else ([], timerSleep) in
        Ret (reqParams, ([Written req] ++ called ++ [Wait timerSleep])%list).

(** A turn of the loop as its surroundings decide it: the network, the
    token, the callbacks, and whether [loopRequestCondition] is set and
    holds when the turn ends. *)
Record Turn : Type := mkTurn {
  turn_network : AsyncNetwork;
  turn_token : string;
  turn_callbacks : Callbacks;
  turn_again : bool
}.

(** [HttpClient::Co_PerformHttpRequest], lines 72-168, for the turns the
    surroundings provide. *)
Fixpoint Co_PerformHttpRequest (turns : list Turn)
    (connectionRetry batchingInterval : Z) (reqParams : HttpRequestParams)
  : Except (list Action) :=
  match turns with
  | [] => Ret []
  | t :: rest =>
      r <- iteration (turn_network t) (turn_token t) (turn_callbacks t)
                     connectionRetry batchingInterval reqParams ;;
      if turn_again t
      then
        more <- Co_PerformHttpRequest rest connectionRetry batchingInterval
                                      (fst r) ;;
        Ret (snd r ++ more)%list
      else Ret (snd r)
  end.

(** The turns that run: the first one always, each next one when the turn
    before it ended with the loop condition set and true. *)
Fixpoint executed (turns : list Turn) : list Turn :=
  match turns with
  | [] => []
  | t :: rest => t :: (if turn_again t then executed rest else [])
  end.

Definition is_written (a : Action) : bool :=
  match a with
  | Written _ => true
  | _ => false
  end.

(** The actions that call back into the owner of the loop. *)
Definition is_callback (a : Action) : bool :=
  match a with
  | OnSuccess _ | OnUnauthorized => true
  | _ => false
  end.

Definition is_wait (a : Action) : bool :=
  match a with
  | Wait _ => true
  | _ => false
  end.

Section Authenticate.

(** The constructor of [HttpRequestParams], as the helpers call it: method,
    server URL, endpoint, user agent, token, basic credentials, body.  Its
    definition is not part of [http_client.cpp]. *)
Variable makeParams :
  verb -> string -> string -> string -> string -> string -> string
  -> HttpRequestParams.

(** [nlohmann::json::parse(body).at("token")] as a string; it throws on a
    body that is no JSON or has no such string. *)
Variable json_token : string -> Except string.

(** [nlohmann::json::parse(body).at("data").at("token")] as a string. *)
Variable json_data_token : string -> Except string.

(** [boost::beast::detail::base64::encode] into a string of
    [encoded_size] characters. *)
Variable base64 : string -> string.

Definition DQ : string := String (ascii_of_nat 34) EmptyString.

(** The body of line 209 and the parameters of lines 210-211. *)
Definition uuid_key_body (uuid key : string) : string :=
  ("{" ++ DQ ++ "uuid" ++ DQ ++ ":" ++ DQ) ++ uuid
  ++ (DQ ++ ", " ++ DQ ++ "key" ++ DQ ++ ":" ++ DQ) ++ key
  ++ (DQ ++ "}").

Definition uuid_key_params (serverUrl userAgent uuid key : string)
  : HttpRequestParams :=
  makeParams post serverUrl "/api/v1/authentication" userAgent "" ""
             (uuid_key_body uuid key).

(** The parameters of lines 247-248. *)
Definition user_password_params (serverUrl userAgent user password : string)
  : HttpRequestParams :=
  makeParams post serverUrl "/security/user/authenticate" userAgent ""
             (base64 (user ++ ":" ++ password)) "".

(** [HttpClient::AuthenticateWithUuidAndKey], lines 204-233. *)
Definition AuthenticateWithUuidAndKey (net : Network)
    (serverUrl userAgent uuid key : string) : option string :=
  let body := uuid_key_body uuid key in
  let reqParams :=
    makeParams post serverUrl "/api/v1/authentication" userAgent "" ""
               body in
  let res := PerformHttpRequest net reqParams in
  if negb (result res =? ok)
  then None
  else
    match json_token (res_body res) with
    | Ret token => Some token
    | Throw _ => None
    end.

(** [HttpClient::AuthenticateWithUserPassword], lines 235-271. *)
Definition AuthenticateWithUserPassword (net : Network)
    (serverUrl userAgent user password : string) : option string :=
  let userPass := user ++ ":" ++ password in
  let basicAuth := base64 userPass in
  let reqParams :=
    makeParams post serverUrl "/security/user/authenticate" userAgent ""
               basicAuth "" in
  let res := PerformHttpRequest net reqParams in
  if negb (result res =? ok)
  then None
  else
    match json_data_token (res_body res) with
    | Ret token => Some token
    | Throw _ => None
    end.

End Authenticate.

End RequestLoop.

(* ================================================================== *)
(** * The RocksDB wrapper *)
(* ================================================================== *)

Module RocksDBWrapper.

Import EventQueue.

(** [std::to_string] of an [int]. *)
Definition to_string (n : Z) : string :=
  NilEmpty.string_of_int (Z.to_int n).

Section Wrapper.

(** What the database stores for a key: in the wrapper the text that
    [serializeEvent] produces.  [empty_value] is a default-constructed
    [std::string].  [serializeEvent] ([json::dump]) and [deserializeEvent]
    ([json::parse] and the conversions of the four members) can throw. *)
Variable Value : Type.
Variable empty_value : Value.
Variable serializeEvent : Event -> Except Value.
Variable deserializeEvent : Value -> Except Event.

(** The database: the entries in the order of the bytewise comparator on
    keys, the order in which an iterator visits them. *)
Definition DB : Type := list (string * Value).

(** [DB::Put]: the value of an existing key is replaced, a new key is
    entered at its place in the order. *)
Fixpoint Put (key : string) (value : Value) (db : DB) : DB :=
  match db with
  | [] => [(key, value)]
  | (k, v) :: rest =>
      match String.compare key k with
      | Lt => (key, value) :: db
      | Eq => (key, value) :: rest
      | Gt => (k, v) :: Put key value rest
      end
  end.

(** [DB::Get]: [None] for the status NotFound. *)
Fixpoint Get (key : string) (db : DB) : option Value :=
  match db with
  | [] => None
  | (k, v) :: rest => if String.eqb k key then Some v else Get key rest
  end.

(** [RocksDBWrapper::insertEvent], [rocksdb_wrapper.hpp] lines 35-40. *)
Definition insertEvent (id : Z) (event_data event_type : string) (db : DB)
  : Except DB :=
  let event := {| id := id; event_data := event_data;
                  event_type := event_type; status := "pending" |} in
  let key := to_string id in
  value <- serializeEvent event ;;
  Ret (Put key value db).

(** The [for] loop of [fetchPendingEvents], lines 45-50: [it] is what the
    iterator has still to visit, [limit] the bound as the comparison with
    [events.size()] sees it. *)
Fixpoint visit (limit : Z) (it : DB) (events : list Event)
  : Except (list Event) :=
  match it with
  | [] => Ret events
  | (_, value) :: next =>
      if Z.of_nat (List.length events) <? limit
      then
        event <- deserializeEvent value ;;
        visit limit next
              (if String.eqb (status event) "pending"
               then (events ++ [event])%list else events)
      else Ret events
  end.

(** [RocksDBWrapper::fetchPendingEvents], lines 42-53.  In
    [events.size() < limit] the [int] is converted to [size_t]. *)
Definition fetchPendingEvents (limit : Z) (db : DB) : Except (list Event) :=
  visit (limit mod 2 ^ 64) db [].

(** [RocksDBWrapper::updateEventStatus], lines 55-64.  [Get] leaves
    [value] empty for a key that is not found.  The database is returned as
    the loop leaves it, with the exception that ended the loop if one
    did. *)
Fixpoint updateEventStatus (event_ids : list Z) (db : DB)
  : DB * Except unit :=
  match event_ids with
  | [] => (db, Ret tt)
  | id :: rest =>
      let key := to_string id in
      let value :=
        match Get key db with
        | Some v => v
        | None => empty_value
        end in
      match deserializeEvent value with
      | Throw e => (db, Throw e)
      | Ret event =>
          match serializeEvent (with_status "dispatched" event) with
          | Throw e => (db, Throw e)
          | Ret value' => updateEventStatus rest (Put key value' db)
          end
      end
  end.

(** The event stored under an id, as [updateEventStatus] reads it. *)
Definition read (id : Z) (db : DB) : Except Event :=
  deserializeEvent match Get (to_string id) db with
                   | Some v => v
                   | None => empty_value
                   end.

(** What is read back is what was written. *)
Definition round_trip : Prop :=
  forall event value,
    serializeEvent event = Ret value -> deserializeEvent value = Ret event.

(** The keys are in strictly ascending bytewise order. *)
Fixpoint ordered (db : DB) : Prop :=
  match db with
  | [] => True
  | (k, _) :: rest =>
      match rest with
      | [] => True
      | (k', _) :: _ => String.compare k k' = Lt
      end /\ ordered rest
  end.

(** [k] comes before the first key. *)
Definition below (k : string) (db : DB) : Prop :=
  match db with
  | [] => True
  | (k', _) :: _ => String.compare k k' = Lt
  end.

(** Every entry holds an event under the key of its id. *)
Definition keyed (db : DB) : Prop :=
  forall k v, In (k, v) db ->
              exists event, deserializeEvent v = Ret event
                            /\ to_string (id event) = k.

(** [events] are the events of the entries of [db], in order. *)
Definition contents (db : DB) (events : list Event) : Prop :=
  Forall2 (fun kv event => deserializeEvent (snd kv) = Ret event) db events.

End Wrapper.

(** The decimal text of the id of [a] comes bytewise before that of [b]. *)
Definition key_before (a b : Event) : Prop :=
  String.compare (to_string (id a)) (to_string (id b)) = Lt.

Fixpoint ascending (events : list Event) : Prop :=
  match events with
  | [] => True
  | e :: rest => Forall (key_before e) rest /\ ascending rest
  end.

(** The range of [int]. *)
Definition int_range (n : Z) : Prop := - 2 ^ 31 <= n < 2 ^ 31.

End RocksDBWrapper.

(* ================================================================== *)
(** * The configuration parser: merging YAML nodes *)
(* ================================================================== *)

Module YamlMerge.

(** A YAML document as yaml-cpp holds it, for documents whose mapping keys
    are scalars and which use no anchors, so that no node is reached in two
    ways.  The entries of a mapping and the items of a sequence are in
    document order; a mapping can hold a key more than once. *)
#[warnings="-register-all"]
Inductive Node : Type :=
| Null
| Scalar (text : string)
| Sequence (items : list Node)
| Map (entries : list (string * Node)).

Definition Entries : Type := list (string * Node).

Definition IsMap (n : Node) : bool :=
  match n with Map _ => true | _ => false end.

Definition IsSequence (n : Node) : bool :=
  match n with Sequence _ => true | _ => false end.

(** The first entry with the key, as the search of [operator[]] finds
    it. *)
Fixpoint lookup (key : string) (m : Entries) : option Node :=
  match m with
  | [] => None
  | (k, v) :: rest => if String.eqb k key then Some v else lookup key rest
  end.

(** The value of the first entry with the key becomes [v]. *)
Fixpoint replace (key : string) (v : Node) (m : Entries) : Entries :=
  match m with
  | [] => []
  | (k, old) :: rest =>
      if String.eqb k key then (k, v) :: rest
      else (k, old) :: replace key v rest
  end.

(** [operator[]] with a string key on a node that is no mapping: a scalar
    cannot be subscripted, an empty node becomes an empty mapping, a
    sequence becomes the mapping from the positions, written in decimal, to
    its items. *)
Fixpoint position_keys (from : nat) (items : list Node) : Entries :=
  match items with
  | [] => []
  | item :: rest =>
      (NilEmpty.string_of_uint (Nat.to_uint from), item)
      :: position_keys (S from) rest
  end.

Definition as_map (n : Node) : Except Entries :=
  match n with
  | Null => Ret []
  | Scalar _ => Throw (std_exception "operator[] call on a scalar")
  | Sequence items => Ret (position_keys 0 items)
  | Map m => Ret m
  end.

(** The pairs an iteration over a node visits with a key: the entries of a
    mapping, nothing for a scalar or an empty node; the items of a sequence
    have no key, and asking for it throws. *)
Definition keyed_entries (n : Node) : Except Entries :=
  match n with
  | Map es => Ret es
  | Sequence (_ :: _) => Throw (std_exception "invalid node")
  | _ => Ret []
  end.

(** A [YAML::Node] is a handle.  A handle on a node inside the base
    document is the list of keys that leads to it from the root. *)
Definition Handle : Type := list string.

Fixpoint get (h : Handle) (root : Node) : option Node :=
  match h with
  | [] => Some root
  | key :: rest =>
      match root with
      | Map m =>
          match lookup key m with
          | Some child => get rest child
          | None => None
          end
      | _ => None
      end
  end.

(** The node behind the handle becomes [v]. *)
Fixpoint put (h : Handle) (v : Node) (root : Node) : Node :=
  match h with
  | [] => v
  | key :: rest =>
      match root with
      | Map m =>
          match lookup key m with
          | Some child => Map (replace key (put rest v child) m)
          | None => root
          end
      | _ => root
      end
  end.

(** The queue [nodesToProcess]: handles on the base paired with nodes of
    the override. *)
Definition Queue : Type := list (Handle * Node).

Definition items_of (n : Node) : list Node :=
  match n with Sequence items => items | _ => [] end.

(** The body of the [for] loop of [MergeYamlNodes], lines 161-190, for one
    pair of the override: [m] is the mapping behind [baseNode] once
    [baseNode[key]] has been evaluated. *)
Definition merge_pair (h : Handle) (key : string) (value : Node)
    (m : Entries) (queue : Queue) : Entries * Queue :=
  match lookup key m with
  | Some old =>
      if IsMap value && IsMap old
      then (m, (queue ++ [((h ++ [key])%list, value)])%list)
      else if IsSequence value && IsSequence old
      then (replace key (Sequence (items_of old ++ items_of value)) m, queue)
      else (replace key value m, queue)
  | None => ((m ++ [(key, value)])%list, queue)
  end.

(** The [for] loop, lines 159-191, on the base document [root].  The
    document and the queue are returned as the loop leaves them. *)
Fixpoint merge_pairs (h : Handle) (pairs : Entries) (root : Node)
    (queue : Queue) : Node * Queue * Except unit :=
  match pairs with
  | [] => (root, queue, Ret tt)
  | (key, value) :: rest =>
      match get h root with
      | None => (root, queue, Ret tt)
      | Some baseNode =>
          match as_map baseNode with
          | Throw e => (root, queue, Throw e)
          | Ret m =>
              let '(m', queue') := merge_pair h key value m queue in
              merge_pairs h rest (put h (Map m') root) queue'
          end
      end
  end.

(** The [while] loop, lines 153-192; [fuel] bounds the number of its
    turns. *)
Fixpoint process (fuel : nat) (queue : Queue) (root : Node)
  : option (Node * Except unit) :=
  match queue with
  | [] => Some (root, Ret tt)
  | (baseNode, overrideNode) :: rest =>
      match fuel with
      | O => None
      | S fuel' =>
          match keyed_entries overrideNode with
          | Throw e => Some (root, Throw e)
          | Ret pairs =>
              match merge_pairs baseNode pairs root rest with
              | (root', queue', Ret _) => process fuel' queue' root'
              | (root', _, Throw e) => Some (root', Throw e)
              end
          end
      end
  end.

(** The number of nodes of a document. *)
Fixpoint size (n : Node) : nat :=
  match n with
  | Null => 1
  | Scalar _ => 1
  | Sequence items => S (fold_right (fun item k => size item + k) 0 items)%nat
  | Map es => S (fold_right (fun kv k => size (snd kv) + k) 0 es)%nat
  end.

Definition queue_size (queue : Queue) : nat :=
  fold_right (fun hv k => size (snd hv) + k)%nat 0%nat queue.

(** [ConfigurationParser::MergeYamlNodes], lines 147-193: the base document
    as the function leaves it, and the exception it ends with, if any.
    The loop makes at most one turn for each node of the override. *)
Definition MergeYamlNodes (base override : Node) : Node * Except unit :=
  match process (size override) [([], override)] base with
  | Some r => r
  | None => (base, Ret tt)
  end.

(** The merge as a recursion on the override: the entries of [m] after the
    pairs of [override] have been merged into them, mappings inside
    mappings included. *)
Fixpoint merge_into (override : Node) (m : Entries) {struct override}
  : Entries :=
  match override with
  | Map es =>
      (fix go (es : Entries) (m : Entries) {struct es} : Entries :=
         match es with
         | [] => m
         | (key, value) :: rest =>
             go rest
                match lookup key m with
                | Some old =>
                    match old with
                    | Map om =>
                        if IsMap value
                        then replace key (Map (merge_into value om)) m
                        else replace key value m
                    | Sequence oi =>
                        if IsSequence value
                        then replace key (Sequence (oi ++ items_of value)) m
                        else replace key value m
                    | _ => replace key value m
                    end
                | None => (m ++ [(key, value)])%list
                end
         end) es m
  | _ => m
  end.

(** No mapping of the document holds a key twice. *)
Fixpoint unique_keys (n : Node) : Prop :=
  match n with
  | Map es =>
      NoDup (map fst es)
      /\ (fix all (es : Entries) : Prop :=
            match es with
            | [] => True
            | (_, value) :: rest => unique_keys value /\ all rest
            end) es
  | Sequence items =>
      (fix all (items : list Node) : Prop :=
         match items with
         | [] => True
         | item :: rest => unique_keys item /\ all rest
         end) items
  | _ => True
  end.

(** What one pair of the override does to the mapping behind the handle,
    and the pair it pushes on the queue. *)
Definition pair_step (key : string) (value : Node) (m : Entries) : Entries :=
  fst (merge_pair [] key value m []).

Definition pair_child (h : Handle) (key : string) (value : Node)
    (m : Entries) : Queue :=
  snd (merge_pair h key value m []).

(** The mapping after the [for] loop, and the pairs the loop pushed. *)
Fixpoint shallow (pairs : Entries) (m : Entries) : Entries :=
  match pairs with
  | [] => m
  | (key, value) :: rest => shallow rest (pair_step key value m)
  end.

Fixpoint children (h : Handle) (pairs : Entries) (m : Entries) : Queue :=
  match pairs with
  | [] => []
  | (key, value) :: rest =>
      (pair_child h key value m ++ children h rest (pair_step key value m))%list
  end.

(** What is left to do for a queue, said with the recursion. *)
Definition finish_one (hv : Handle * Node) (root : Node) : Node :=
  match get (fst hv) root with
  | Some (Map m) => put (fst hv) (Map (merge_into (snd hv) m)) root
  | _ => root
  end.

Definition finish (queue : Queue) (root : Node) : Node :=
  fold_left (fun r hv => finish_one hv r) queue root.

(** Two handles part at some key: neither node is inside the other. *)
Inductive diverge : Handle -> Handle -> Prop :=
| diverge_here key key' p q : key <> key' -> diverge (key :: p) (key' :: q)
| diverge_later key p q : diverge p q -> diverge (key :: p) (key :: q).

Fixpoint separate (hs : list Handle) : Prop :=
  match hs with
  | [] => True
  | h :: rest => Forall (diverge h) rest /\ separate rest
  end.

(** A queue of the loop on documents without repeated keys: every handle
    is on a mapping of the base, every override node is a mapping, and no
    two handles are on nodes inside one another. *)
Definition ready (queue : Queue) (root : Node) : Prop :=
  Forall (fun hv => exists es m,
            snd hv = Map es /\ unique_keys (Map es)
            /\ get (fst hv) root = Some (Map m)) queue
  /\ separate (map fst queue).

(** What [MergeYamlNodes] makes of the value [old] of a key of the base
    when the override has [value] for the key. *)
Definition merged_value (old : option Node) (value : Node) : Node :=
  match old with
  | Some (Map om) =>
      match value with Map _ => Map (merge_into value om) | _ => value end
  | Some (Sequence oi) =>
      match value with Sequence vi => Sequence (oi ++ vi) | _ => value end
  | _ => value
  end.

(** The keys the override brings that the base does not have yet. *)
Definition has_key (m : Entries) (key : string) : bool :=
  match lookup key m with Some _ => true | None => false end.

(** [std::filesystem::path::operator/] on POSIX paths: an absolute right
    side replaces the left one; otherwise a separator is put between the
    two unless the left side is empty or ends with one. *)
Definition is_absolute (p : string) : bool :=
  match p with String "/" _ => true | _ => false end.

Definition path_append (lhs rhs : string) : string :=
  if is_absolute rhs then rhs
  else if orb (String.eqb lhs "") (ConfigurationParser.ends_with lhs "/")
       then lhs ++ rhs
       else lhs ++ "/" ++ rhs.

(** The file of a group, line 211-212. *)
Definition group_file (groupId : string) : string :=
  path_append (path_append "/etc/wazuh-agent" "shared") (groupId ++ ".conf").

Section LoadSharedConfig.

(** [YAML::LoadFile]: the document of a file, or the exception the file
    gives. *)
Variable LoadFile : string -> Except Node.

(** The [for] loop of [LoadSharedConfig], lines 209-217.  [tmpConfig] is a
    handle on the node [m_config] holds, so the configuration is returned
    as the loop leaves it, also when the loop ends with an exception. *)
Fixpoint merge_groups (groupIds : list string) (m_config : Node)
  : Node * Except unit :=
  match groupIds with
  | [] => (m_config, Ret tt)
  | groupId :: rest =>
      match LoadFile (group_file groupId) with
      | Throw e => (m_config, Throw e)
      | Ret fileToAppend =>
          match MergeYamlNodes m_config fileToAppend with
          | (m_config', Ret _) => merge_groups rest m_config'
          | (m_config', Throw e) => (m_config', Throw e)
          end
      end
  end.

(** [ConfigurationParser::LoadSharedConfig], lines 195-225.  [m_getGroups]
    is [None] for the null function; otherwise it is what the call gives:
    the group ids or an exception.  The [catch] logs and throws again. *)
Definition LoadSharedConfig (m_getGroups : option (Except (list string)))
    (m_config : Node) : Node * Except unit :=
  match m_getGroups with
  | None => (m_config, Ret tt)
  | Some (Throw e) => (m_config, Throw e)
  | Some (Ret groupIds) => merge_groups groupIds m_config
  end.

End LoadSharedConfig.

End YamlMerge.

(* ================================================================== *)
(** * Facts about strings *)
(* ================================================================== *)

Module StringFacts.

Lemma append_assoc (a b c : string) : (a ++ b) ++ c = a ++ (b ++ c).
Proof.
  induction a as [|x a IH]; simpl; [reflexivity | now rewrite IH].
Qed.

Lemma append_nil_r (a : string) : a ++ "" = a.
Proof.
  induction a as [|x a IH]; simpl; [reflexivity | now rewrite IH].
Qed.

Lemma length_append (a b : string) :
  String.length (a ++ b) = (String.length a + String.length b)%nat.
Proof.
  induction a as [|x a IH]; simpl; [reflexivity | now rewrite IH].
Qed.

End StringFacts.

(* ================================================================== *)
(** * The event queue: startup recovery, the gate, the sink worker *)
(* ================================================================== *)

Module EventQueueFacts.

Import EventQueue StringFacts.

(** ** What the loop over a batch collects *)

Lemma concat_empty_cons (x : string) (l : list string) :
  String.concat "" (x :: l) = x ++ String.concat "" l.
Proof.
  destruct l as [|y l]; simpl; [now rewrite append_nil_r | reflexivity].
Qed.

Lemma terminated_is_separated_LF (b : list Event) :
  b <> [] -> payload_terminated b = payload_separated b ++ LF.
Proof.
  unfold payload_terminated, payload_separated.
  induction b as [|e b IH]; intros Hne; [contradiction|].
  cbn [map]. rewrite concat_empty_cons.
  destruct b as [|e' b].
  - cbn. now rewrite append_nil_r.
  - rewrite IH by discriminate. cbn [map String.concat].
    now rewrite !append_assoc.
Qed.

Lemma fold_collect (b : list Event) :
  forall ids d,
    fold_left collect_event b (ids, d)
    = ((ids ++ map id b)%list, d ++ payload_terminated b).
Proof.
  induction b as [|e b IH]; intros ids d.
  - simpl. now rewrite app_nil_r, append_nil_r.
  - cbn [fold_left collect_event]. rewrite IH.
    unfold payload_terminated. cbn [map]. rewrite concat_empty_cons.
    rewrite <- app_assoc. cbn [app].
    now rewrite !append_assoc.
Qed.

Lemma collect_events_eq (b : list Event) :
  collect_events b = (map id b, payload_terminated b).
Proof.
  unfold collect_events. now rewrite fold_collect.
Qed.

Lemma make_worker_eq (b : list Event) :
  make_worker b
  = {| captured_data := payload_terminated b; captured_ids := map id b |}.
Proof.
  unfold make_worker. now rewrite collect_events_eq.
Qed.

(** ** The gate *)

Lemma duration_cast_lt (d : Z) :
  duration_cast_seconds d < T <-> d < T * ticks_per_second.
Proof.
  unfold duration_cast_seconds, T, ticks_per_second.
  destruct (Z_lt_le_dec d 0) as [Hneg | Hpos].
  - split; intros _; [lia|].
    assert (Z.quot d 1000000000 <= 0); [|lia].
    rewrite <- (Z.opp_involutive d), Z.quot_opp_l by lia.
    assert (0 <= Z.quot (- d) 1000000000); [|lia].
    apply Z.quot_pos; lia.
  - rewrite Z.quot_div_nonneg by lia.
    split; intros Hlt.
    + destruct (Z_lt_le_dec d (5 * 1000000000)) as [|Hge]; [assumption|].
      assert (5 <= d / 1000000000); [|lia].
      apply Z.div_le_lower_bound; lia.
    + apply Z.div_lt_upper_bound; lia.
Qed.

Section Generic.

Context {DB : Type} `{QueueDB DB}.

Lemma gate_closed_false_iff (db : DB) (now last : Z) :
  gate_closed db now last = false <-> gate_open db now last.
Proof.
  unfold gate_closed, gate_open.
  rewrite andb_false_iff, !Z.ltb_ge.
  pose proof (duration_cast_lt (now - last)) as Hd.
  unfold N, T in *. lia.
Qed.

Lemma gate_closed_true_iff (db : DB) (now last : Z) :
  gate_closed db now last = true <-> ~ gate_open db now last.
Proof.
  rewrite <- gate_closed_false_iff.
  destruct (gate_closed db now last); split; congruence.
Qed.

Lemma iteration_closed (onEvent : string -> bool) (now last : Z)
    (m : Monitor DB) :
  ~ gate_open (at_gate onEvent m) now last ->
  dispatcher_iteration onEvent now (m, last)
  = ({| eventQueue := at_gate onEvent m; eventDispatchThreads := [] |},
     last, Sleep 1).
Proof.
  intros Hc. apply gate_closed_true_iff in Hc.
  unfold dispatcher_iteration. fold (at_gate onEvent m). now rewrite Hc.
Qed.

Lemma iteration_open (onEvent : string -> bool) (now last : Z)
    (m : Monitor DB) :
  gate_open (at_gate onEvent m) now last ->
  dispatcher_iteration onEvent now (m, last)
  = (let r := fetchAndMarkPendingEvents N (at_gate onEvent m) in
     ({| eventQueue := snd r;
         eventDispatchThreads :=
           match fst r with
           | [] => []
           | _ :: _ => [make_worker (fst r)]
           end |},
      now, Fetch N (fst r))).
Proof.
  intros Ho. apply gate_closed_false_iff in Ho.
  unfold dispatcher_iteration. fold (at_gate onEvent m). rewrite Ho.
  now destruct (fetchAndMarkPendingEvents N (at_gate onEvent m)).
Qed.

(** C3: an iteration of the dispatcher fetches a batch, with limit
    [N = 10], exactly when at least 10 events are pending or at least
    [T = 5] seconds have passed since the last dispatch time; otherwise it
    sleeps one second and the loop goes on with the last dispatch time
    unchanged. *)
Theorem dispatcher_fetches_iff_gate_open (onEvent : string -> bool)
    (now last : Z) (m : Monitor DB) :
  let db := at_gate onEvent m in
  let r := dispatcher_iteration onEvent now (m, last) in
  N = 10 /\ T = 5
  /\ (snd r = Fetch 10 (fst (fetchAndMarkPendingEvents 10 db))
      <-> 10 <= getPendingEventCount db
          \/ 5 * ticks_per_second <= now - last)
  /\ (snd r = Sleep 1
      <-> getPendingEventCount db < 10
          /\ now - last < 5 * ticks_per_second)
  /\ (snd r = Sleep 1 -> snd (fst r) = last /\ eventQueue (fst (fst r)) = db).
Proof.
  intros db r. split; [reflexivity|]. split; [reflexivity|].
  destruct (gate_closed db now last) eqn:Hg.
  - pose proof (proj1 (gate_closed_true_iff db now last) Hg) as Hc.
    assert (Hr : r = ({| eventQueue := db; eventDispatchThreads := [] |},
                      last, Sleep 1))
      by (apply iteration_closed; exact Hc).
    rewrite Hr. cbn [fst snd eventQueue]. unfold gate_open in Hc.
    repeat split; try discriminate; try lia; intros; lia.
  - pose proof (proj1 (gate_closed_false_iff db now last) Hg) as Ho.
    assert (Hr := iteration_open onEvent now last m Ho).
    fold db r in Hr. rewrite Hr. cbn [fst snd]. unfold gate_open in Ho.
    repeat split; try discriminate; try reflexivity; intros; try lia;
      exact Ho.
Qed.

(** C8: when the gate of an iteration is open the last dispatch time
    becomes the current time, also when the fetch returns no event: then no
    worker is spawned, and an iteration that starts less than [T] seconds
    later with fewer than [N] pending events sleeps. *)
Theorem last_dispatch_time_reset (onEvent : string -> bool)
    (now last : Z) (m : Monitor DB) :
  gate_open (at_gate onEvent m) now last ->
  let r := dispatcher_iteration onEvent now (m, last) in
  snd (fst r) = now
  /\ (fst (fetchAndMarkPendingEvents N (at_gate onEvent m)) = [] ->
      snd r = Fetch N []
      /\ eventDispatchThreads (fst (fst r)) = []
      /\ snd (fst r) = now
      /\ forall now',
           now' - now < T * ticks_per_second ->
           getPendingEventCount (at_gate onEvent (fst (fst r))) < N ->
           snd (dispatcher_iteration onEvent now' (fst r)) = Sleep 1).
Proof.
  intros Ho r. unfold r. rewrite (iteration_open onEvent now last m Ho).
  cbn [fst snd]. split; [reflexivity|].
  intros He. rewrite He. cbn [eventDispatchThreads].
  repeat split. intros now' Ht Hn.
  rewrite iteration_closed; [reflexivity|].
  unfold gate_open, N, T in *. lia.
Qed.

(** C2, as the code has it: for a batch that an iteration fetched, the
    worker's payload is every event's payload, in order, each followed by a
    line feed, that is, the payloads separated by line feeds and one more
    line feed; the worker calls [onEvent] on it and then [updateEventStatus]
    with the ids of the batch, in order, and ["dispatched"] when the
    callback returned [true], ["pending"] when it returned [false]. *)
Theorem sink_worker_reports_batch (onEvent : string -> bool)
    (now last : Z) (m : Monitor DB) (batch : list Event) :
  gate_open (at_gate onEvent m) now last ->
  fst (fetchAndMarkPendingEvents N (at_gate onEvent m)) = batch ->
  batch <> [] ->
  exists w,
    eventDispatchThreads (fst (fst (dispatcher_iteration onEvent now (m, last))))
    = [w]
    /\ captured_data w = payload_terminated batch
    /\ captured_data w = payload_separated batch ++ LF
    /\ captured_ids w = map id batch
    /\ (onEvent (payload_terminated batch) = true ->
        forall db, run_worker onEvent w db
                   = updateEventStatus (map id batch) "dispatched" db)
    /\ (onEvent (payload_terminated batch) = false ->
        forall db, run_worker onEvent w db
                   = updateEventStatus (map id batch) "pending" db).
Proof.
  intros Ho Hb Hne. rewrite (iteration_open onEvent now last m Ho).
  cbn [fst snd eventDispatchThreads]. rewrite Hb.
  destruct batch as [|e b]; [contradiction|].
  exists (make_worker (e :: b)). rewrite make_worker_eq.
  cbn [captured_data captured_ids].
  split; [reflexivity|]. split; [reflexivity|].
  split; [now apply terminated_is_separated_LF|].
  split; [reflexivity|]. split.
  - intros Ht db. unfold run_worker. cbn [captured_data captured_ids].
    now rewrite Ht.
  - intros Hf db. unfold run_worker. cbn [captured_data captured_ids].
    now rewrite Hf.
Qed.

End Generic.

(** ** On the store *)

Lemma recovery_clears (from to : string) (s : Store) :
  from <> to ->
  forall e, In e (store_updateEntriesStatus from to s) -> status e <> from.
Proof.
  intros Hft e Hin. unfold store_updateEntriesStatus in Hin.
  apply in_map_iff in Hin. destruct Hin as [x [Hx _]].
  unfold has_status in Hx.
  destruct (String.eqb_spec (status x) from) as [Heq | Hneq]; subst e.
  - cbn. congruence.
  - exact Hneq.
Qed.

(** C1: whatever the store holds before the start, after the constructor
    has run [createTable] and the recovery update, every event that was
    ['processing'] is ['pending'], every other event is as it was, and the
    store the dispatcher thread starts with holds no ['processing'] event,
    nor does the store at the gate of its first iteration. *)
Theorem startup_recovery (s : Store) :
  let m := construct s in
  (forall e, In e s -> status e = "processing" ->
             In (with_status "pending" e) (eventQueue m))
  /\ (forall e, In e s -> status e <> "processing" -> In e (eventQueue m))
  /\ (forall e, In e (eventQueue m) -> status e <> "processing")
  /\ map id (eventQueue m) = map id s
  /\ eventDispatchThreads m = []
  /\ (forall onEvent e, In e (at_gate onEvent m) ->
                        status e <> "processing").
Proof.
  cbn. unfold store_createTable.
  assert (Hclear : forall e,
            In e (store_updateEntriesStatus "processing" "pending" s) ->
            status e <> "processing")
    by (apply recovery_clears; discriminate).
  repeat split.
  - intros e Hin Hst. unfold store_updateEntriesStatus.
    apply in_map_iff. exists e. split; [|exact Hin].
    unfold has_status. now rewrite Hst.
  - intros e Hin Hst. unfold store_updateEntriesStatus.
    apply in_map_iff. exists e. split; [|exact Hin].
    unfold has_status. apply String.eqb_neq in Hst. now rewrite Hst.
  - exact Hclear.
  - unfold store_updateEntriesStatus. rewrite map_map.
    apply map_ext. intros e. now destruct (has_status "processing" e).
  - intros onEvent e Hin. unfold at_gate in Hin. cbn in Hin.
    unfold store_deleteEntriesWithStatus in Hin.
    apply filter_In in Hin. now apply Hclear.
Qed.

Lemma startup_recovery_witness :
  let e := mkEvent 7 "login failed" "json" "processing" in
  let s := [mkEvent 6 "boot" "json" "dispatched"; e] in
  In e s /\ status e = "processing"
  /\ In (with_status "pending" e) (eventQueue (construct s)).
Proof.
  intros e s.
  assert (Hin : In e s) by (right; left; reflexivity).
  repeat split; [exact Hin|].
  exact (proj1 (startup_recovery s) e Hin eq_refl).
Defined.

Lemma last_dispatch_time_reset_witness :
  let m := @mkMonitor Store [] [] in
  gate_open (at_gate (fun _ => true) m) 5000000000 0
  /\ snd (fst (dispatcher_iteration (fun _ => true) 5000000000 (m, 0)))
     = 5000000000.
Proof.
  intros m.
  assert (Ho : gate_open (at_gate (fun _ => true) m) 5000000000 0)
    by (right; vm_compute; discriminate).
  split; [exact Ho|].
  exact (proj1 (last_dispatch_time_reset (fun _ => true) 5000000000 0 m Ho)).
Defined.

Lemma sink_worker_reports_batch_witness :
  let m := @mkMonitor Store [mkEvent 1 "a" "json" "pending";
                             mkEvent 2 "b" "xml" "pending"] [] in
  let batch := [mkEvent 1 "a" "json" "processing";
                mkEvent 2 "b" "xml" "processing"] in
  exists w,
    eventDispatchThreads
      (fst (fst (dispatcher_iteration (fun _ => false) 6000000000 (m, 0))))
    = [w]
    /\ captured_data w = payload_terminated batch
    /\ captured_ids w = [1; 2].
Proof.
  intros m batch.
  assert (Ho : gate_open (at_gate (fun _ => false) m) 6000000000 0)
    by (right; vm_compute; discriminate).
  assert (Hne : batch <> []) by discriminate.
  destruct (sink_worker_reports_batch (fun _ => false) 6000000000 0 m batch
              Ho eq_refl Hne) as [w [Hw [Hd [_ [Hi _]]]]].
  exists w. repeat split; assumption.
Defined.

(** C2 as worded fails: the payload of a fetched batch of one event ends
    with a line feed, so it is not the payloads separated by line feeds. *)
Lemma payload_not_separated :
  let s := [mkEvent 1 "a" "json" "pending"] in
  let batch := fst (fetchAndMarkPendingEvents N s) in
  batch = [mkEvent 1 "a" "json" "processing"]
  /\ captured_data (make_worker batch) = "a" ++ LF
  /\ payload_separated batch = "a"
  /\ captured_data (make_worker batch) <> payload_separated batch.
Proof.
  cbn. repeat split. discriminate.
Qed.

(** ** Runs of the dispatcher *)

(** Three pending events and an accepting sink: the dispatcher sleeps until
    five seconds have passed, fetches the three events in one batch, and the
    events are gone two iterations later. *)
Example batch_by_time :
  let s := [mkEvent 1 "a" "json" "pending";
            mkEvent 2 "b" "json" "processing";
            mkEvent 3 "c" "xml" "pending"] in
  dispatcher (fun _ => true) 0
             [1000000000; 2000000000; 3000000000; 4999999999;
              5000000000; 6000000000; 7000000000]
             (construct s)
  = ({| eventQueue := []; eventDispatchThreads := [] |}, 5000000000,
     [Sleep 1; Sleep 1; Sleep 1; Sleep 1;
      Fetch 10 [mkEvent 1 "a" "json" "processing";
                mkEvent 2 "b" "json" "processing";
                mkEvent 3 "c" "xml" "processing"];
      Sleep 1; Sleep 1]).
Proof. reflexivity. Qed.

(** A refusing sink: the events of the batch are pending again after the
    worker is joined. *)
Example sink_failure :
  let s := [mkEvent 1 "a" "json" "pending"; mkEvent 2 "b" "json" "pending"] in
  dispatcher (fun _ => false) 0 [5000000000; 6000000000] (construct s)
  = ({| eventQueue := s; eventDispatchThreads := [] |}, 5000000000,
     [Fetch 10 [mkEvent 1 "a" "json" "processing";
                mkEvent 2 "b" "json" "processing"];
      Sleep 1]).
Proof. reflexivity. Qed.

End EventQueueFacts.

(* ================================================================== *)
(** * The communicator: authentication outcome and timer duration *)
(* ================================================================== *)

Module CommunicatorFacts.

Import Beast Communicator.

Section Authentication.

Variable jwt_decode : string -> Except decoded_jwt.

Lemma send_no_token (c : Communicator.Communicator) :
  SendAuthenticationRequest jwt_decode None c = (c, Ret unauthorized).
Proof. reflexivity. Qed.

Lemma send_no_exp (value : string) (c : Communicator.Communicator) :
  jwt_decode value = Ret {| exp_claim := None |} ->
  SendAuthenticationRequest jwt_decode (Some value) c
  = ({| m_token := ""; m_tokenExpTimeInSeconds := 1 |}, Ret unauthorized).
Proof.
  intros Hd. unfold SendAuthenticationRequest. cbn [m_token].
  now rewrite Hd.
Qed.

Lemma send_with_exp (value : string) (exp_time : Z)
    (c : Communicator.Communicator) :
  jwt_decode value = Ret {| exp_claim := Some exp_time |} ->
  SendAuthenticationRequest jwt_decode (Some value) c
  = ({| m_token := value; m_tokenExpTimeInSeconds := exp_time |}, Ret ok).
Proof.
  intros Hd. unfold SendAuthenticationRequest. cbn [m_token].
  now rewrite Hd.
Qed.

(** C4, as the code has it: when no token is obtained the stored token and
    the stored expiry stay as they were and the result is Unauthorized;
    when the token obtained has no ['exp'] claim the stored token is
    cleared, the stored expiry is 1 and the result is Unauthorized; when it
    has one, the token and the claim's epoch seconds are stored and the
    result is OK. *)
Theorem authentication_outcomes (token : option string)
    (c : Communicator.Communicator) :
  (token = None -> SendAuthenticationRequest jwt_decode token c = (c, Ret unauthorized))
  /\ (forall value,
        token = Some value ->
        jwt_decode value = Ret {| exp_claim := None |} ->
        SendAuthenticationRequest jwt_decode token c
        = ({| m_token := ""; m_tokenExpTimeInSeconds := 1 |},
           Ret unauthorized))
  /\ (forall value exp_time,
        token = Some value ->
        jwt_decode value = Ret {| exp_claim := Some exp_time |} ->
        SendAuthenticationRequest jwt_decode token c
        = ({| m_token := value; m_tokenExpTimeInSeconds := exp_time |},
           Ret ok)).
Proof.
  repeat split.
  - intros ->. apply send_no_token.
  - intros value -> Hd. now apply send_no_exp.
  - intros value exp_time -> Hd. now apply send_with_exp.
Qed.

(** C9: after a successful authentication the timer duration is
    [(GetTokenRemainingSecs() - 2) * 1000] milliseconds, with no lower
    bound applied (it is -2000 when nothing remains): when at most 2
    seconds remain it is zero or negative and the timer does not wait;
    after a failed authentication it is 1000 milliseconds. *)
Theorem timer_duration (token : option string) (now_seconds : Z)
    (c : Communicator.Communicator) :
  let c' := fst (SendAuthenticationRequest jwt_decode token c) in
  let remaining := GetTokenRemainingSecs now_seconds c' in
  fst (duration jwt_decode token now_seconds c) = c'
  /\ (snd (SendAuthenticationRequest jwt_decode token c) = Ret ok ->
      snd (duration jwt_decode token now_seconds c)
      = Ret ((remaining - 2) * 1000)
      /\ remaining = Z.max 0 (m_tokenExpTimeInSeconds c' - now_seconds)
      /\ -2000 <= (remaining - 2) * 1000
      /\ (remaining <= 2 ->
          (remaining - 2) * 1000 <= 0
          /\ timer_wait ((remaining - 2) * 1000) = 0))
  /\ (forall result,
        snd (SendAuthenticationRequest jwt_decode token c) = Ret result ->
        result <> ok ->
        snd (duration jwt_decode token now_seconds c) = Ret 1000).
Proof.
  intros c' remaining. subst remaining c'. unfold duration.
  destruct (SendAuthenticationRequest jwt_decode token c) as [c1 r].
  cbn [fst snd]. split; [reflexivity|]. split.
  - intros ->. cbn. unfold GetTokenRemainingSecs, timer_wait,
      TOKEN_PRE_EXPIRY_SECS, A_SECOND_IN_MILLIS.
    repeat split; lia.
  - intros result -> Hne. cbn.
    apply Z.eqb_neq in Hne. now rewrite Hne.
Qed.

End Authentication.

(** A decoder for the examples: the token ["jwt-exp-100"] carries the claim
    [exp = 100], any other string decodes to a token without the claim. *)
Lemma authentication_outcomes_witness :
  let decode := fun t : string =>
    if String.eqb t "jwt-exp-100"
    then Ret {| exp_claim := Some 100 |}
    else Ret {| exp_claim := None |} in
  let c := {| m_token := "old"; m_tokenExpTimeInSeconds := 50 |} in
  SendAuthenticationRequest decode None c = (c, Ret unauthorized)
  /\ SendAuthenticationRequest decode (Some "no-exp") c
     = ({| m_token := ""; m_tokenExpTimeInSeconds := 1 |}, Ret unauthorized)
  /\ SendAuthenticationRequest decode (Some "jwt-exp-100") c
     = ({| m_token := "jwt-exp-100"; m_tokenExpTimeInSeconds := 100 |},
        Ret ok).
Proof.
  intros decode c. split; [|split].
  - exact (proj1 (authentication_outcomes decode None c) eq_refl).
  - exact (proj1 (proj2 (authentication_outcomes decode (Some "no-exp") c))
             "no-exp" eq_refl eq_refl).
  - exact (proj2 (proj2 (authentication_outcomes decode
                           (Some "jwt-exp-100") c))
             "jwt-exp-100" 100 eq_refl eq_refl).
Defined.

(** C4 as worded fails: when no token is obtained the stored token is not
    cleared and the stored expiry is not set to 1. *)
Lemma failed_authentication_keeps_token :
  let decode := fun _ : string => Ret {| exp_claim := None |} in
  let c := {| m_token := "old"; m_tokenExpTimeInSeconds := 50 |} in
  let c' := fst (SendAuthenticationRequest decode None c) in
  snd (SendAuthenticationRequest decode None c) = Ret unauthorized
  /\ m_token c' = "old" /\ m_token c' <> ""
  /\ m_tokenExpTimeInSeconds c' = 50 /\ m_tokenExpTimeInSeconds c' <> 1.
Proof.
  cbn. repeat split; discriminate.
Qed.

Lemma timer_duration_witness :
  let decode := fun t : string =>
    if String.eqb t "jwt-exp-100"
    then Ret {| exp_claim := Some 100 |}
    else Ret {| exp_claim := None |} in
  let c := {| m_token := ""; m_tokenExpTimeInSeconds := 0 |} in
  snd (duration decode (Some "jwt-exp-100") 99 c) = Ret (-1000)
  /\ snd (duration decode (Some "jwt-exp-100") 90 c) = Ret 8000
  /\ snd (duration decode None 90 c) = Ret 1000.
Proof.
  intros decode c. split; [|split].
  - exact (proj1 (proj1 (proj2 (timer_duration decode
                                  (Some "jwt-exp-100") 99 c)) eq_refl)).
  - exact (proj1 (proj1 (proj2 (timer_duration decode
                                  (Some "jwt-exp-100") 90 c)) eq_refl)).
  - refine (proj2 (proj2 (timer_duration decode None 90 c))
              unauthorized eq_refl _).
    discriminate.
Defined.

End CommunicatorFacts.

(* ================================================================== *)
(** * The HTTP client: authorization header, exceptions *)
(* ================================================================== *)

Module HttpClientFacts.

Import Beast HttpClient StringFacts.

(** ** Header fields *)

Lemma field_eqb_eq (a b : field) : field_eqb a b = true <-> a = b.
Proof.
  destruct a, b; cbn; split; intros E; try reflexivity; discriminate.
Qed.

Lemma field_eqb_refl (a : field) : field_eqb a a = true.
Proof. now apply field_eqb_eq. Qed.

Lemma field_eqb_neq (a b : field) : field_eqb a b = false <-> a <> b.
Proof.
  rewrite <- field_eqb_eq. destruct (field_eqb a b); split; congruence.
Qed.

Lemma find_app (f : field) (xs ys : fields) :
  find f (xs ++ ys)%list
  = match find f xs with Some v => Some v | None => find f ys end.
Proof.
  unfold find. induction xs as [|[g v] xs IH]; cbn; [reflexivity|].
  destruct (field_eqb g f); [reflexivity | exact IH].
Qed.

Lemma find_erase_same (f : field) (fs : fields) : find f (erase f fs) = None.
Proof.
  unfold find, erase. induction fs as [|[g v] fs IH]; cbn; [reflexivity|].
  destruct (field_eqb g f) eqn:E; cbn; [exact IH | now rewrite E].
Qed.

Lemma find_erase_other (f g : field) (fs : fields) :
  f <> g -> find f (erase g fs) = find f fs.
Proof.
  intros Hne. unfold find, erase.
  induction fs as [|[h v] fs IH]; cbn; [reflexivity|].
  destruct (field_eqb h g) eqn:Eg; cbn.
  - apply field_eqb_eq in Eg. subst h.
    assert (Ef : field_eqb g f = false)
      by (apply field_eqb_neq; congruence).
    now rewrite Ef.
  - destruct (field_eqb h f); [reflexivity | exact IH].
Qed.

Lemma find_set_same (f : field) (v : string) (fs : fields) :
  find f (set f v fs) = Some v.
Proof.
  unfold set. rewrite find_app, find_erase_same.
  unfold find. cbn. now rewrite field_eqb_refl.
Qed.

Lemma find_set_other (f g : field) (v : string) (fs : fields) :
  f <> g -> find f (set g v fs) = find f fs.
Proof.
  intros Hne. unfold set. rewrite find_app, find_erase_other by exact Hne.
  destruct (find f fs); [reflexivity|].
  unfold find. cbn.
  assert (E : field_eqb g f = false) by (apply field_eqb_neq; congruence).
  now rewrite E.
Qed.

Lemma find_set_chunked_false (f : field) (fs : fields) :
  f <> transfer_encoding -> find f (set_chunked_false fs) = find f fs.
Proof.
  intros Hne. unfold set_chunked_false.
  destruct (find transfer_encoding fs) as [v|]; [|reflexivity].
  destruct (String.eqb_spec v "chunked") as [-> | Hv].
  - now apply find_erase_other.
  - destruct v as [|c v]; [reflexivity|].
    repeat (match goal with
            | |- context [match ?x with _ => _ end] => destruct x
            end; try reflexivity).
    now apply find_erase_other.
Qed.

Lemma find_set_content_length (f : field) (n : nat) (fs : fields) :
  f <> transfer_encoding -> f <> content_length ->
  find f (set_content_length n fs) = find f fs.
Proof.
  intros H1 H2. unfold set_content_length.
  rewrite find_set_chunked_false by exact H1.
  now apply find_set_other.
Qed.

Lemma prepare_payload_authorization (req req' : request) :
  prepare_payload req = Ret req' ->
  find authorization (req_fields req') = find authorization (req_fields req).
Proof.
  unfold prepare_payload.
  destruct (verb_eqb (method req) trace && (0 <? String.length (req_body req))%nat);
    [discriminate|].
  destruct ((0 <? String.length (req_body req))%nat
            || verb_eqb (method req) options
            || verb_eqb (method req) put || verb_eqb (method req) post);
    intros E; injection E as <-; cbn [req_fields].
  - apply find_set_content_length; discriminate.
  - apply find_set_chunked_false; discriminate.
Qed.

(** C6, as the code has it: the Authorization header of the request is
    ["Basic <userPass>"] whenever [User_pass] is not empty, also when a
    token is given; it is ["Bearer <token>"] only when the token is not
    empty and [User_pass] is empty; with neither there is no such header.
    No request is built only for TRACE with a body. *)
Theorem authorization_header (params : HttpRequestParams) :
  match CreateHttpRequest params with
  | Ret req =>
      find authorization (req_fields req) = authorization_basic_last params
  | Throw _ => Method params = trace /\ Body params <> ""
  end.
Proof.
  unfold CreateHttpRequest, authorization_basic_last.
  destruct (empty (Token params)), (empty (User_pass params)),
    (empty (Body params)) eqn:Hb; cbn [negb]; try reflexivity;
    match goal with
    | |- match prepare_payload ?r with _ => _ end =>
        destruct (prepare_payload r) as [req|e] eqn:Hp
    end;
    try (rewrite (prepare_payload_authorization _ _ Hp); reflexivity);
    (split; [|intros E; rewrite E in Hb; discriminate]);
    unfold prepare_payload in Hp; cbn in Hp;
    destruct (Method params); try reflexivity; cbn in Hp;
    destruct (Body params); discriminate.
Qed.

(** C6 as worded fails: with a token and basic credentials the request
    carries the Basic authorization, not the Bearer one. *)
Lemma basic_overrides_bearer :
  let params := mkParams post "manager" "27000" "/stateless" "agent"
                         "tok" "dXNlcjpwdw==" "" false in
  exists req,
    CreateHttpRequest params = Ret req
    /\ find authorization (req_fields req) = Some "Basic dXNlcjpwdw=="
    /\ authorization_bearer_first params = Some "Bearer tok"
    /\ find authorization (req_fields req)
       <> authorization_bearer_first params.
Proof.
  eexists. split; [reflexivity|]. cbn. repeat split. discriminate.
Qed.

(** The request of a pipeline: a token and no basic credentials. *)
Example bearer_alone :
  let params := mkParams get "manager" "27000" "/commands" "agent"
                         "tok" "" "" false in
  exists req,
    CreateHttpRequest params = Ret req
    /\ find authorization (req_fields req) = Some "Bearer tok".
Proof.
  eexists. split; reflexivity.
Qed.

(** ** Exceptions of the synchronous request *)

Lemma contains_error_text (partial : string) (e : exception) :
  contains (what e) (partial ++ "Internal server error: " ++ what e).
Proof.
  exists (partial ++ "Internal server error: "), "".
  now rewrite append_nil_r, append_assoc.
Qed.

Lemma catch_block_error (res : response) (e : exception) :
  error_response (catch_block res e) e.
Proof.
  split; [reflexivity | apply contains_error_text].
Qed.

(** Two equations on the outcome of the same step are brought together. *)
Ltac same_step :=
  repeat match goal with
  | H : Ret _ = Ret _ |- _ => injection H as H; subst
  | H : Throw _ = Throw _ |- _ => injection H as H; subst
  | H : (_, _) = (_, _) |- _ => injection H; clear H; intros; subst
  | H : Ret _ = Throw _ |- _ => discriminate H
  | H : Throw _ = Ret _ |- _ => discriminate H
  | H1 : ?x = _, H2 : ?x = _ |- _ => rewrite H1 in H2
  end.

(** C7: [PerformHttpRequest] returns a response for every network and
    every parameters value.  When resolve, connect, the construction of the
    request, write or read throws, the response has status 500 and its body
    contains the text of the exception; when none throws, the response is
    the one that was read. *)
Theorem PerformHttpRequest_total (net : Network)
    (params : HttpRequestParams) :
  let res := PerformHttpRequest net params in
  let https := Use_Https params in
  let resolved := Resolve net (Host params) (Port params) in
  (forall e, resolved = Throw e -> error_response res e)
  /\ (forall results e,
        resolved = Ret results ->
        Connect net https results = Throw e -> error_response res e)
  /\ (forall results e,
        resolved = Ret results ->
        Connect net https results = Ret tt ->
        CreateHttpRequest params = Throw e -> error_response res e)
  /\ (forall results req e,
        resolved = Ret results ->
        Connect net https results = Ret tt ->
        CreateHttpRequest params = Ret req ->
        Write net https req = Throw e -> error_response res e)
  /\ (forall results req partial e,
        resolved = Ret results ->
        Connect net https results = Ret tt ->
        CreateHttpRequest params = Ret req ->
        Write net https req = Ret tt ->
        Read net https req empty_response = (partial, Some e) ->
        error_response res e)
  /\ (forall results req read,
        resolved = Ret results ->
        Connect net https results = Ret tt ->
        CreateHttpRequest params = Ret req ->
        Write net https req = Ret tt ->
        Read net https req empty_response = (read, None) ->
        res = read)
  /\ ((exists e, error_response res e)
      \/ (exists req, CreateHttpRequest params = Ret req
                      /\ Read net https req empty_response = (res, None))).
Proof.
  intros res https resolved. subst res https resolved.
  unfold PerformHttpRequest, try_block.
  destruct (Resolve net (Host params) (Port params))
    as [results|e0] eqn:H1;
  [destruct (Connect net (Use_Https params) results) as [[]|e0] eqn:H2;
   [destruct (CreateHttpRequest params) as [req|e0] eqn:H3;
    [destruct (Write net (Use_Https params) req) as [[]|e0] eqn:H4;
     [destruct (Read net (Use_Https params) req empty_response)
        as [read [e0|]] eqn:H5 | ] | ] | ] | ];
  (repeat split;
   [ intros; same_step; try discriminate;
     try apply catch_block_error; reflexivity .. | ]);
  first [ left; exists e0; apply catch_block_error
        | right; exists req; split; [reflexivity | assumption] ].
Qed.

Lemma PerformHttpRequest_total_witness :
  let net := {| endpoints := unit;
                Resolve := fun _ _ =>
                  Throw (std_exception "resolve: Host not found");
                Connect := fun _ _ => Ret tt;
                Write := fun _ _ => Ret tt;
                Read := fun _ _ res => (res, None) |} in
  let params := mkParams post "manager" "27000" "/api/v1/authentication"
                         "agent" "" "" "{}" false in
  Resolve net (Host params) (Port params)
  = Throw (std_exception "resolve: Host not found")
  /\ error_response (PerformHttpRequest net params)
                    (std_exception "resolve: Host not found").
Proof.
  intros net params. split; [reflexivity|].
  exact (proj1 (PerformHttpRequest_total net params)
           (std_exception "resolve: Host not found") eq_refl).
Defined.

End HttpClientFacts.

(* ================================================================== *)
(** * The time-unit parser: units, digits, range *)
(* ================================================================== *)

Module ConfigurationParserFacts.

Import ConfigurationParser StringFacts.

(** ** Prefixes and suffixes *)

Lemma substring_prefix (a b : string) :
  substring 0 (String.length a) (a ++ b) = a.
Proof.
  induction a as [|c a IH]; cbn.
  - now destruct b.
  - now rewrite IH.
Qed.

Lemma substring_suffix (a b : string) :
  substring (String.length a) (String.length b) (a ++ b) = b.
Proof.
  induction a as [|c a IH]; cbn; [|exact IH].
  induction b as [|c b IHb]; cbn; [reflexivity | now rewrite IHb].
Qed.

Lemma substring_split (s : string) :
  forall m, (m <= String.length s)%nat ->
            substring 0 m s ++ substring m (String.length s - m) s = s.
Proof.
  induction s as [|c s IH]; intros m Hm.
  - destruct m; [reflexivity | cbn in Hm; lia].
  - destruct m as [|m].
    + cbn [substring append]. cbn [String.length Nat.sub].
      f_equal. specialize (IH 0%nat (Nat.le_0_l _)).
      rewrite Nat.sub_0_r in IH.
      assert (E : substring 0 0 s = "") by (now destruct s).
      now rewrite E in IH.
    + cbn [substring append String.length Nat.sub]. f_equal.
      apply IH. cbn in Hm. lia.
Qed.

Lemma ends_with_append (a suffix : string) :
  ends_with (a ++ suffix) suffix = true.
Proof.
  unfold ends_with. rewrite length_append.
  replace (String.length a + String.length suffix - String.length suffix)%nat
    with (String.length a) by lia.
  rewrite substring_suffix, String.eqb_refl, andb_true_r.
  apply Nat.leb_le. lia.
Qed.

Lemma ends_with_inv (s suffix : string) :
  ends_with s suffix = true -> exists p, s = p ++ suffix.
Proof.
  unfold ends_with. intros H. apply andb_prop in H. destruct H as [Hl He].
  apply Nat.leb_le in Hl. apply String.eqb_eq in He.
  exists (substring 0 (String.length s - String.length suffix) s).
  rewrite <- He at 2.
  pose proof (substring_split s (String.length s - String.length suffix))
    as Hs.
  replace (String.length s - (String.length s - String.length suffix))%nat
    with (String.length suffix) in Hs by lia.
  symmetry. apply Hs. lia.
Qed.

Lemma append_last_inj (a b : string) (c d : ascii) :
  a ++ String c "" = b ++ String d "" -> a = b /\ c = d.
Proof.
  revert b. induction a as [|x a IH]; intros [|y b] E; cbn in E.
  - injection E as ->. now split.
  - injection E as -> E. destruct b; discriminate.
  - injection E as -> E. destruct a; discriminate.
  - injection E as -> E. destruct (IH b E) as [-> ->]. now split.
Qed.

Lemma all_of_append (p : ascii -> bool) (a b : string) :
  all_of p (a ++ b) = all_of p a && all_of p b.
Proof.
  induction a as [|c a IH]; cbn; [reflexivity|].
  now rewrite IH, andb_assoc.
Qed.

Lemma ends_with_all_of (p : ascii -> bool) (s suffix : string) :
  ends_with s suffix = true -> all_of p s = true -> all_of p suffix = true.
Proof.
  intros He Hall. destruct (ends_with_inv _ _ He) as [q ->].
  rewrite all_of_append in Hall. now apply andb_prop in Hall.
Qed.

Lemma ends_with_last (a suffix : string) (c d : ascii) :
  ends_with (a ++ String c "") (suffix ++ String d "") = true ->
  c = d /\ ends_with a suffix = true.
Proof.
  intros He. destruct (ends_with_inv _ _ He) as [q Hq].
  rewrite <- append_assoc in Hq.
  destruct (append_last_inj _ _ _ _ Hq) as [-> ->].
  split; [reflexivity | apply ends_with_append].
Qed.

(** A string of digits does not end with a unit. *)
Lemma digits_no_suffix (number suffix : string) :
  all_of isdigit number = true -> all_of isdigit suffix = false ->
  ends_with number suffix = false.
Proof.
  intros Hd Hs. destruct (ends_with number suffix) eqn:He; [|reflexivity].
  rewrite (ends_with_all_of _ _ _ He Hd) in Hs. discriminate.
Qed.

Lemma unit_no_suffix (number suffix : string) (c d : ascii) :
  all_of isdigit number = true ->
  c <> d \/ all_of isdigit suffix = false ->
  ends_with (number ++ String c "") (suffix ++ String d "") = false.
Proof.
  intros Hd Hor.
  destruct (ends_with (number ++ String c "") (suffix ++ String d ""))
    eqn:He; [|reflexivity].
  destruct (ends_with_last _ _ _ _ He) as [Hc Hs].
  destruct Hor as [Hne | Hns]; [contradiction|].
  rewrite (ends_with_all_of _ _ _ Hs Hd) in Hns. discriminate.
Qed.

Lemma length_unit (number suffix : string) :
  (String.length (number ++ suffix) - String.length suffix)%nat
  = String.length number.
Proof. rewrite length_append. lia. Qed.

(** ** What the chain of [if]s leaves *)

(** [number ++ c] does not end with [suffix ++ d]: the last characters
    differ, or [number] would end with [suffix]. *)
Ltac not_unit number suffix c d :=
  let E := fresh "E" in
  assert (E : ends_with (number ++ String c "") (suffix ++ String d "")
              = false)
    by (apply unit_no_suffix;
        [assumption | first [left; discriminate | right; reflexivity]]);
  cbn [append] in E; rewrite E; clear E.

Lemma split_ms (number : string) :
  split_unit (number ++ "ms") = (number, 1).
Proof.
  unfold split_unit. rewrite ends_with_append.
  change 2%nat with (String.length "ms").
  now rewrite length_unit, substring_prefix.
Qed.

Lemma split_one (number : string) (c : ascii) :
  substring 0 (String.length (number ++ String c "") - 1)
            (number ++ String c "") = number.
Proof.
  change 1%nat with (String.length (String c "")).
  now rewrite length_unit, substring_prefix.
Qed.

Lemma split_s (number : string) :
  all_of isdigit number = true ->
  split_unit (number ++ "s") = (number, A_SECOND_IN_MILLIS).
Proof.
  intros Hd. unfold split_unit.
  not_unit number "m" "s"%char "s"%char.
  rewrite (ends_with_append number "s").
  now rewrite split_one.
Qed.

Lemma split_m (number : string) :
  all_of isdigit number = true ->
  split_unit (number ++ "m") = (number, A_MINUTE_IN_MILLIS).
Proof.
  intros Hd. unfold split_unit.
  not_unit number "m" "m"%char "s"%char.
  not_unit number "" "m"%char "s"%char.
  rewrite (ends_with_append number "m").
  now rewrite split_one.
Qed.

Lemma split_h (number : string) :
  all_of isdigit number = true ->
  split_unit (number ++ "h") = (number, A_HOUR_IN_MILLIS).
Proof.
  intros Hd. unfold split_unit.
  not_unit number "m" "h"%char "s"%char.
  not_unit number "" "h"%char "s"%char.
  not_unit number "" "h"%char "m"%char.
  rewrite (ends_with_append number "h").
  now rewrite split_one.
Qed.

Lemma split_d (number : string) :
  all_of isdigit number = true ->
  split_unit (number ++ "d") = (number, A_DAY_IN_MILLIS).
Proof.
  intros Hd. unfold split_unit.
  not_unit number "m" "d"%char "s"%char.
  not_unit number "" "d"%char "s"%char.
  not_unit number "" "d"%char "m"%char.
  not_unit number "" "d"%char "h"%char.
  rewrite (ends_with_append number "d").
  now rewrite split_one.
Qed.

Lemma split_plain (number : string) :
  all_of isdigit number = true ->
  split_unit number = (number, A_SECOND_IN_MILLIS).
Proof.
  intros Hd. unfold split_unit.
  now rewrite !(digits_no_suffix number) by (assumption || reflexivity).
Qed.

(** ** Values *)

Lemma isdigit_value (c : ascii) :
  isdigit c = true -> 0 <= digit_value c <= 9.
Proof.
  unfold isdigit, digit_value. intros H. apply andb_prop in H.
  destruct H as [H1 H2]. apply Nat.leb_le in H1, H2. lia.
Qed.

Lemma decimal_value_nonneg (s : string) :
  forall acc, all_of isdigit s = true -> 0 <= acc ->
              0 <= decimal_value acc s.
Proof.
  induction s as [|c s IH]; intros acc Hall Hacc; cbn; [exact Hacc|].
  cbn in Hall. apply andb_prop in Hall. destruct Hall as [Hc Hs].
  apply IH; [exact Hs|]. pose proof (isdigit_value c Hc). lia.
Qed.

Lemma stoul_digits (number : string) :
  digits number -> decimal_value 0 number <= ULONG_MAX ->
  stoul number = Ret (decimal_value 0 number).
Proof.
  intros [Hne _] Hle. unfold stoul.
  destruct number as [|c r]; [contradiction|].
  apply Z.leb_le in Hle. now rewrite Hle.
Qed.

Lemma parse_in_range (option number : string) (multiplier : Z) :
  split_unit option = (number, multiplier) ->
  digits number -> 1 <= multiplier ->
  decimal_value 0 number * multiplier <= TIME_T_MAX ->
  ParseTimeUnit option = Ret (decimal_value 0 number * multiplier).
Proof.
  intros Hs Hd Hm Hle. unfold ParseTimeUnit. rewrite Hs.
  pose proof (decimal_value_nonneg number 0 (proj2 Hd) (Z.le_refl 0)) as H0.
  destruct Hd as [Hne Hall]. rewrite Hall. cbn [negb].
  unfold TIME_T_MAX in Hle.
  rewrite stoul_digits; [|now split | unfold ULONG_MAX; nia].
  cbn [bind]. f_equal. unfold wrap_ulong, to_time_t.
  rewrite Z.mod_small by nia.
  assert (Hlt : (decimal_value 0 number * multiplier <? 2 ^ 63) = true)
    by (apply Z.ltb_lt; lia).
  now rewrite Hlt.
Qed.

(** C10, as the code has it: for a non-empty string of digits with value
    [n], [ParseTimeUnit] returns [n] for the suffix ["ms"], [n * 1000] for
    ["s"], [n * 60000] for ["m"], [n * 3600000] for ["h"],
    [n * 86400000] for ["d"] and [n * 1000] for no suffix, whenever that
    product is at most the largest [std::time_t]; and for every input whose
    characters before the unit are not all digits it throws
    [std::invalid_argument]. *)
Theorem ParseTimeUnit_units :
  (forall number, digits number ->
     let n := decimal_value 0 number in
     (n <= TIME_T_MAX -> ParseTimeUnit (number ++ "ms") = Ret n)
     /\ (n * 1000 <= TIME_T_MAX ->
         ParseTimeUnit (number ++ "s") = Ret (n * 1000))
     /\ (n * 60000 <= TIME_T_MAX ->
         ParseTimeUnit (number ++ "m") = Ret (n * 60000))
     /\ (n * 3600000 <= TIME_T_MAX ->
         ParseTimeUnit (number ++ "h") = Ret (n * 3600000))
     /\ (n * 86400000 <= TIME_T_MAX ->
         ParseTimeUnit (number ++ "d") = Ret (n * 86400000))
     /\ (n * 1000 <= TIME_T_MAX -> ParseTimeUnit number = Ret (n * 1000)))
  /\ (forall option,
        all_of isdigit (fst (split_unit option)) = false ->
        ParseTimeUnit option
        = Throw (std_invalid_argument ("Invalid time unit: " ++ option))).
Proof.
  split.
  - intros number Hd n. pose proof (proj2 Hd) as Hall. subst n.
    split; [|split; [|split; [|split; [|split]]]]; intros Hle.
    + replace (Ret (decimal_value 0 number))
        with (Ret (A := Z) (decimal_value 0 number * 1)) by (f_equal; lia).
      apply parse_in_range; [apply split_ms | exact Hd | lia | lia].
    + apply (parse_in_range _ number A_SECOND_IN_MILLIS);
        [now apply split_s | exact Hd | discriminate | exact Hle].
    + apply (parse_in_range _ number A_MINUTE_IN_MILLIS);
        [now apply split_m | exact Hd | discriminate | exact Hle].
    + apply (parse_in_range _ number A_HOUR_IN_MILLIS);
        [now apply split_h | exact Hd | discriminate | exact Hle].
    + apply (parse_in_range _ number A_DAY_IN_MILLIS);
        [now apply split_d | exact Hd | discriminate | exact Hle].
    + apply (parse_in_range _ number A_SECOND_IN_MILLIS);
        [now apply split_plain | exact Hd | discriminate | exact Hle].
  - intros option Hnd. unfold ParseTimeUnit.
    destruct (split_unit option) as [number multiplier].
    cbn [fst] in Hnd. now rewrite Hnd.
Qed.

Lemma ParseTimeUnit_units_witness :
  ParseTimeUnit "250ms" = Ret 250
  /\ ParseTimeUnit "30s" = Ret 30000
  /\ ParseTimeUnit "2d" = Ret 172800000
  /\ ParseTimeUnit "12x"
     = Throw (std_invalid_argument "Invalid time unit: 12x").
Proof.
  assert (D250 : digits "250") by (split; [discriminate | reflexivity]).
  assert (D30 : digits "30") by (split; [discriminate | reflexivity]).
  assert (D2 : digits "2") by (split; [discriminate | reflexivity]).
  split; [|split; [|split]].
  - refine (proj1 (proj1 ParseTimeUnit_units "250" D250) _).
    vm_compute. discriminate.
  - refine (proj1 (proj2 (proj1 ParseTimeUnit_units "30" D30)) _).
    vm_compute. discriminate.
  - refine (proj1 (proj2 (proj2 (proj2 (proj2
              (proj1 ParseTimeUnit_units "2" D2))))) _).
    vm_compute. discriminate.
  - exact (proj2 ParseTimeUnit_units "12x" eq_refl).
Defined.

(** C10 as worded fails on long strings of digits: the product is taken
    modulo [2^64], and [std::stoul] rejects a number above [ULONG_MAX]
    with [std::out_of_range]. *)
Lemma ParseTimeUnit_wraps :
  digits "18446744073709552"
  /\ decimal_value 0 "18446744073709552" = 18446744073709552
  /\ ParseTimeUnit "18446744073709552s" = Ret 384
  /\ ParseTimeUnit "18446744073709552s" <> Ret (18446744073709552 * 1000)
  /\ ParseTimeUnit "18446744073709551616ms" = Throw (std_out_of_range "stoul").
Proof.
  split; [split; [discriminate | reflexivity]|].
  split; [reflexivity|]. split; [reflexivity|].
  split; [discriminate | reflexivity].
Qed.

End ConfigurationParserFacts.

(* ================================================================== *)
(** * The batching adapter: the frame *)
(* ================================================================== *)

Module MessageQueueUtilsFacts.

Import MessageQueueUtils StringFacts.

Lemma has_char_append (c : ascii) (a b : string) :
  has_char c (a ++ b) = has_char c a || has_char c b.
Proof.
  induction a as [|x a IH]; cbn; [reflexivity|].
  now rewrite IH, orb_assoc.
Qed.

Lemma json_escape_char_no_LF (c : ascii) :
  has_char (ascii_of_nat 10) (json_escape_char c) = false.
Proof.
  destruct c as [[] [] [] [] [] [] [] []]; reflexivity.
Qed.

Lemma json_escape_no_LF (s : string) :
  has_char (ascii_of_nat 10) (json_escape s) = false.
Proof.
  induction s as [|c s IH]; cbn [json_escape]; [reflexivity|].
  now rewrite has_char_append, json_escape_char_no_LF, IH.
Qed.

Lemma json_string_no_LF (s : string) :
  has_char (ascii_of_nat 10) (json_string s) = false.
Proof.
  unfold json_string. cbn [has_char].
  rewrite has_char_append, json_escape_no_LF. reflexivity.
Qed.

Lemma concat_no_LF (items : list string) :
  has_char (ascii_of_nat 10)
           (String.concat "," (map json_string items)) = false.
Proof.
  induction items as [|x items IH]; [reflexivity|].
  cbn [map String.concat]. destruct (map json_string items) eqn:E.
  - apply json_string_no_LF.
  - rewrite has_char_append, json_string_no_LF.
    cbn [orb has_char]. exact IH.
Qed.

Lemma json_array_no_LF (items : list string) :
  has_char (ascii_of_nat 10) (json_array items) = false.
Proof.
  unfold json_array. cbn [append has_char].
  rewrite has_char_append, concat_no_LF. reflexivity.
Qed.

(** C5: the body is the global metadata, a line feed, the metadata of the
    first drained message, a line feed, and the JSON array of the data
    strings of the drained messages in drain order; the array holds no raw
    line feed, so the frame has its three parts on three lines.  For the
    data of [GetMessagesFromQueueMetadataTest] the body is the string the
    test expects. *)
Theorem batching_frame :
  (forall metadata first rest,
     GetMessagesFromQueue (Some metadata) first rest
     = metadata ++ LF ++ metaData first ++ LF
       ++ json_array (data first ++ flat_map data rest)
     /\ has_char (ascii_of_nat 10)
                 (json_array (data first ++ flat_map data rest)) = false)
  /\ GetMessagesFromQueue
       (Some (quoted "{'agent':'test'}"))
       {| type := STATELESS;
          data := [quoted "{'event':{'original':'Testing message!'}}"];
          moduleName := ""; moduleType := "";
          metaData := quoted "{'module':'logcollector','type':'file'}" |}
       []
     = quoted "{'agent':'test'}" ++ LF
       ++ quoted "{'module':'logcollector','type':'file'}" ++ LF
       ++ quoted "['{\'event\':{\'original\':\'Testing message!\'}}']".
Proof.
  split; [|reflexivity].
  intros metadata first rest. split; [reflexivity|].
  apply json_array_no_LF.
Qed.

End MessageQueueUtilsFacts.

(* ================================================================== *)
(** * The logger: what [GetFileName] returns *)
(* ================================================================== *)

Module LoggerFacts.

Import Logger StringFacts.
Import MessageQueueUtils (has_char).

Lemma strrchr_absent (s : string) (c : ascii) :
  has_char c s = false -> strrchr s c = None.
Proof.
  induction s as [|x s IH]; cbn; [reflexivity|].
  intros H. apply orb_false_iff in H. destruct H as [Hx Hs].
  now rewrite (IH Hs), Hx.
Qed.

Lemma strrchr_last (s : string) (c : ascii) :
  forall file, strrchr s c = Some file ->
  exists pre rest,
    s = pre ++ String c rest /\ file = String c rest
    /\ has_char c rest = false.
Proof.
  induction s as [|x s IH]; cbn; intros file H; [discriminate|].
  destruct (strrchr s c) as [f|] eqn:Hr.
  - injection H as <-. destruct (IH f eq_refl) as [pre [rest [-> [-> Hn]]]].
    exists (String x pre), rest. now repeat split.
  - destruct (Ascii.eqb x c) eqn:Hx; [|discriminate].
    injection H as <-. apply Ascii.eqb_eq in Hx. subst x.
    exists "", s. repeat split.
    destruct (has_char c s) eqn:Hc; [|reflexivity].
    clear IH. exfalso. revert Hr Hc.
    induction s as [|y s IHs]; cbn; [discriminate|].
    destruct (strrchr s c); [discriminate|].
    destruct (Ascii.eqb y c); [discriminate|]. cbn. intros _. now apply IHs.
Qed.

Lemma strrchr_append (pre rest : string) (c : ascii) :
  has_char c rest = false ->
  strrchr (pre ++ String c rest) c = Some (String c rest).
Proof.
  intros Hn. induction pre as [|x pre IH]; cbn.
  - now rewrite (strrchr_absent rest c Hn), Ascii.eqb_refl.
  - cbn in IH. now rewrite IH.
Qed.

(** X1: the file name of a path is what follows its last slash: for a name
    without a slash, [GetFileName] of [dir/name] is [name], whatever [dir]
    is, and [GetFileName] of the bare name is the name. *)
Theorem GetFileName_strips_directory (dir name : string) :
  has_char "/" name = false ->
  GetFileName (dir ++ "/" ++ name) = name /\ GetFileName name = name.
Proof.
  intros Hn. unfold GetFileName. split.
  - cbn [append]. now rewrite (strrchr_append dir name "/" Hn).
  - now rewrite (strrchr_absent name "/" Hn).
Qed.

Lemma GetFileName_strips_directory_witness :
  GetFileName "/src/agent/communicator/src/communicator.cpp"
  = "communicator.cpp".
Proof.
  exact (proj1 (GetFileName_strips_directory
                  "/src/agent/communicator/src" "communicator.cpp" eq_refl)).
Defined.

(** X2: for every path the result of [GetFileName] holds no slash and is
    the end of the path: the path is the result alone or a part that ends
    with a slash followed by the result.  Applying [GetFileName] twice
    gives the same as once. *)
Theorem GetFileName_is_last_component (path : string) :
  has_char "/" (GetFileName path) = false
  /\ (exists dir, path = dir ++ GetFileName path
                  /\ (dir = "" \/ exists d, dir = d ++ "/"))
  /\ GetFileName (GetFileName path) = GetFileName path.
Proof.
  assert (H : has_char "/" (GetFileName path) = false
              /\ exists dir, path = dir ++ GetFileName path
                             /\ (dir = "" \/ exists d, dir = d ++ "/")).
  { unfold GetFileName. destruct (strrchr path "/") as [file|] eqn:Hr.
    - destruct (strrchr_last _ _ _ Hr) as [pre [rest [-> [-> Hn]]]].
      cbn [next]. split; [exact Hn|].
      exists (pre ++ "/"). split.
      + now rewrite append_assoc.
      + right. now exists pre.
    - split.
      + destruct (has_char "/" path) eqn:Hc; [|reflexivity].
        exfalso. revert Hr Hc. induction path as [|y s IHs]; cbn;
          [discriminate|].
        destruct (strrchr s "/"); [discriminate|].
        destruct (Ascii.eqb y "/"); [discriminate|]. cbn.
        intros _. now apply IHs.
      + exists "". split; [reflexivity | now left]. }
  destruct H as [Hn Hd]. split; [exact Hn|]. split; [exact Hd|].
  unfold GetFileName at 1. now rewrite (strrchr_absent _ _ Hn).
Qed.

End LoggerFacts.

(* ================================================================== *)
(** * The signal dispatcher: who is notified, in which order *)
(* ================================================================== *)

Module SignalDispatcherFacts.

Import SignalDispatcher.

Section Dispatcher.

Variable World : Type.

Lemma find_store_same (event : string) (sig : SignalType World)
    (signals : Signals World) :
  find World event (store World event sig signals) = Some sig.
Proof.
  induction signals as [|[e old] rest IH]; cbn.
  - now rewrite String.eqb_refl.
  - destruct (String.eqb e event) eqn:E; cbn; now rewrite E.
Qed.

Lemma find_store_other (event other : string) (sig : SignalType World)
    (signals : Signals World) :
  other <> event ->
  find World other (store World event sig signals) = find World other signals.
Proof.
  intros Hne. induction signals as [|[e old] rest IH]; cbn.
  - destruct (String.eqb_spec event other); [congruence | reflexivity].
  - destruct (String.eqb_spec e event) as [-> | He]; cbn.
    + destruct (String.eqb_spec event other); [congruence | reflexivity].
    + now rewrite IH.
Qed.

Lemma emit_connect (slot : slot_type World) (sig : SignalType World)
    (w : World) :
  emit World (connect World slot sig) w = slot (emit World sig w).
Proof.
  unfold emit, connect. now rewrite fold_left_app.
Qed.

Lemma notify_register_same (event : string) (slot : slot_type World)
    (signals : Signals World) (w : World) :
  Notify World event (RegisterListener World event slot signals) w
  = slot (Notify World event signals w).
Proof.
  unfold Notify, RegisterListener. rewrite find_store_same.
  rewrite emit_connect. now destruct (find World event signals).
Qed.

Lemma notify_register_other (event other : string) (slot : slot_type World)
    (signals : Signals World) (w : World) :
  other <> event ->
  Notify World other (RegisterListener World event slot signals) w
  = Notify World other signals w.
Proof.
  intros Hne. unfold Notify, RegisterListener.
  now rewrite find_store_other.
Qed.

(** X3: [Notify] calls the listeners of the event in the order in which
    they were registered, each once, after the listeners the event already
    had. *)
Theorem listeners_run_in_registration_order (event : string)
    (slots : list (slot_type World)) (signals : Signals World) (w : World) :
  Notify World event (register_all World event slots signals) w
  = fold_left (fun w slot => slot w) slots (Notify World event signals w).
Proof.
  revert signals w. induction slots as [|slot slots IH]; intros signals w.
  - reflexivity.
  - unfold register_all in IH |- *. cbn [fold_left]. rewrite IH.
    now rewrite notify_register_same.
Qed.

(** X4: registering listeners for one event changes nothing for another
    event: its listeners are notified as before, and an event that has no
    listener leaves everything as it is. *)
Theorem other_events_unaffected (event other : string)
    (slots : list (slot_type World)) (signals : Signals World) (w : World) :
  other <> event ->
  Notify World other (register_all World event slots signals) w
  = Notify World other signals w
  /\ Notify World other (register_all World event slots []) w = w.
Proof.
  intros Hne.
  assert (H : forall s, Notify World other (register_all World event slots s) w
                        = Notify World other s w).
  { induction slots as [|slot slots IH]; intros s; [reflexivity|].
    unfold register_all in IH |- *. cbn [fold_left]. rewrite IH.
    now apply notify_register_other. }
  split; [apply H | now rewrite H].
Qed.

End Dispatcher.

Lemma other_events_unaffected_witness :
  let signals :=
    RegisterListener (list string) "shared_event"
                     (fun log => log ++ ["listener1"])%list [] in
  Notify (list string) "shared_event"
         (register_all (list string) "test_event"
                       [fun log => log ++ ["test_event"]]%list signals) []
  = Notify (list string) "shared_event" signals [].
Proof.
  intros signals.
  refine (proj1 (other_events_unaffected (list string) "test_event"
                   "shared_event" _ signals [] _)).
  discriminate.
Defined.

(** The listeners of [MultipleListenersForSameEvent]. *)
Example multiple_listeners :
  Notify (list string) "shared_event"
         (register_all (list string) "shared_event"
            [(fun log => log ++ ["listener1"])%list;
             (fun log => log ++ ["listener2"])%list] []) []
  = ["listener1"; "listener2"].
Proof. reflexivity. Qed.

End SignalDispatcherFacts.

(* ================================================================== *)
(** * The request loop: callbacks, waits, what is sent *)
(* ================================================================== *)

Module RequestLoopFacts.

Import Beast HttpClient RequestLoop HttpClientFacts.

(** ** The request built from the parameters *)

Lemma prepare_payload_keeps (req req' : request) :
  prepare_payload req = Ret req' ->
  method req' = method req /\ target req' = target req
  /\ req_body req' = req_body req.
Proof.
  unfold prepare_payload.
  destruct (verb_eqb (method req) trace
            && (0 <? String.length (req_body req))%nat); [discriminate|].
  destruct ((0 <? String.length (req_body req))%nat
            || verb_eqb (method req) options
            || verb_eqb (method req) put || verb_eqb (method req) post);
    intros E; injection E as <-; now repeat split.
Qed.

Lemma created_request (params : HttpRequestParams) (req : request) :
  CreateHttpRequest params = Ret req ->
  find authorization (req_fields req) = authorization_basic_last params
  /\ req_body req = Body params
  /\ method req = Method params /\ target req = Endpoint params.
Proof.
  unfold CreateHttpRequest, authorization_basic_last.
  destruct (empty (Token params)), (empty (User_pass params)),
    (empty (Body params)) eqn:Hb; cbn [negb]; intros Hc;
    try (injection Hc as <-; cbn;
         destruct (Body params); try discriminate; now repeat split);
    rewrite (prepare_payload_authorization _ _ Hc);
    destruct (prepare_payload_keeps _ _ Hc) as [Hm [Ht Hbody]];
    rewrite Hm, Ht, Hbody; now repeat split.
Qed.

(** ** One turn *)

Ltac turn_cases net p token cb H :=
  unfold iteration in H;
  destruct (AsyncResolve net (Host p) (Port p)) as [results|e0] eqn:Hres;
    cbn [bind] in H; [|discriminate H];
  destruct (failed (AsyncConnect net (Use_Https p) results)) eqn:Hcon;
    [|set (sent := with_Token token
                     match messageGetter cb with
                     | Some body => with_Body body p
                     | None => with_Body "" p
                     end) in *;
      assert (Hhttps : Use_Https sent = Use_Https p)
        by (unfold sent; destruct (messageGetter cb); reflexivity);
      rewrite Hhttps in H;
      destruct (CreateHttpRequest sent) as [req|e0] eqn:Hreq;
        cbn [bind] in H; [|discriminate H];
      destruct (failed (AsyncWrite net (Use_Https p) req)) eqn:Hwr;
        [|destruct (AsyncRead net (Use_Https p) req) as [res ec] eqn:Hrd;
          destruct (failed ec) eqn:Hrdf]];
  try (injection H as <- <-).

Lemma failed_false (ec : error_code) : failed ec = false -> ec = 0.
Proof.
  unfold failed. intros H. apply negb_false_iff in H. now apply Z.eqb_eq.
Qed.

(** X5: in a turn of the request loop at most one callback is called, and
    only for a response that was read without error: [onSuccess] exactly
    when it is set and the status is 200, with the body of that response;
    [onUnauthorized] exactly when it is set and the status is 401 or 403. *)
Theorem callbacks_follow_the_response (net : AsyncNetwork) (token : string)
    (cb : Callbacks) (connectionRetry batchingInterval : Z)
    (p p' : HttpRequestParams) (acts : list Action) :
  iteration net token cb connectionRetry batchingInterval p = Ret (p', acts) ->
  (List.length (filter is_callback acts) <= 1)%nat
  /\ (forall body,
        In (OnSuccess body) acts <->
        onSuccess cb = true
        /\ exists req res,
             In (Written req) acts
             /\ AsyncWrite net (Use_Https p) req = 0
             /\ AsyncRead net (Use_Https p) req = (res, 0)
             /\ result res = ok /\ body = res_body res)
  /\ (In OnUnauthorized acts <->
      onUnauthorized cb = true
      /\ exists req res,
           In (Written req) acts
           /\ AsyncWrite net (Use_Https p) req = 0
           /\ AsyncRead net (Use_Https p) req = (res, 0)
           /\ (result res = unauthorized \/ result res = forbidden)).
Proof.
  intros H. turn_cases net p token cb H.
  - (* connect failed *)
    split; [cbn; lia|]. split; [intros body|]; split.
    + intros [E|[E|[]]]; discriminate.
    + intros [_ [req [res [[E|[E|[]]] _]]]]; discriminate.
    + intros [E|[E|[]]]; discriminate.
    + intros [_ [req [res [[E|[E|[]]] _]]]]; discriminate.
  - (* write failed *)
    split; [cbn; lia|]. split; [intros body|]; split.
    + intros [E|[E|[]]]; discriminate.
    + intros [_ [r [res [[E|[E|[]]] [Hw _]]]]]; try discriminate.
      injection E as <-. unfold failed in Hwr. rewrite Hw in Hwr. discriminate.
    + intros [E|[E|[]]]; discriminate.
    + intros [_ [r [res [[E|[E|[]]] [Hw _]]]]]; try discriminate.
      injection E as <-. unfold failed in Hwr. rewrite Hw in Hwr. discriminate.
  - (* read failed *)
    split; [cbn; lia|]. split; [intros body|]; split.
    + intros [E|[E|[]]]; discriminate.
    + intros [_ [r [res' [[E|[E|[]]] [_ [Hr _]]]]]]; try discriminate.
      injection E as <-. rewrite Hr in Hrd. injection Hrd as <- <-. discriminate.
    + intros [E|[E|[]]]; discriminate.
    + intros [_ [r [res' [[E|[E|[]]] [_ [Hr _]]]]]]; try discriminate.
      injection E as <-. rewrite Hr in Hrd. injection Hrd as <- <-. discriminate.
  - (* a response was read *)
    apply failed_false in Hwr, Hrdf. subst ec.
    destruct (result res =? ok) eqn:Hok.
    + apply Z.eqb_eq in Hok. injection H as <- <-.
      destruct (onSuccess cb) eqn:Hs; cbn [app].
      * split; [cbn; lia|]. split; [intros body|]; split.
        -- intros [E|[E|[E|[]]]]; try discriminate. injection E as <-.
           split; [reflexivity|]. exists req, res.
           repeat split; try assumption. now left.
        -- intros [_ [r [res' [[E|[E|[E|[]]]] [_ [Hr [_ ->]]]]]]];
             try discriminate.
           injection E as <-. rewrite Hr in Hrd. injection Hrd as <-.
           right. now left.
        -- intros [E|[E|[E|[]]]]; discriminate.
        -- intros [_ [r [res' [[E|[E|[E|[]]]] [_ [Hr Hst]]]]]];
             try discriminate.
           injection E as <-. rewrite Hr in Hrd. injection Hrd as <-.
           rewrite Hok in Hst. destruct Hst; discriminate.
      * split; [cbn; lia|]. split; [intros body|]; split.
        -- intros [E|[E|[]]]; discriminate.
        -- intros [E _]; discriminate.
        -- intros [E|[E|[]]]; discriminate.
        -- intros [_ [r [res' [[E|[E|[]]] [_ [Hr Hst]]]]]];
             try discriminate.
           injection E as <-. rewrite Hr in Hrd. injection Hrd as <-.
           rewrite Hok in Hst. destruct Hst; discriminate.
    + apply Z.eqb_neq in Hok.
      destruct ((result res =? unauthorized) || (result res =? forbidden))
        eqn:Hun.
      * injection H as <- <-.
        apply orb_true_iff in Hun. rewrite !Z.eqb_eq in Hun.
        destruct (onUnauthorized cb) eqn:Hu; cbn [app].
        -- split; [cbn; lia|]. split; [intros body|]; split.
           ++ intros [E|[E|[E|[]]]]; discriminate.
           ++ intros [_ [r [res' [[E|[E|[E|[]]]] [_ [Hr [Hst _]]]]]]];
                try discriminate.
              injection E as <-. rewrite Hr in Hrd. injection Hrd as <-.
              contradiction.
           ++ intros _. split; [reflexivity|]. exists req, res.
              repeat split; try assumption. now left.
           ++ intros _. right. now left.
        -- split; [cbn; lia|]. split; [intros body|]; split.
           ++ intros [E|[E|[]]]; discriminate.
           ++ intros [_ [r [res' [[E|[E|[]]] [_ [Hr [Hst _]]]]]]];
                try discriminate.
              injection E as <-. rewrite Hr in Hrd. injection Hrd as <-.
              contradiction.
           ++ intros [E|[E|[]]]; discriminate.
           ++ intros [E _]; discriminate.
      * injection H as <- <-.
        apply orb_false_iff in Hun. rewrite !Z.eqb_neq in Hun.
        cbn [app]. split; [cbn; lia|]. split; [intros body|]; split.
        -- intros [E|[E|[]]]; discriminate.
        -- intros [_ [r [res' [[E|[E|[]]] [_ [Hr [Hst _]]]]]]];
             try discriminate.
           injection E as <-. rewrite Hr in Hrd. injection Hrd as <-.
           contradiction.
        -- intros [E|[E|[]]]; discriminate.
        -- intros [_ [r [res' [[E|[E|[]]] [_ [Hr Hst]]]]]];
             try discriminate.
           injection E as <-. rewrite Hr in Hrd. injection Hrd as <-.
           destruct Hun. destruct Hst; contradiction.
Qed.

Lemma callbacks_follow_the_response_witness :
  let net := {| resolved := unit;
                AsyncResolve := fun _ _ => Ret tt;
                AsyncConnect := fun _ _ => 0;
                AsyncWrite := fun _ _ => 0;
                AsyncRead := fun _ _ =>
                  ({| result := 200; res_fields := [];
                      res_body := "{}" |}, 0) |} in
  let cb := mkCallbacks None true true in
  let p := mkParams get "manager" "27000" "/commands" "agent" "" "" ""
                    false in
  exists p' acts,
    iteration net "tok" cb 5 1000 p = Ret (p', acts)
    /\ (List.length (filter is_callback acts) <= 1)%nat.
Proof.
  intros net cb p. eexists. eexists. split; [reflexivity|].
  exact (proj1 (callbacks_follow_the_response net "tok" cb 5 1000 p _ _
                  eq_refl)).
Defined.

(** X6: the request a turn hands to [AsyncWrite] is built from the token as
    it is in that turn and from what the message getter yields in that
    turn, whatever token and body the parameters held before: without
    basic credentials its Authorization header is ["Bearer <token>"] (none
    when the token is empty), its body is the getter's result (empty
    without a getter), and the parameters keep that token and body. *)
Theorem request_carries_current_token (net : AsyncNetwork) (token : string)
    (cb : Callbacks) (connectionRetry batchingInterval : Z)
    (p p' : HttpRequestParams) (acts : list Action) (r : request) :
  iteration net token cb connectionRetry batchingInterval p = Ret (p', acts) ->
  In (Written r) acts ->
  let body := match messageGetter cb with Some b => b | None => "" end in
  req_body r = body
  /\ Token p' = token /\ Body p' = body
  /\ (User_pass p = "" ->
      find authorization (req_fields r)
      = if empty token then None else Some ("Bearer " ++ token)).
Proof.
  intros H Hin body. turn_cases net p token cb H.
  - destruct Hin as [E|[E|[]]]; discriminate.
  - destruct Hin as [E|[E|[]]]; try discriminate. injection E as <-.
    destruct (created_request _ _ Hreq) as [Ha [Hb _]].
    rewrite Ha, Hb. unfold authorization_basic_last, sent, body.
    destruct (messageGetter cb); cbn; repeat split;
      intros ->; cbn; now destruct (empty token).
  - destruct Hin as [E|[E|[]]]; try discriminate. injection E as <-.
    destruct (created_request _ _ Hreq) as [Ha [Hb _]].
    rewrite Ha, Hb. unfold authorization_basic_last, sent, body.
    destruct (messageGetter cb); cbn; repeat split;
      intros ->; cbn; now destruct (empty token).
  - assert (Hp : p' = sent /\ In (Written r) [Written req]).
    { destruct (result res =? ok);
        [|destruct ((result res =? unauthorized)
                    || (result res =? forbidden))];
        injection H as <- <-; (split; [reflexivity|]);
        cbn [app] in Hin; destruct Hin as [E|Hin]; try (now left);
        exfalso; clear - Hin;
        repeat (destruct Hin as [E|Hin]; [discriminate|]);
        try contradiction;
        destruct (onSuccess cb), (onUnauthorized cb); cbn in Hin;
        repeat (destruct Hin as [E|Hin]; [discriminate|]);
        contradiction. }
    destruct Hp as [-> [E|[]]]. injection E as <-.
    destruct (created_request _ _ Hreq) as [Ha [Hb _]].
    rewrite Ha, Hb. unfold authorization_basic_last, sent, body.
    destruct (messageGetter cb); cbn; repeat split;
      intros ->; cbn; now destruct (empty token).
Qed.

Lemma request_carries_current_token_witness :
  let net := {| resolved := unit;
                AsyncResolve := fun _ _ => Ret tt;
                AsyncConnect := fun _ _ => 0;
                AsyncWrite := fun _ _ => 0;
                AsyncRead := fun _ _ =>
                  ({| result := 200; res_fields := [];
                      res_body := "" |}, 0) |} in
  let cb := mkCallbacks (Some "batch") true true in
  let p := mkParams post "manager" "27000" "/stateless" "agent"
                    "stale" "" "old" false in
  exists p' acts req,
    iteration net "fresh" cb 5 1000 p = Ret (p', acts)
    /\ In (Written req) acts
    /\ req_body req = "batch"
    /\ find authorization (req_fields req) = Some "Bearer fresh".
Proof.
  intros net cb p. eexists. eexists. eexists.
  split; [reflexivity|]. split; [left; reflexivity|].
  pose proof (request_carries_current_token net "fresh" cb 5 1000 p _ _ _
                eq_refl (or_introl eq_refl)) as [Hb [_ [_ Ha]]].
  split; [exact Hb | exact (Ha eq_refl)].
Defined.

(** ** The loop *)

Lemma iteration_keeps_target (net : AsyncNetwork) (token : string)
    (cb : Callbacks) (connectionRetry batchingInterval : Z)
    (p p' : HttpRequestParams) (acts : list Action) :
  iteration net token cb connectionRetry batchingInterval p = Ret (p', acts) ->
  Host p' = Host p /\ Port p' = Port p /\ Use_Https p' = Use_Https p.
Proof.
  intros H. turn_cases net p token cb H; try (now repeat split).
  - unfold sent. now destruct (messageGetter cb).
  - unfold sent. now destruct (messageGetter cb).
  - destruct (result res =? ok);
      [|destruct ((result res =? unauthorized) || (result res =? forbidden))];
      injection H as <- <-; unfold sent; now destruct (messageGetter cb).
Qed.

Lemma loop_connect_fails (turns : list Turn) (connectionRetry
    batchingInterval : Z) (host port : string) (https : bool) :
  (forall t, In t turns ->
     (exists results,
        AsyncResolve (turn_network t) host port = Ret results)
     /\ forall results,
          AsyncConnect (turn_network t) https results <> 0) ->
  forall p, Host p = host -> Port p = port -> Use_Https p = https ->
  Co_PerformHttpRequest turns connectionRetry batchingInterval p
  = Ret (flat_map
           (fun _ => [Close; Wait (connectionRetry * A_SECOND_IN_MILLIS)])
           (executed turns)).
Proof.
  intros Hall. induction turns as [|t rest IH]; intros p Hh Hp Hs;
    [reflexivity|].
  destruct (Hall t (or_introl eq_refl)) as [[results Hres] Hcon].
  cbn [Co_PerformHttpRequest executed flat_map]. unfold iteration.
  rewrite Hh, Hp, Hs, Hres. cbn [bind].
  assert (Hf : failed (AsyncConnect (turn_network t) https results) = true).
  { unfold failed. apply negb_true_iff. apply Z.eqb_neq. apply Hcon. }
  rewrite Hf. cbn [bind fst snd].
  destruct (turn_again t).
  - rewrite IH; try assumption.
    + reflexivity.
    + intros t' Ht'. apply Hall. now right.
  - cbn. reflexivity.
Qed.

(** X7: as long as the connection cannot be established the loop builds no
    request and calls nothing back: every turn that runs closes the socket
    and waits [connectionRetry * 1000] milliseconds. *)
Theorem waits_after_failed_connect (turns : list Turn)
    (connectionRetry batchingInterval : Z) (p : HttpRequestParams) :
  (forall t, In t turns ->
     (exists results,
        AsyncResolve (turn_network t) (Host p) (Port p) = Ret results)
     /\ forall results,
          AsyncConnect (turn_network t) (Use_Https p) results <> 0) ->
  Co_PerformHttpRequest turns connectionRetry batchingInterval p
  = Ret (flat_map (fun _ => [Close; Wait (connectionRetry * 1000)])
                  (executed turns)).
Proof.
  intros Hall.
  now apply (loop_connect_fails turns connectionRetry batchingInterval
               (Host p) (Port p) (Use_Https p)).
Qed.

Lemma loop_write_fails (turns : list Turn) (connectionRetry
    batchingInterval : Z) (host port : string) (https : bool) :
  (forall t, In t turns ->
     (forall results, AsyncConnect (turn_network t) https results = 0)
     /\ forall req, AsyncWrite (turn_network t) https req <> 0) ->
  forall p acts, Host p = host -> Port p = port -> Use_Https p = https ->
  Co_PerformHttpRequest turns connectionRetry batchingInterval p = Ret acts ->
  filter is_wait acts = [] /\ filter is_callback acts = []
  /\ List.length (filter is_written acts) = List.length (executed turns).
Proof.
  intros Hall. induction turns as [|t rest IH]; intros p acts Hh Hp Hs Hrun.
  - injection Hrun as <-. now repeat split.
  - destruct (Hall t (or_introl eq_refl)) as [Hconnect Hwrite].
    cbn [Co_PerformHttpRequest executed] in *.
    destruct (iteration (turn_network t) (turn_token t) (turn_callbacks t)
                connectionRetry batchingInterval p) as [[p1 a1]|e] eqn:Hit;
      cbn [bind fst snd] in Hrun; [|discriminate].
    destruct (iteration_keeps_target _ _ _ _ _ _ _ _ Hit) as [Hh1 [Hp1 Hs1]].
    assert (Ha1 : exists req, a1 = [Written req; Close]).
    { pose proof Hit as H.
      turn_cases (turn_network t) p (turn_token t) (turn_callbacks t) H.
      - unfold failed in Hcon. rewrite Hs, Hconnect in Hcon. discriminate.
      - now exists req.
      - now exists req.
      - unfold failed in Hwr. apply negb_false_iff, Z.eqb_eq in Hwr.
        rewrite Hs in Hwr. now destruct (Hwrite req). }
    destruct Ha1 as [req ->].
    destruct (turn_again t).
    + destruct (Co_PerformHttpRequest rest connectionRetry batchingInterval
                  p1) as [more|e] eqn:Hmore; cbn [bind] in Hrun;
        [|discriminate].
      injection Hrun as <-.
      destruct (IH (fun t' Ht' => Hall t' (or_intror Ht')) p1 more)
        as [Hw [Hc Hn]]; try congruence.
      cbn. rewrite Hw, Hc, Hn. now repeat split.
    + injection Hrun as <-. now repeat split.
Qed.


Lemma waits_after_failed_connect_witness :
  let net := {| resolved := unit;
                AsyncResolve := fun _ _ => Ret tt;
                AsyncConnect := fun _ _ => 111;
                AsyncWrite := fun _ _ => 0;
                AsyncRead := fun _ _ => (empty_response, 0) |} in
  let t := mkTurn net "tok" (mkCallbacks None true true) true in
  let p := mkParams get "manager" "27000" "/commands" "agent" "" "" ""
                    false in
  Co_PerformHttpRequest [t; t] 5 1000 p
  = Ret [Close; Wait 5000; Close; Wait 5000].
Proof.
  intros net t p.
  refine (waits_after_failed_connect [t; t] 5 1000 p _).
  intros t' [<-|[<-|[]]];
    (split; [exists tt; reflexivity | intros results; discriminate]).
Defined.


End RequestLoopFacts.

(* ================================================================== *)
(** * Authentication: from the network to the session *)
(* ================================================================== *)

Module AuthenticationFacts.

Import Beast HttpClient RequestLoop Communicator HttpClientFacts.

Lemma perform_read (net : Network) (params : HttpRequestParams)
    (res : response) :
  try_block net params empty_response = (res, None) ->
  PerformHttpRequest net params = res.
Proof.
  intros H. unfold PerformHttpRequest. now rewrite H.
Qed.

Lemma perform_thrown (net : Network) (params : HttpRequestParams)
    (partial : response) (e : exception) :
  try_block net params empty_response = (partial, Some e) ->
  result (PerformHttpRequest net params) = internal_server_error.
Proof.
  intros H. unfold PerformHttpRequest. now rewrite H.
Qed.

Section Helpers.

Variable makeParams :
  verb -> string -> string -> string -> string -> string -> string
  -> HttpRequestParams.
Variable json_token : string -> Except string.
Variable json_data_token : string -> Except string.
Variable base64 : string -> string.
Variable jwt_decode : string -> Except decoded_jwt.

(** X9: an authentication helper yields a token only from an answer that
    was read without exception, has status 200 and holds the token: it
    returns no token when a step of the request throws, when the status is
    not 200, and when the body cannot be parsed.  This holds for the
    helper with uuid and key and for the one with user and password. *)
Theorem token_only_from_ok_answer (net : Network)
    (serverUrl userAgent a b token : string) :
  (AuthenticateWithUuidAndKey makeParams json_token net serverUrl userAgent
                              a b = Some token
   <-> exists res,
         try_block net (uuid_key_params makeParams serverUrl userAgent a b)
                   empty_response = (res, None)
         /\ result res = ok /\ json_token (res_body res) = Ret token)
  /\ (AuthenticateWithUserPassword makeParams json_data_token base64 net
                                  serverUrl userAgent a b = Some token
      <-> exists res,
            try_block net
                      (user_password_params makeParams base64 serverUrl
                                            userAgent a b)
                      empty_response = (res, None)
            /\ result res = ok /\ json_data_token (res_body res) = Ret token).
Proof.
  split.
  - unfold AuthenticateWithUuidAndKey, uuid_key_params.
    set (params := makeParams _ _ _ _ _ _ _).
    destruct (try_block net params empty_response) as [res [e|]] eqn:Ht.
    + rewrite (perform_thrown _ _ _ _ Ht). cbn. split; [discriminate|].
      intros [r [E _]]. discriminate.
    + rewrite (perform_read _ _ _ Ht).
      destruct (result res =? ok) eqn:Hok; cbn [negb].
      * apply Z.eqb_eq in Hok. split.
        -- destruct (json_token (res_body res)) as [t|e] eqn:Hj;
             [|discriminate].
           intros [= ->]. exists res. now repeat split.
        -- intros [r [[= <-] [_ Hj]]]. now rewrite Hj.
      * apply Z.eqb_neq in Hok. split; [discriminate|].
        intros [r [[= <-] [Hr _]]]. contradiction.
  - unfold AuthenticateWithUserPassword, user_password_params.
    set (params := makeParams _ _ _ _ _ _ _).
    destruct (try_block net params empty_response) as [res [e|]] eqn:Ht.
    + rewrite (perform_thrown _ _ _ _ Ht). cbn. split; [discriminate|].
      intros [r [E _]]. discriminate.
    + rewrite (perform_read _ _ _ Ht).
      destruct (result res =? ok) eqn:Hok; cbn [negb].
      * apply Z.eqb_eq in Hok. split.
        -- destruct (json_data_token (res_body res)) as [t|e] eqn:Hj;
             [|discriminate].
           intros [= ->]. exists res. now repeat split.
        -- intros [r [[= <-] [_ Hj]]]. now rewrite Hj.
      * apply Z.eqb_neq in Hok. split; [discriminate|].
        intros [r [[= <-] [Hr _]]]. contradiction.
Qed.

(** X10: a round of authentication that fails on the way to the manager
    leaves the session as it was.  When a step of the request throws, or
    the manager answers with a status other than 200,
    [SendAuthenticationRequest] returns Unauthorized with the stored token
    and expiry unchanged, and the timer is set to 1000 milliseconds. *)
Theorem failed_round_keeps_session (net : Network)
    (managerIp port uuid key : string) (now_seconds : Z)
    (c : Communicator.Communicator) :
  let params := uuid_key_params makeParams managerIp port uuid key in
  let token :=
    AuthenticateWithUuidAndKey makeParams json_token net managerIp port
                               uuid key in
  (exists e, snd (try_block net params empty_response) = Some e)
  \/ result (PerformHttpRequest net params) <> ok ->
  SendAuthenticationRequest jwt_decode token c = (c, Ret unauthorized)
  /\ duration jwt_decode token now_seconds c = (c, Ret 1000).
Proof.
  intros params token Hfail.
  assert (Hnone : token = None).
  { subst token. unfold AuthenticateWithUuidAndKey.
    fold (uuid_key_params makeParams managerIp port uuid key).
    fold params. destruct Hfail as [[e He] | Hne].
    - destruct (try_block net params empty_response) as [partial o] eqn:Ht.
      cbn in He. subst o. now rewrite (perform_thrown _ _ _ _ Ht).
    - apply Z.eqb_neq in Hne. now rewrite Hne. }
  rewrite Hnone. split; reflexivity.
Qed.

End Helpers.

Lemma failed_round_keeps_session_witness :
  let makeParams := fun m url endpoint agent token userPass body =>
    mkParams m url "27000" endpoint agent token userPass body false in
  let net := {| endpoints := unit;
                Resolve := fun _ _ => Ret tt;
                Connect := fun _ _ =>
                  Throw (std_exception "connect: Connection refused");
                Write := fun _ _ => Ret tt;
                Read := fun _ _ res => (res, None) |} in
  let c := {| m_token := "old"; m_tokenExpTimeInSeconds := 50 |} in
  let decode := fun _ : string => Ret {| exp_claim := Some 100 |} in
  let token :=
    AuthenticateWithUuidAndKey makeParams (fun body => Ret body) net
                               "manager" "27000" "uuid" "key" in
  duration decode token 40 c = (c, Ret 1000).
Proof.
  intros makeParams net c decode token.
  refine (proj2 (failed_round_keeps_session makeParams (fun body => Ret body)
                   decode net "manager" "27000" "uuid" "key" 40 c _)).
  left. eexists. reflexivity.
Defined.



End AuthenticationFacts.

(* ================================================================== *)
(** * The dispatcher loop: outstanding workers *)
(* ================================================================== *)

Module DispatcherLoopFacts.

Import EventQueue.

Section Generic.

Context {DB : Type} `{QueueDB DB}.

Lemma iteration_threads (onEvent : string -> bool) (now : Z)
    (st : Monitor DB * Z) :
  (List.length
     (eventDispatchThreads (fst (fst (dispatcher_iteration onEvent now st))))
   <= 1)%nat.
Proof.
  destruct st as [m last]. unfold dispatcher_iteration.
  destruct (gate_closed _ now last); [cbn; lia|].
  destruct (fetchAndMarkPendingEvents N _) as [[|e b] db3]; cbn; lia.
Qed.

Lemma loop_threads (onEvent : string -> bool) (clock : list Z) :
  forall (m : Monitor DB) (last : Z) (steps : list Step),
    (List.length (eventDispatchThreads m) <= 1)%nat ->
    let r := fold_left
               (fun acc now =>
                  let '(m, last, steps) := acc in
                  let '(m', last', s) :=
                    dispatcher_iteration onEvent now (m, last) in
                  (m', last', (steps ++ [s])%list))
               clock (m, last, steps) in
    (List.length (eventDispatchThreads (fst (fst r))) <= 1)%nat
    /\ List.length (snd r) = (List.length steps + List.length clock)%nat
    /\ In (snd (fst r)) (last :: clock).
Proof.
  induction clock as [|now clock IH]; intros m last steps Hm.
  - cbn. repeat split; [exact Hm | lia | now left].
  - cbn [fold_left].
    pose proof (iteration_threads onEvent now (m, last)) as Hit.
    assert (Hlast : snd (fst (dispatcher_iteration onEvent now (m, last)))
                    = last
                    \/ snd (fst (dispatcher_iteration onEvent now (m, last)))
                       = now).
    { unfold dispatcher_iteration.
      destruct (gate_closed _ now last); [now left|].
      destruct (fetchAndMarkPendingEvents N _). now right. }
    destruct (dispatcher_iteration onEvent now (m, last)) as [[m' last'] s].
    cbn [fst snd] in Hit, Hlast.
    destruct (IH m' last' (steps ++ [s])%list Hit) as [H1 [H2 H3]].
    split; [exact H1|]. split.
    + rewrite H2, length_app. cbn. lia.
    + destruct H3 as [H3|H3]; [|now right; right].
      rewrite <- H3. destruct Hlast as [->| ->]; [now left | now right; left].
Qed.

(** X12: however long the dispatcher runs, when an iteration ends at most
    one sink worker is outstanding: every iteration joins all workers of
    the iterations before it ahead of its gate and spawns at most one.
    The loop makes one step for each clock reading, and the last dispatch
    time it ends with is the time the dispatcher started at or one of the
    clock readings. *)
Theorem at_most_one_worker_outstanding (onEvent : string -> bool)
    (start_time : Z) (clock : list Z) (db0 : DB) :
  let r := dispatcher onEvent start_time clock (construct db0) in
  (List.length (eventDispatchThreads (fst (fst r))) <= 1)%nat
  /\ List.length (snd r) = List.length clock
  /\ In (snd (fst r)) (start_time :: clock).
Proof.
  unfold dispatcher, dispatcher_loop. cbn [fst snd].
  apply (loop_threads onEvent clock (construct db0) start_time []).
  cbn. lia.
Qed.

End Generic.

End DispatcherLoopFacts.

(* ================================================================== *)
(** * The RocksDB wrapper: insert, fetch, update *)
(* ================================================================== *)

Module RocksDBWrapperFacts.

Import EventQueue RocksDBWrapper.

(** ** The order of the keys *)

Lemma ascii_compare_refl (a : ascii) : Ascii.compare a a = Eq.
Proof. unfold Ascii.compare. apply N.compare_refl. Qed.

Lemma ascii_compare_lt_trans (a b c : ascii) :
  Ascii.compare a b = Lt -> Ascii.compare b c = Lt -> Ascii.compare a c = Lt.
Proof.
  unfold Ascii.compare. rewrite !N.compare_lt_iff. apply N.lt_trans.
Qed.

Lemma compare_refl (s : string) : String.compare s s = Eq.
Proof.
  induction s as [|a s IH]; cbn; [reflexivity|].
  now rewrite ascii_compare_refl.
Qed.

Lemma compare_lt_trans (x : string) :
  forall y z, String.compare x y = Lt -> String.compare y z = Lt ->
              String.compare x z = Lt.
Proof.
  induction x as [|a x IH]; intros [|b y] [|c z]; cbn; try congruence.
  destruct (Ascii.compare a b) eqn:Hab; try discriminate;
    destruct (Ascii.compare b c) eqn:Hbc; try discriminate; intros H1 H2.
  - apply Ascii.compare_eq_iff in Hab, Hbc. subst.
    rewrite ascii_compare_refl. eapply IH; eassumption.
  - apply Ascii.compare_eq_iff in Hab. subst. now rewrite Hbc.
  - apply Ascii.compare_eq_iff in Hbc. subst. now rewrite Hab.
  - now rewrite (ascii_compare_lt_trans a b c Hab Hbc).
Qed.

Lemma compare_lt_neq (x y : string) : String.compare x y = Lt -> x <> y.
Proof. intros H ->. rewrite compare_refl in H. discriminate. Qed.

Lemma compare_gt_lt (x y : string) :
  String.compare x y = Gt -> String.compare y x = Lt.
Proof.
  intros H. rewrite String.compare_antisym, H. reflexivity.
Qed.

Lemma to_string_injective (a b : Z) : to_string a = to_string b -> a = b.
Proof.
  unfold to_string. intros H.
  apply (f_equal NilEmpty.int_of_string) in H.
  rewrite !NilEmpty.isi in H. injection H as H.
  apply (f_equal Z.of_int) in H. now rewrite !DecimalZ.of_to in H.
Qed.

Section Wrapper.

Variable Value : Type.
Variable empty_value : Value.
Variable serializeEvent : Event -> Except Value.
Variable deserializeEvent : Value -> Except Event.

(** ** [Put] and [Get] *)

Lemma get_put_same (key : string) (v : Value) (db : DB Value) :
  Get Value key (Put Value key v db) = Some v.
Proof.
  induction db as [|[k v0] rest IH]; cbn.
  - now rewrite String.eqb_refl.
  - destruct (String.compare key k) eqn:Hc; cbn.
    + now rewrite String.eqb_refl.
    + now rewrite String.eqb_refl.
    + destruct (String.eqb_spec k key) as [->|_]; [|exact IH].
      rewrite compare_refl in Hc. discriminate.
Qed.

Lemma get_put_other (key other : string) (v : Value) (db : DB Value) :
  other <> key ->
  Get Value other (Put Value key v db) = Get Value other db.
Proof.
  intros Hne. induction db as [|[k v0] rest IH]; cbn.
  - destruct (String.eqb_spec key other); [congruence | reflexivity].
  - destruct (String.compare key k) eqn:Hc; cbn.
    + apply String.compare_eq_iff in Hc. subst k.
      destruct (String.eqb_spec key other); [congruence | reflexivity].
    + destruct (String.eqb_spec key other); [congruence | reflexivity].
    + destruct (String.eqb k other); [reflexivity | exact IH].
Qed.

Lemma in_put (key : string) (v : Value) (db : DB Value) (kv : string * Value) :
  In kv (Put Value key v db) -> kv = (key, v) \/ In kv db.
Proof.
  induction db as [|[k v0] rest IH]; cbn.
  - intros [<-|[]]. now left.
  - destruct (String.compare key k); cbn.
    + intros [<-|H]; [now left | now right; right].
    + intros [<-|[<-|H]]; [now left | now right; left | now right; right].
    + intros [<-|H]; [now right; left|].
      destruct (IH H) as [->|H']; [now left | now right; right].
Qed.

Lemma ordered_cons (k : string) (v : Value) (rest : DB Value) :
  ordered Value ((k, v) :: rest) <-> below Value k rest /\ ordered Value rest.
Proof.
  cbn. destruct rest as [|[k' v'] rest]; cbn;
    split; intros [H1 H2]; split; assumption.
Qed.

Lemma put_ordered (key : string) (v : Value) (db : DB Value) :
  ordered Value db -> ordered Value (Put Value key v db).
Proof.
  induction db as [|[k v0] rest IH]; intros Ho.
  - cbn. split; exact I.
  - apply (proj1 (ordered_cons _ _ _)) in Ho. destruct Ho as [Hb Ho].
    cbn [Put]. destruct (String.compare key k) eqn:Hc.
    + apply String.compare_eq_iff in Hc. subst k.
      now apply ordered_cons.
    + apply ordered_cons. split; [exact Hc|]. now apply ordered_cons.
    + apply ordered_cons. split; [|now apply IH].
      destruct rest as [|[k' v'] rest]; cbn [Put below].
      * now apply compare_gt_lt.
      * destruct (String.compare key k'); cbn;
          try (now apply compare_gt_lt). exact Hb.
Qed.

Lemma ordered_below_all (k : string) (v : Value) (rest : DB Value) :
  ordered Value ((k, v) :: rest) ->
  forall k' v', In (k', v') rest -> String.compare k k' = Lt.
Proof.
  revert k v. induction rest as [|[k1 v1] rest IH]; intros k v Ho k' v' Hin;
    [contradiction|].
  apply (proj1 (ordered_cons _ _ _)) in Ho. destruct Ho as [Hb Ho]. cbn in Hb.
  destruct Hin as [[= <- <-]|Hin]; [exact Hb|].
  apply (compare_lt_trans k k1 k' Hb). eapply IH; eassumption.
Qed.

Lemma ordered_in_get (db : DB Value) (k : string) (v : Value) :
  ordered Value db -> In (k, v) db -> Get Value k db = Some v.
Proof.
  induction db as [|[k0 v0] rest IH]; intros Ho Hin; [contradiction|].
  cbn. destruct Hin as [[= -> ->]|Hin].
  - now rewrite String.eqb_refl.
  - pose proof (ordered_below_all _ _ _ Ho _ _ Hin) as Hlt.
    apply compare_lt_neq in Hlt.
    destruct (String.eqb_spec k0 k); [contradiction|].
    apply IH; [|exact Hin]. now apply (proj1 (ordered_cons _ _ _)) in Ho.
Qed.

(** X13: [insertEvent] files the event under its id with status pending,
    replacing whatever was stored under that id, and leaves the events of
    all other ids as they were; the keys stay in order and every entry
    stays filed under the key of its event's id. *)
Theorem insert_replaces (id : Z) (event_data event_type : string)
    (db db' : DB Value) :
  round_trip Value serializeEvent deserializeEvent ->
  insertEvent Value serializeEvent id event_data event_type db = Ret db' ->
  read Value empty_value deserializeEvent id db'
  = Ret {| id := id; event_data := event_data; event_type := event_type;
           status := "pending" |}
  /\ (forall other, other <> id ->
        Get Value (to_string other) db' = Get Value (to_string other) db)
  /\ (ordered Value db -> ordered Value db')
  /\ (keyed Value deserializeEvent db -> keyed Value deserializeEvent db').
Proof.
  intros Hrt Hins. unfold insertEvent in Hins.
  destruct (serializeEvent _) as [value|e] eqn:Hser; cbn [bind] in Hins;
    [|discriminate].
  injection Hins as <-. split; [|split; [|split]].
  - unfold read. rewrite get_put_same. now apply Hrt.
  - intros other Hne. apply get_put_other.
    intros H. apply to_string_injective in H. contradiction.
  - apply put_ordered.
  - intros Hk k v Hin. destruct (in_put _ _ _ _ Hin) as [[= -> ->]|Hold].
    + eexists. split; [apply Hrt; exact Hser | reflexivity].
    + now apply Hk.
Qed.

(** ** [fetchPendingEvents] *)

Lemma visit_first_pending (limit : Z) (it : DB Value) (evs : list Event) :
  contents Value deserializeEvent it evs ->
  forall events,
    Z.of_nat (List.length events) <= limit ->
    visit Value deserializeEvent limit it events
    = Ret (firstn (Z.to_nat limit)
                  (events ++ filter (has_status "pending") evs)).
Proof.
  induction 1 as [|[k v] e it evs Hd _ IH]; intros events Hle.
  - cbn. rewrite app_nil_r, firstn_all2; [reflexivity | lia].
  - cbn [visit]. destruct (Z.of_nat (List.length events) <? limit) eqn:Hlt.
    + apply Z.ltb_lt in Hlt. cbn [snd] in Hd. rewrite Hd. cbn [bind filter].
      unfold has_status at 1.
      destruct (String.eqb (status e) "pending").
      * rewrite IH by (rewrite length_app; cbn; lia).
        now rewrite <- app_assoc.
      * now apply IH.
    + apply Z.ltb_ge in Hlt.
      assert (Hn : Z.to_nat limit = List.length events) by lia.
      rewrite Hn, firstn_app, firstn_all, Nat.sub_diag. cbn.
      now rewrite app_nil_r.
Qed.

Lemma firstn_forall {A : Type} (P : A -> Prop) (n : nat) (l : list A) :
  Forall P l -> Forall P (firstn n l).
Proof.
  intros H. revert n. induction H as [|x l Hx _ IH]; intros [|n]; cbn;
    constructor; auto.
Qed.

Lemma in_firstn {A : Type} (x : A) (n : nat) (l : list A) :
  In x (firstn n l) -> In x l.
Proof.
  revert n. induction l as [|y l IH]; intros [|n] Hx; cbn in Hx;
    try contradiction.
  destruct Hx as [->|Hx]; [now left | right; exact (IH n Hx)].
Qed.

Lemma filter_forall {A : Type} (P : A -> Prop) (f : A -> bool)
    (l : list A) :
  Forall P l -> Forall P (filter f l).
Proof.
  induction 1 as [|x l Hx _ IH]; cbn; [constructor|].
  destruct (f x); [constructor|]; assumption.
Qed.

(** X14: when every entry can be read, [fetchPendingEvents] returns the
    pending events of the store in the order of the keys, cut after
    [limit] of them; every returned event is pending; for a limit of at
    least 0 at most [limit] events are returned, and for a negative limit,
    which the comparison takes as an unsigned number, all pending events
    are returned. *)
Theorem fetch_first_pending (limit : Z) (db : DB Value)
    (evs : list Event) :
  contents Value deserializeEvent db evs ->
  int_range limit ->
  exists events,
    fetchPendingEvents Value deserializeEvent limit db = Ret events
    /\ events = firstn (Z.to_nat (limit mod 2 ^ 64))
                       (filter (has_status "pending") evs)
    /\ Forall (fun e => status e = "pending") events
    /\ (0 <= limit -> Z.of_nat (List.length events) <= limit)
    /\ (limit < 0 -> Z.of_nat (List.length evs) < 2 ^ 63 ->
        events = filter (has_status "pending") evs).
Proof.
  intros Hc [Hlo Hhi]. eexists. split.
  { unfold fetchPendingEvents.
    rewrite (visit_first_pending _ _ _ Hc []).
    - reflexivity.
    - cbn. apply Z.mod_pos_bound. lia. }
  cbn [app]. split; [reflexivity|]. split; [|split].
  - apply firstn_forall. apply Forall_forall. intros e He.
    apply filter_In in He. destruct He as [_ He].
    now apply String.eqb_eq in He.
  - intros H0. rewrite Z.mod_small by lia.
    pose proof (firstn_le_length (Z.to_nat limit)
                  (filter (has_status "pending") evs)). lia.
  - intros Hneg Hlen. apply firstn_all2.
    pose proof (filter_length_le (has_status "pending") evs) as Hf.
    assert (Hm : limit mod 2 ^ 64 = limit + 2 ^ 64).
    { symmetry. apply (Z.mod_unique _ _ (-1)); lia. }
    rewrite Hm. lia.
Qed.

(** ** The order of what is fetched *)

Lemma keyed_contents (db : DB Value) :
  keyed Value deserializeEvent db ->
  exists evs, contents Value deserializeEvent db evs
              /\ map (fun e => to_string (id e)) evs = map fst db.
Proof.
  induction db as [|[k v] rest IH]; intros Hk.
  - exists []. split; [constructor | reflexivity].
  - destruct (Hk k v (or_introl eq_refl)) as [e [Hd He]].
    destruct IH as [evs [Hc Hm]].
    { intros k' v' Hin. apply Hk. now right. }
    exists (e :: evs). split; [now constructor|].
    cbn. now rewrite He, Hm.
Qed.

Lemma contents_ascending (db : DB Value) (evs : list Event) :
  ordered Value db ->
  contents Value deserializeEvent db evs ->
  map (fun e => to_string (id e)) evs = map fst db ->
  ascending evs.
Proof.
  intros Ho Hc. revert Ho.
  induction Hc as [|[k v] e rest evs Hd Hc IH]; intros Ho Hm; [exact I|].
  cbn in Hm. injection Hm as Hk Hm.
  pose proof (ordered_below_all _ _ _ Ho) as Hall.
  apply (proj1 (ordered_cons _ _ _)) in Ho. destruct Ho as [_ Ho].
  split; [|now apply IH].
  apply Forall_forall. intros e' He'. unfold key_before. rewrite Hk.
  assert (Hin : In (to_string (id e')) (map fst rest)).
  { rewrite <- Hm. now apply (in_map (fun e => to_string (id e))). }
  apply in_map_iff in Hin. destruct Hin as [[k' v'] [Hfst Hin]].
  cbn in Hfst. rewrite <- Hfst. eapply Hall. exact Hin.
Qed.

Lemma ascending_filter (f : Event -> bool) (evs : list Event) :
  ascending evs -> ascending (filter f evs).
Proof.
  induction evs as [|e evs IH]; [trivial|].
  intros [Hall Hasc]. cbn. destruct (f e).
  - split; [now apply filter_forall | now apply IH].
  - now apply IH.
Qed.

Lemma ascending_firstn (n : nat) (evs : list Event) :
  ascending evs -> ascending (firstn n evs).
Proof.
  revert n. induction evs as [|e evs IH]; intros [|n]; cbn; trivial.
  intros [Hall Hasc]. split; [now apply firstn_forall | now apply IH].
Qed.

(** X15: in a store whose keys are in order and whose entries are filed
    under their ids, the events that [fetchPendingEvents] returns are in
    the bytewise order of the decimal texts of their ids (so the event with
    id 10 is returned before the one with id 2). *)
Theorem fetch_in_key_order (limit : Z) (db : DB Value)
    (events : list Event) :
  ordered Value db -> keyed Value deserializeEvent db ->
  int_range limit ->
  fetchPendingEvents Value deserializeEvent limit db = Ret events ->
  ascending events.
Proof.
  intros Ho Hk Hr Hf.
  destruct (keyed_contents db Hk) as [evs [Hc Hm]].
  destruct (fetch_first_pending limit db evs Hc Hr) as [ev [Hf' [-> _]]].
  rewrite Hf in Hf'. injection Hf' as ->.
  apply ascending_firstn, ascending_filter.
  now apply (contents_ascending db).
Qed.

(** ** [updateEventStatus] *)

Lemma update_app (before after : list Z) (db : DB Value) :
  updateEventStatus Value empty_value serializeEvent deserializeEvent
                    (before ++ after) db
  = match updateEventStatus Value empty_value serializeEvent
                            deserializeEvent before db with
    | (db1, Ret _) =>
        updateEventStatus Value empty_value serializeEvent deserializeEvent
                          after db1
    | (db1, Throw e) => (db1, Throw e)
    end.
Proof.
  revert db. induction before as [|id before IH]; intros db; cbn.
  - reflexivity.
  - destruct (deserializeEvent _) as [event|e]; [|reflexivity].
    destruct (serializeEvent _) as [value'|e]; [|reflexivity].
    apply IH.
Qed.

(** X16: [updateEventStatus] stops with an exception at the first id that
    is not in the store, because the empty text read for it is no event:
    the ids before it in the list have been updated, the ids after it are
    not looked at. *)
Theorem update_stops_at_unknown_id (before after : list Z) (id : Z)
    (db db1 : DB Value) (e : exception) :
  updateEventStatus Value empty_value serializeEvent deserializeEvent
                    before db = (db1, Ret tt) ->
  Get Value (to_string id) db1 = None ->
  deserializeEvent empty_value = Throw e ->
  updateEventStatus Value empty_value serializeEvent deserializeEvent
                    (before ++ id :: after) db = (db1, Throw e).
Proof.
  intros Hb Hg He. rewrite update_app, Hb. cbn. now rewrite Hg, He.
Qed.

Lemma with_status_twice (st : string) (event : Event) :
  with_status st (with_status st event) = with_status st event.
Proof. reflexivity. Qed.

(** X17: when [updateEventStatus] ends without exception, every listed id
    held an event before and holds the same event with status
    ["dispatched"] afterwards, also when the id is listed more than once;
    the entries of all other keys are as they were, and the keys stay in
    order. *)
Theorem update_marks_listed (event_ids : list Z) :
  round_trip Value serializeEvent deserializeEvent ->
  forall db db',
    updateEventStatus Value empty_value serializeEvent deserializeEvent
                      event_ids db = (db', Ret tt) ->
    (forall id, In id event_ids ->
       exists event,
         read Value empty_value deserializeEvent id db = Ret event
         /\ read Value empty_value deserializeEvent id db'
            = Ret (with_status "dispatched" event))
    /\ (forall key, ~ In key (map to_string event_ids) ->
          Get Value key db' = Get Value key db)
    /\ (ordered Value db -> ordered Value db').
Proof.
  intros Hrt. induction event_ids as [|id rest IH]; intros db db' Hu.
  - injection Hu as <-. split; [intros id []|]. now split.
  - cbn [updateEventStatus] in Hu.
    destruct (deserializeEvent _) as [event|e] eqn:Hd; [|discriminate].
    destruct (serializeEvent _) as [value'|e] eqn:Hs; [|discriminate].
    destruct (IH _ _ Hu) as [Hlisted [Hother Hord]]. clear IH.
    assert (Hnew : deserializeEvent value'
                   = Ret (with_status "dispatched" event))
      by (now apply Hrt).
    assert (Hhead : read Value empty_value deserializeEvent id db'
                    = Ret (with_status "dispatched" event)).
    { destruct (in_dec Z.eq_dec id rest) as [Hin|Hnin].
      - destruct (Hlisted id Hin) as [e1 [H1 H2]].
        unfold read in H1. rewrite get_put_same, Hnew in H1.
        injection H1 as <-. now rewrite H2.
      - unfold read. rewrite Hother, get_put_same; [exact Hnew|].
        intros Hin. apply in_map_iff in Hin.
        destruct Hin as [x [Hx Hin]]. apply to_string_injective in Hx.
        now subst x. }
    split; [|split].
    + intros id' [<-|Hin].
      * exists event. split; [exact Hd | exact Hhead].
      * destruct (Z.eq_dec id' id) as [->|Hne].
        -- exists event. split; [exact Hd | exact Hhead].
        -- destruct (Hlisted id' Hin) as [e1 [H1 H2]].
           exists e1. split; [|exact H2].
           unfold read in H1 |- *. rewrite get_put_other in H1; [exact H1|].
           intros H. apply to_string_injective in H. contradiction.
    + intros key Hnin. cbn in Hnin.
      rewrite Hother by (intros Hr; apply Hnin; now right).
      apply get_put_other. intros ->. apply Hnin. now left.
    + intros Ho. now apply Hord, put_ordered.
Qed.

Lemma update_keeps_keyed (event_ids : list Z) :
  round_trip Value serializeEvent deserializeEvent ->
  (forall event, deserializeEvent empty_value <> Ret event) ->
  forall db db',
    updateEventStatus Value empty_value serializeEvent deserializeEvent
                      event_ids db = (db', Ret tt) ->
    ordered Value db -> keyed Value deserializeEvent db ->
    keyed Value deserializeEvent db'.
Proof.
  intros Hrt Hempty. induction event_ids as [|id rest IH];
    intros db db' Hu Ho Hk.
  - now injection Hu as <-.
  - cbn [updateEventStatus] in Hu.
    destruct (Get Value (to_string id) db) as [v|] eqn:Hg.
    2:{ destruct (deserializeEvent empty_value) eqn:Hd; [|discriminate].
        now destruct (Hempty a). }
    destruct (deserializeEvent v) as [event|e] eqn:Hd; [|discriminate].
    destruct (serializeEvent _) as [value'|e] eqn:Hs; [|discriminate].
    apply (IH _ _ Hu); [now apply put_ordered|].
    intros k v0 Hin. destruct (in_put _ _ _ _ Hin) as [[= -> ->]|Hold];
      [|now apply Hk].
    exists (with_status "dispatched" event). split; [now apply Hrt|].
    cbn.
    assert (Hin' : In (to_string id, v) db).
    { clear - Hg. induction db as [|[k0 v1] db IHdb]; [discriminate|].
      cbn in Hg. destruct (String.eqb_spec k0 (to_string id)) as [->|_].
      - injection Hg as ->. now left.
      - right. now apply IHdb. }
    destruct (Hk _ _ Hin') as [event' [Hd' Hkey]].
    rewrite Hd in Hd'. now injection Hd' as <-.
Qed.

Lemma contents_in (db : DB Value) (evs : list Event) (event : Event) :
  contents Value deserializeEvent db evs -> In event evs ->
  exists k v, In (k, v) db /\ deserializeEvent v = Ret event.
Proof.
  induction 1 as [|[k v] e db evs Hd _ IH]; intros Hin; [contradiction|].
  destruct Hin as [<-|Hin].
  - exists k, v. split; [now left | exact Hd].
  - destruct (IH Hin) as [k' [v' [H1 H2]]]. exists k', v'.
    split; [now right | exact H2].
Qed.

(** X18: in a store whose keys are in order and whose entries are filed
    under their ids, after [updateEventStatus] has ended without exception
    [fetchPendingEvents] returns no event whose id was listed. *)
Theorem updated_events_are_not_fetched (event_ids : list Z) (limit : Z)
    (db db' : DB Value) (events : list Event) :
  round_trip Value serializeEvent deserializeEvent ->
  (forall event, deserializeEvent empty_value <> Ret event) ->
  ordered Value db -> keyed Value deserializeEvent db ->
  int_range limit ->
  updateEventStatus Value empty_value serializeEvent deserializeEvent
                    event_ids db = (db', Ret tt) ->
  fetchPendingEvents Value deserializeEvent limit db' = Ret events ->
  forall event, In event events -> ~ In (id event) event_ids.
Proof.
  intros Hrt Hempty Ho Hk Hr Hu Hf event Hin Hlisted.
  pose proof (update_keeps_keyed event_ids Hrt Hempty db db' Hu Ho Hk)
    as Hk'.
  destruct (update_marks_listed event_ids Hrt db db' Hu)
    as [Hmarked [_ Hord]].
  specialize (Hord Ho).
  destruct (keyed_contents db' Hk') as [evs [Hc _]].
  destruct (fetch_first_pending limit db' evs Hc Hr)
    as [ev [Hf' [-> [Hpend _]]]].
  rewrite Hf in Hf'. injection Hf' as ->.
  assert (Hst : status event = "pending").
  { rewrite Forall_forall in Hpend. now apply Hpend. }
  assert (Hev : In event evs).
  { apply in_firstn in Hin. apply filter_In in Hin. exact (proj1 Hin). }
  destruct (contents_in db' evs event Hc Hev) as [k [v [Hkv Hd]]].
  destruct (Hk' k v Hkv) as [event' [Hd' Hkey]].
  rewrite Hd in Hd'. injection Hd' as <-.
  pose proof (ordered_in_get db' k v Hord Hkv) as Hg.
  destruct (Hmarked (id event) Hlisted) as [e0 [_ Hread]].
  unfold read in Hread. rewrite Hkey, Hg, Hd in Hread.
  injection Hread as ->. discriminate.
Qed.

End Wrapper.

(** ** A store of events kept as they are *)

Lemma insert_replaces_witness :
  let ser := fun event : Event => Ret (Some event) in
  let des := fun v : option Event =>
    match v with
    | Some event => Ret event
    | None => Throw (std_exception "parse error")
    end in
  let db := [("7", Some (mkEvent 7 "old" "json" "dispatched"))] in
  exists db',
    insertEvent (option Event) ser 7 "new" "xml" db = Ret db'
    /\ read (option Event) None des 7 db'
       = Ret (mkEvent 7 "new" "xml" "pending").
Proof.
  intros ser des db. eexists. split; [reflexivity|].
  refine (proj1 (insert_replaces (option Event) None ser des 7 "new" "xml"
                   db _ _ eq_refl)).
  intros event value [= <-]. reflexivity.
Defined.

Lemma fetch_first_pending_witness :
  let des := fun v : option Event =>
    match v with
    | Some event => Ret event
    | None => Throw (std_exception "parse error")
    end in
  let e10 := mkEvent 10 "b" "json" "pending" in
  let e2 := mkEvent 2 "a" "json" "pending" in
  let db := [("10", Some e10); ("2", Some e2)] in
  fetchPendingEvents (option Event) des 1 db = Ret [e10]
  /\ fetchPendingEvents (option Event) des (-1) db = Ret [e10; e2].
Proof.
  intros des e10 e2 db.
  assert (Hc : contents (option Event) des db [e10; e2])
    by (repeat constructor).
  split.
  - destruct (fetch_first_pending (option Event) des 1 db [e10; e2] Hc)
      as [events [Hf [-> _]]]; [unfold int_range; lia|].
    exact Hf.
  - destruct (fetch_first_pending (option Event) des (-1) db [e10; e2] Hc)
      as [events [Hf [_ [_ [_ Hall]]]]]; [unfold int_range; lia|].
    rewrite Hf. f_equal. apply Hall; [lia | cbn; lia].
Defined.

Lemma fetch_in_key_order_witness :
  let ser := fun event : Event => Ret (Some event) in
  let des := fun v : option Event =>
    match v with
    | Some event => Ret event
    | None => Throw (std_exception "parse error")
    end in
  let e10 := mkEvent 10 "b" "json" "pending" in
  let e2 := mkEvent 2 "a" "json" "pending" in
  let db := [("10", Some e10); ("2", Some e2)] in
  (db1 <- insertEvent (option Event) ser 2 "a" "json" [] ;;
   insertEvent (option Event) ser 10 "b" "json" db1) = Ret db
  /\ fetchPendingEvents (option Event) des 5 db = Ret [e10; e2]
  /\ ascending [e10; e2].
Proof.
  intros ser des e10 e2 db.
  split; [reflexivity|]. split; [reflexivity|].
  refine (fetch_in_key_order (option Event) des 5 db [e10; e2] _ _ _
            eq_refl).
  - cbn. repeat split.
  - intros k v [[= <- <-]|[[= <- <-]|[]]]; eexists; split; reflexivity.
  - unfold int_range. lia.
Defined.

Lemma update_stops_at_unknown_id_witness :
  let ser := fun event : Event => Ret (Some event) in
  let des := fun v : option Event =>
    match v with
    | Some event => Ret event
    | None => Throw (std_exception "parse error")
    end in
  let db := [("1", Some (mkEvent 1 "a" "json" "pending"));
             ("3", Some (mkEvent 3 "c" "json" "pending"))] in
  updateEventStatus (option Event) None ser des [1; 2; 3] db
  = ([("1", Some (mkEvent 1 "a" "json" "dispatched"));
      ("3", Some (mkEvent 3 "c" "json" "pending"))],
     Throw (std_exception "parse error")).
Proof.
  intros ser des db.
  exact (update_stops_at_unknown_id (option Event) None ser des [1] [3] 2
           db _ _ eq_refl eq_refl eq_refl).
Defined.

Lemma update_marks_listed_witness :
  let ser := fun event : Event => Ret (Some event) in
  let des := fun v : option Event =>
    match v with
    | Some event => Ret event
    | None => Throw (std_exception "parse error")
    end in
  let db := [("1", Some (mkEvent 1 "a" "json" "pending"));
             ("3", Some (mkEvent 3 "c" "json" "pending"))] in
  exists db',
    updateEventStatus (option Event) None ser des [3; 3] db = (db', Ret tt)
    /\ Get (option Event) "1" db' = Get (option Event) "1" db.
Proof.
  intros ser des db. eexists. split; [reflexivity|].
  refine (proj1 (proj2 (update_marks_listed (option Event) None ser des
                          [3; 3] _ db _ eq_refl)) "1" _).
  - intros event value [= <-]. reflexivity.
  - cbn. intros [H|[H|[]]]; discriminate.
Defined.

Lemma updated_events_are_not_fetched_witness :
  let ser := fun event : Event => Ret (Some event) in
  let des := fun v : option Event =>
    match v with
    | Some event => Ret event
    | None => Throw (std_exception "parse error")
    end in
  let e1 := mkEvent 1 "a" "json" "pending" in
  let e3 := mkEvent 3 "c" "json" "pending" in
  let db := [("1", Some e1); ("3", Some e3)] in
  exists db',
    updateEventStatus (option Event) None ser des [3] db = (db', Ret tt)
    /\ fetchPendingEvents (option Event) des 10 db' = Ret [e1]
    /\ ~ In (id e1) [3].
Proof.
  intros ser des e1 e3 db. eexists.
  split; [reflexivity|]. split; [reflexivity|].
  refine (updated_events_are_not_fetched (option Event) None ser des [3] 10
            db _ [e1] _ _ _ _ _ eq_refl eq_refl e1 (or_introl eq_refl)).
  - intros event value [= <-]. reflexivity.
  - intros event. discriminate.
  - cbn. repeat split.
  - intros k v [[= <- <-]|[[= <- <-]|[]]]; eexists; split; reflexivity.
  - unfold int_range. lia.
Defined.

End RocksDBWrapperFacts.

(* ================================================================== *)
(** * Facts about the merge of YAML nodes *)
(* ================================================================== *)

Module YamlMergeFacts.
Import YamlMerge.

Lemma Node_induction (P : Node -> Prop) :
  P Null ->
  (forall text, P (Scalar text)) ->
  (forall items, Forall P items -> P (Sequence items)) ->
  (forall es, Forall (fun kv => P (snd kv)) es -> P (Map es)) ->
  forall n, P n.
Proof.
  intros HN HS HQ HM.
  fix IH 1. intros [| text | items | es].
  - exact HN.
  - apply HS.
  - apply HQ. induction items as [|item rest IHr]; constructor; [apply IH | exact IHr].
  - apply HM. induction es as [|[k v] rest IHr]; constructor; [apply IH | exact IHr].
Qed.

Lemma lookup_replace_same key v m :
  lookup key (replace key v m) =
  match lookup key m with Some _ => Some v | None => None end.
Proof.
  induction m as [|[k old] rest IH]; cbn; [reflexivity|].
  destruct (String.eqb k key) eqn:E; cbn; rewrite E; [reflexivity | exact IH].
Qed.

Lemma lookup_replace_other key key' v m :
  key <> key' -> lookup key' (replace key v m) = lookup key' m.
Proof.
  intros Hne. induction m as [|[k old] rest IH]; cbn; [reflexivity|].
  destruct (String.eqb_spec k key) as [->|E]; cbn.
  - destruct (String.eqb_spec key key'); [contradiction | reflexivity].
  - now rewrite IH.
Qed.

Lemma lookup_app key m m' :
  lookup key (m ++ m')%list =
  match lookup key m with Some v => Some v | None => lookup key m' end.
Proof.
  induction m as [|[k old] rest IH]; cbn; [reflexivity|].
  destruct (String.eqb k key); [reflexivity | exact IH].
Qed.

Lemma lookup_none key m : lookup key m = None <-> ~ In key (map fst m).
Proof.
  induction m as [|[k old] rest IH]; cbn.
  - split; [intros _ [] | reflexivity].
  - destruct (String.eqb_spec k key) as [->|Hne].
    + split; [discriminate | intros H; exfalso; apply H; now left].
    + rewrite IH. split; [intros H [E|H']; [now apply Hne | now apply H]
                          | intros H H'; apply H; now right].
Qed.

Lemma replace_absent key v m : lookup key m = None -> replace key v m = m.
Proof.
  induction m as [|[k old] rest IH]; cbn; [reflexivity|].
  destruct (String.eqb k key); [discriminate|].
  intros H. now rewrite IH.
Qed.

Lemma replace_same key v m : lookup key m = Some v -> replace key v m = m.
Proof.
  induction m as [|[k old] rest IH]; cbn; [reflexivity|].
  destruct (String.eqb k key).
  - now intros [= ->].
  - intros H. now rewrite IH.
Qed.

Lemma replace_replace key v w m :
  replace key v (replace key w m) = replace key v m.
Proof.
  induction m as [|[k old] rest IH]; cbn; [reflexivity|].
  destruct (String.eqb k key) eqn:E; cbn; rewrite E; [reflexivity | now rewrite IH].
Qed.

Lemma replace_comm key key' v w m :
  key <> key' ->
  replace key v (replace key' w m) = replace key' w (replace key v m).
Proof.
  intros Hne. induction m as [|[k old] rest IH]; cbn; [reflexivity|].
  destruct (String.eqb k key) eqn:H1; destruct (String.eqb k key') eqn:H2;
    cbn; rewrite ?H1, ?H2; try reflexivity.
  - apply String.eqb_eq in H1, H2. congruence.
  - now rewrite IH.
Qed.

Lemma replace_app key v m m' :
  replace key v (m ++ m')%list =
  match lookup key m with
  | Some _ => (replace key v m ++ m')%list
  | None => (m ++ replace key v m')%list
  end.
Proof.
  induction m as [|[k old] rest IH]; cbn; [reflexivity|].
  destruct (String.eqb k key); [reflexivity|].
  rewrite IH. now destruct (lookup key rest).
Qed.

Lemma map_fst_replace key v m : map fst (replace key v m) = map fst m.
Proof.
  induction m as [|[k old] rest IH]; cbn; [reflexivity|].
  destruct (String.eqb k key); cbn; [reflexivity | now rewrite IH].
Qed.

(** ** Handles *)

Lemma get_put h : forall v root x,
  get h root = Some x -> get h (put h v root) = Some v.
Proof.
  induction h as [|key rest IH]; intros v root x; cbn; [reflexivity|].
  destruct root as [| | |m]; try discriminate.
  destruct (lookup key m) as [child|] eqn:E; [|discriminate].
  intros H. cbn. rewrite lookup_replace_same, E. eapply IH, H.
Qed.

Lemma put_get h : forall v root, get h root = Some v -> put h v root = root.
Proof.
  induction h as [|key rest IH]; intros v root; cbn; [now intros [= ->]|].
  destruct root as [| | |m]; try discriminate.
  destruct (lookup key m) as [child|] eqn:E; [|discriminate].
  intros H. rewrite (IH _ _ H). now rewrite replace_same.
Qed.

Lemma put_put h : forall v w root, put h v (put h w root) = put h v root.
Proof.
  induction h as [|key rest IH]; intros v w root; cbn; [reflexivity|].
  destruct root as [| | |m]; try reflexivity.
  destruct (lookup key m) as [child|] eqn:E; cbn; [|now rewrite E].
  rewrite lookup_replace_same, E, IH, replace_replace. reflexivity.
Qed.

Lemma get_app h h' : forall root,
  get (h ++ h')%list root =
  match get h root with Some x => get h' x | None => None end.
Proof.
  induction h as [|key rest IH]; intros root; cbn; [reflexivity|].
  destruct root as [| | |m]; try reflexivity.
  destruct (lookup key m); [apply IH | reflexivity].
Qed.

Lemma put_app h h' v : forall root x,
  get h root = Some x ->
  put (h ++ h')%list v root = put h (put h' v x) root.
Proof.
  induction h as [|key rest IH]; intros root x; cbn; [now intros [= ->]|].
  destruct root as [| | |m]; try discriminate.
  destruct (lookup key m) as [child|] eqn:E; [|discriminate].
  intros H. now rewrite (IH _ _ H).
Qed.

Lemma diverge_sym p q : diverge p q -> diverge q p.
Proof.
  induction 1; [apply diverge_here; congruence | now apply diverge_later].
Qed.

Lemma diverge_app p q a b : diverge p q -> diverge (p ++ a)%list (q ++ b)%list.
Proof.
  induction 1; cbn; [now apply diverge_here | now apply diverge_later].
Qed.

Lemma diverge_siblings p key key' :
  key <> key' -> diverge (p ++ [key])%list (p ++ [key'])%list.
Proof.
  intros Hne. induction p; cbn; [now apply diverge_here | now apply diverge_later].
Qed.

Lemma get_put_diverge p q v :
  diverge p q -> forall root, get q (put p v root) = get q root.
Proof.
  induction 1 as [key key' p q Hne | key p q Hd IH]; intros root; cbn.
  - destruct root as [| | |m]; try reflexivity.
    destruct (lookup key m) as [child|] eqn:E; [|reflexivity].
    cbn. now rewrite lookup_replace_other.
  - destruct root as [| | |m]; try reflexivity.
    destruct (lookup key m) as [child|] eqn:E; cbn; [|now rewrite E].
    now rewrite lookup_replace_same, E, IH.
Qed.

Lemma put_put_diverge p q v w :
  diverge p q -> forall root,
  put p v (put q w root) = put q w (put p v root).
Proof.
  induction 1 as [key key' p q Hne | key p q Hd IH]; intros root; cbn.
  - destruct root as [| | |m]; try reflexivity.
    destruct (lookup key m) as [c|] eqn:E; destruct (lookup key' m) as [c'|] eqn:E'; cbn.
    + rewrite !lookup_replace_other, E, E' by congruence.
      now rewrite replace_comm.
    + now rewrite ?lookup_replace_other, ?E, ?E' by congruence.
    + now rewrite ?lookup_replace_other, ?E, ?E' by congruence.
    + now rewrite ?E, ?E'.
  - destruct root as [| | |m]; try reflexivity.
    destruct (lookup key m) as [c|] eqn:E; cbn; [|now rewrite E].
    rewrite !lookup_replace_same, E, !replace_replace, IH. reflexivity.
Qed.

(** ** One pair of the override *)

Lemma merge_pair_eq h key value m queue :
  merge_pair h key value m queue =
  (pair_step key value m, (queue ++ pair_child h key value m)%list).
Proof.
  unfold pair_step, pair_child, merge_pair.
  destruct (lookup key m) as [old|]; cbn.
  - destruct (IsMap value && IsMap old); cbn; [reflexivity|].
    destruct (IsSequence value && IsSequence old); cbn; now rewrite app_nil_r.
  - now rewrite app_nil_r.
Qed.

Lemma pair_step_merged key value m :
  pair_child [] key value m = [] ->
  pair_step key value m =
  match lookup key m with
  | Some old => replace key (merged_value (Some old) value) m
  | None => (m ++ [(key, value)])%list
  end.
Proof.
  unfold pair_step, pair_child, merge_pair.
  destruct (lookup key m) as [old|]; cbn; [|reflexivity].
  destruct value, old; cbn; try reflexivity; discriminate.
Qed.

Lemma pair_child_cases h key value m :
  (pair_child h key value m = [] /\ pair_child [] key value m = [])
  \/ (exists es om, value = Map es /\ lookup key m = Some (Map om)
      /\ pair_child h key value m = [((h ++ [key])%list, value)]
      /\ pair_step key value m = m).
Proof.
  unfold pair_step, pair_child, merge_pair.
  destruct (lookup key m) as [old|]; cbn; [|now left].
  destruct value as [| | |es], old as [| | |om]; cbn; try (now left).
  right. now exists es, om.
Qed.

Lemma lookup_pair_step key key' value m :
  key <> key' -> lookup key' (pair_step key value m) = lookup key' m.
Proof.
  intros Hne. unfold pair_step, merge_pair.
  destruct (lookup key m) as [old|]; cbn.
  - destruct (IsMap value && IsMap old); cbn; [reflexivity|].
    destruct (IsSequence value && IsSequence old); cbn;
      now apply lookup_replace_other.
  - rewrite lookup_app. cbn.
    destruct (String.eqb_spec key key'); [contradiction|].
    now destruct (lookup key' m).
Qed.

Lemma pair_step_replace key key' value x m :
  key <> key' ->
  pair_step key' value (replace key x m) = replace key x (pair_step key' value m).
Proof.
  intros Hne. unfold pair_step, merge_pair.
  rewrite lookup_replace_other by exact Hne.
  destruct (lookup key' m) as [old|]; cbn.
  - destruct (IsMap value && IsMap old); cbn; [reflexivity|].
    destruct (IsSequence value && IsSequence old); cbn;
      apply replace_comm; congruence.
  - rewrite replace_app. destruct (lookup key m) eqn:Ek; [reflexivity|].
    rewrite (replace_absent _ _ _ Ek). cbn.
    destruct (String.eqb_spec key' key); [congruence | reflexivity].
Qed.

Lemma pair_child_replace h key key' value x m :
  key <> key' ->
  pair_child h key' value (replace key x m) = pair_child h key' value m.
Proof.
  intros Hne. unfold pair_child, merge_pair.
  rewrite lookup_replace_other by exact Hne.
  destruct (lookup key' m) as [old|]; [|reflexivity].
  destruct (IsMap value && IsMap old); [reflexivity|].
  now destruct (IsSequence value && IsSequence old).
Qed.

(** ** The [for] loop on a mapping *)

Lemma lookup_shallow key pairs : forall m,
  ~ In key (map fst pairs) -> lookup key (shallow pairs m) = lookup key m.
Proof.
  induction pairs as [|[k v] rest IH]; intros m Hn; cbn; [reflexivity|].
  cbn in Hn. rewrite IH by (intuition congruence). apply lookup_pair_step. intuition congruence.
Qed.

Lemma shallow_replace key x pairs : forall m,
  ~ In key (map fst pairs) ->
  shallow pairs (replace key x m) = replace key x (shallow pairs m).
Proof.
  induction pairs as [|[k v] rest IH]; intros m Hn; cbn; [reflexivity|].
  cbn in Hn. rewrite pair_step_replace by (intuition congruence). apply IH. intuition congruence.
Qed.

Lemma children_replace h key x pairs : forall m,
  ~ In key (map fst pairs) ->
  children h pairs (replace key x m) = children h pairs m.
Proof.
  induction pairs as [|[k v] rest IH]; intros m Hn; cbn; [reflexivity|].
  cbn in Hn. rewrite pair_child_replace, pair_step_replace by (intuition congruence).
  f_equal. apply IH. intuition congruence.
Qed.

Lemma merge_pairs_map h pairs : forall m root queue,
  get h root = Some (Map m) ->
  merge_pairs h pairs root queue =
  (put h (Map (shallow pairs m)) root,
   (queue ++ children h pairs m)%list, Ret tt).
Proof.
  induction pairs as [|[k v] rest IH]; intros m root queue Hg; cbn.
  - now rewrite app_nil_r, (put_get _ _ _ Hg).
  - rewrite Hg. cbn. rewrite merge_pair_eq.
    rewrite (IH (pair_step k v m)).
    + now rewrite put_put, app_assoc.
    + eapply get_put, Hg.
Qed.

Lemma merge_into_cons key value rest m :
  merge_into (Map ((key, value) :: rest)) m =
  merge_into (Map rest)
    match lookup key m with
    | Some old => replace key (merged_value (Some old) value) m
    | None => (m ++ [(key, value)])%list
    end.
Proof.
  cbn. f_equal.
  destruct (lookup key m) as [old|]; [|reflexivity].
  destruct old, value; reflexivity.
Qed.

Lemma finish_app q1 q2 root : finish (q1 ++ q2)%list root = finish q2 (finish q1 root).
Proof. unfold finish. apply fold_left_app. Qed.

(** The pairs the loop pushed, once merged, give the recursive merge. *)
Lemma finish_children h pairs : forall m root x,
  NoDup (map fst pairs) ->
  get h root = Some x ->
  finish (children h pairs m) (put h (Map (shallow pairs m)) root) =
  put h (Map (merge_into (Map pairs) m)) root.
Proof.
  induction pairs as [|[k v] rest IH]; intros m root x Hnd Hg; [reflexivity|].
  cbn [map fst] in Hnd. apply NoDup_cons_iff in Hnd as [Hnot Hnd].
  rewrite merge_into_cons. cbn [children shallow].
  destruct (pair_child_cases h k v m)
    as [[Hc Hc0] | (es & om & -> & Hl & Hc & Hs)].
  - rewrite Hc. cbn [app]. rewrite (IH _ _ x Hnd Hg).
    now rewrite (pair_step_merged _ _ _ Hc0).
  - rewrite Hc, Hs, Hl. cbn [app]. unfold finish at 1. cbn [fold_left].
    fold (finish (children h rest m)).
    assert (Hone : finish_one ((h ++ [k])%list, Map es)
                     (put h (Map (shallow rest m)) root)
                   = put h (Map (shallow rest
                       (replace k (Map (merge_into (Map es) om)) m))) root).
    { unfold finish_one. cbn [fst snd].
      rewrite get_app, (get_put _ _ _ _ Hg). cbn [get].
      rewrite lookup_shallow, Hl by exact Hnot.
      rewrite (put_app _ _ _ _ _ (get_put _ _ _ _ Hg)). cbn [put].
      rewrite lookup_shallow, Hl by exact Hnot.
      rewrite put_put, shallow_replace by exact Hnot. reflexivity. }
    rewrite Hone.
    rewrite <- (children_replace h k (Map (merge_into (Map es) om)))
      by exact Hnot.
    now rewrite (IH _ _ x Hnd Hg).
Qed.

(** ** The queue *)

Lemma size_pos n : (1 <= size n)%nat.
Proof. destruct n; cbn; lia. Qed.

Lemma queue_size_app q1 q2 :
  queue_size (q1 ++ q2)%list = (queue_size q1 + queue_size q2)%nat.
Proof.
  unfold queue_size. induction q1 as [|hv rest IH]; cbn; [reflexivity|].
  rewrite IH. lia.
Qed.

Lemma pair_child_size h key value m :
  (queue_size (pair_child h key value m) <= size value)%nat.
Proof.
  destruct (pair_child_cases h key value m)
    as [[-> _] | (es & om & -> & _ & -> & _)]; cbn; lia.
Qed.

Lemma children_size h pairs : forall m,
  (queue_size (children h pairs m)
   <= fold_right (fun kv k => size (snd kv) + k) 0 pairs)%nat.
Proof.
  induction pairs as [|[k v] rest IH]; intros m; cbn; [lia|].
  rewrite queue_size_app.
  specialize (IH (pair_step k v m)).
  pose proof (pair_child_size h k v m). lia.
Qed.

Lemma children_keys h pairs : forall m c,
  In c (children h pairs m) ->
  exists key, In key (map fst pairs) /\ fst c = (h ++ [key])%list.
Proof.
  induction pairs as [|[k v] rest IH]; intros m c; cbn; [intros []|].
  rewrite in_app_iff. intros [Hc | Hc].
  - destruct (pair_child_cases h k v m)
      as [[E _] | (es & om & -> & _ & E & _)]; rewrite E in Hc.
    + destruct Hc.
    + destruct Hc as [<- | []]. exists k. split; [now left | reflexivity].
  - destruct (IH _ _ Hc) as (key & Hin & E).
    exists key. split; [now right | exact E].
Qed.

Lemma children_spec h pairs : forall m c,
  NoDup (map fst pairs) ->
  In c (children h pairs m) ->
  exists key es om,
    In (key, Map es) pairs /\ c = ((h ++ [key])%list, Map es)
    /\ lookup key (shallow pairs m) = Some (Map om).
Proof.
  induction pairs as [|[k v] rest IH]; intros m c Hnd; cbn [children];
    [intros []|].
  cbn [map fst] in Hnd. apply NoDup_cons_iff in Hnd as [Hnot Hnd].
  rewrite in_app_iff. intros [Hc | Hc].
  - destruct (pair_child_cases h k v m)
      as [[E _] | (es & om & -> & Hl & E & Hs)]; rewrite E in Hc.
    + destruct Hc.
    + destruct Hc as [<- | []]. exists k, es, om.
      split; [now left | split; [reflexivity|]].
      cbn [shallow]. now rewrite lookup_shallow, Hs.
  - destruct (IH _ _ Hnd Hc) as (key & es & om & Hin & E & Hl).
    exists key, es, om. split; [now right | split; [exact E | exact Hl]].
Qed.

Lemma separate_app a b :
  separate (a ++ b)%list <->
  separate a /\ separate b /\ Forall (fun x => Forall (diverge x) b) a.
Proof.
  induction a as [|x rest IH]; cbn.
  - split; [intros H; repeat split; [exact H | constructor] | now intros (_ & H & _)].
  - rewrite Forall_app, IH. split.
    + intros ((H1 & H2) & H3 & H4 & H5). repeat split; try assumption.
      now constructor.
    + intros ((H1 & H2) & H3 & H4). inversion H4; subst.
      repeat split; assumption.
Qed.

Lemma children_separate h pairs : forall m,
  NoDup (map fst pairs) -> separate (map fst (children h pairs m)).
Proof.
  induction pairs as [|[k v] rest IH]; intros m Hnd; cbn [children];
    [exact I|].
  cbn [map fst] in Hnd. apply NoDup_cons_iff in Hnd as [Hnot Hnd].
  rewrite map_app. apply separate_app. split; [|split].
  - destruct (pair_child_cases h k v m)
      as [[-> _] | (es & om & -> & _ & -> & _)]; cbn; [exact I|].
    split; [constructor | exact I].
  - now apply IH.
  - destruct (pair_child_cases h k v m)
      as [[-> _] | (es & om & -> & _ & -> & _)]; cbn; constructor;
      [|constructor].
    apply Forall_forall. intros p Hp. apply in_map_iff in Hp as (c & <- & Hc).
    destruct (children_keys _ _ _ _ Hc) as (key & Hin & ->).
    apply diverge_siblings. intros ->. contradiction.
Qed.

Lemma unique_keys_in key value es :
  unique_keys (Map es) -> In (key, value) es -> unique_keys value.
Proof.
  intros [_ Hall]. induction es as [|[k v] rest IH]; cbn; [intros []|].
  destruct Hall as [Hv Hrest]. intros [[= -> ->] | Hin]; [exact Hv|].
  now apply IH.
Qed.

Lemma get_finish_one h hv root :
  diverge (fst hv) h -> get h (finish_one hv root) = get h root.
Proof.
  intros Hd. unfold finish_one.
  destruct (get (fst hv) root) as [[| | |m]|]; try reflexivity.
  now apply get_put_diverge.
Qed.

Lemma get_finish h queue : forall root,
  Forall (fun q => diverge q h) (map fst queue) ->
  get h (finish queue root) = get h root.
Proof.
  induction queue as [|hv rest IH]; intros root Hd; [reflexivity|].
  cbn [map] in Hd. inversion Hd; subst.
  unfold finish. cbn [fold_left]. fold (finish rest).
  rewrite IH by assumption. now apply get_finish_one.
Qed.

Lemma finish_one_put h x hv root :
  diverge h (fst hv) ->
  finish_one hv (put h x root) = put h x (finish_one hv root).
Proof.
  intros Hd. unfold finish_one.
  rewrite (get_put_diverge _ _ _ Hd).
  destruct (get (fst hv) root) as [[| | |m]|]; try reflexivity.
  symmetry. now apply put_put_diverge.
Qed.

Lemma finish_put h x queue : forall root,
  Forall (diverge h) (map fst queue) ->
  finish queue (put h x root) = put h x (finish queue root).
Proof.
  induction queue as [|hv rest IH]; intros root Hd; [reflexivity|].
  cbn [map] in Hd. inversion Hd; subst.
  unfold finish. cbn [fold_left]. fold (finish rest).
  rewrite finish_one_put by assumption. now apply IH.
Qed.

Lemma process_ready : forall fuel queue root,
  (queue_size queue <= fuel)%nat ->
  ready queue root ->
  process fuel queue root = Some (finish queue root, Ret tt).
Proof.
  induction fuel as [|fuel IH]; intros queue root Hsize Hready.
  - destruct queue as [|[h ov] rest]; [reflexivity|].
    cbn in Hsize. pose proof (size_pos ov). lia.
  - destruct queue as [|[h ov] rest]; [reflexivity|].
    destruct Hready as [Hall Hsep].
    inversion Hall as [|? ? (es & m & Hov & Huniq & Hget) Hrest]; subst.
    cbn [fst snd] in Hov, Hget. subst ov.
    cbn [map fst] in Hsep. destruct Hsep as [Hdiv Hsep].
    cbn [process keyed_entries].
    rewrite (merge_pairs_map _ _ _ _ _ Hget).
    assert (Hnd : NoDup (map fst es)) by exact (proj1 Huniq).
    rewrite IH.
    + f_equal. f_equal.
      rewrite finish_app, finish_put by exact Hdiv.
      assert (Hg : get h (finish rest root) = Some (Map m)).
      { rewrite get_finish; [exact Hget|].
        eapply Forall_impl; [|exact Hdiv]. intros q. apply diverge_sym. }
      rewrite (finish_children _ _ _ _ _ Hnd Hg).
      rewrite <- finish_put by exact Hdiv.
      change (finish ((h, Map es) :: rest) root)
        with (finish rest (finish_one (h, Map es) root)).
      unfold finish_one. cbn [fst snd]. now rewrite Hget.
    + rewrite queue_size_app. pose proof (children_size h es m) as Hc.
      change (queue_size ((h, Map es) :: rest))
        with (size (Map es) + queue_size rest)%nat in Hsize.
      cbn [size] in Hsize. lia.
    + split.
      * apply Forall_app. split.
        -- apply Forall_forall. intros [q ov] Hin.
           pose proof (proj1 (Forall_forall _ _) Hrest _ Hin)
             as (es' & m' & Hov & Hu & Hg). cbn [fst snd] in *.
           exists es', m'. split; [exact Hov | split; [exact Hu|]].
           rewrite get_put_diverge; [exact Hg|].
           apply (proj1 (Forall_forall _ _) Hdiv). apply in_map_iff.
           now exists (q, ov).
        -- apply Forall_forall. intros c Hc.
           destruct (children_spec _ _ _ _ Hnd Hc)
             as (key & es' & om & Hin & -> & Hl).
           exists es', om. cbn [fst snd].
           split; [reflexivity | split].
           ++ eapply unique_keys_in; [exact Huniq | exact Hin].
           ++ rewrite get_app, (get_put _ _ _ _ Hget). cbn [get].
              now rewrite Hl.
      * rewrite map_app. apply separate_app. split; [exact Hsep | split].
        -- now apply children_separate.
        -- apply Forall_forall. intros q Hq. apply Forall_forall.
           intros p Hp. apply in_map_iff in Hp as (c & <- & Hc).
           destruct (children_keys _ _ _ _ Hc) as (key & _ & ->).
           pose proof (proj1 (Forall_forall _ _) Hdiv _ Hq) as Hd.
           apply diverge_sym in Hd.
           pose proof (diverge_app _ _ [] [key] Hd) as Hd'.
           now rewrite app_nil_r in Hd'.
Qed.

(** ** The loop ends *)

Lemma merge_pairs_queue h pairs : forall root queue root' queue' r,
  merge_pairs h pairs root queue = (root', queue', r) ->
  (queue_size queue'
   <= queue_size queue + fold_right (fun kv k => size (snd kv) + k) 0 pairs)%nat.
Proof.
  induction pairs as [|[k v] rest IH]; intros root queue root' queue' r; cbn.
  - intros [= _ <- _]. lia.
  - destruct (get h root) as [baseNode|]; [|intros [= _ <- _]; lia].
    destruct (as_map baseNode) as [m|e]; [|intros [= _ <- _]; lia].
    rewrite merge_pair_eq. intros H. apply IH in H.
    rewrite queue_size_app in H.
    pose proof (pair_child_size h k v m). lia.
Qed.

Lemma keyed_entries_size n pairs :
  keyed_entries n = Ret pairs ->
  (S (fold_right (fun kv k => size (snd kv) + k) 0 pairs) <= size n)%nat.
Proof.
  destruct n as [| | [|item items] | es]; cbn; intros [= <-]; cbn; lia.
Qed.

Lemma process_total : forall fuel queue root,
  (queue_size queue <= fuel)%nat ->
  exists r, process fuel queue root = Some r.
Proof.
  induction fuel as [|fuel IH]; intros queue root Hsize.
  - destruct queue as [|[h ov] rest]; [now eexists|].
    cbn in Hsize. pose proof (size_pos ov). lia.
  - destruct queue as [|[h ov] rest]; [now eexists|].
    change (queue_size ((h, ov) :: rest))
      with (size ov + queue_size rest)%nat in Hsize.
    cbn [process].
    destruct (keyed_entries ov) as [pairs|e] eqn:Ek; [|now eexists].
    apply keyed_entries_size in Ek.
    destruct (merge_pairs h pairs root rest) as [[root' queue'] r] eqn:Em.
    apply merge_pairs_queue in Em.
    destruct r as [u|e]; [|now eexists].
    apply IH. lia.
Qed.

Lemma queue_size_root override :
  queue_size [(@nil string, override)] = size override.
Proof. cbn. lia. Qed.

Lemma MergeYamlNodes_maps es m :
  unique_keys (Map es) ->
  MergeYamlNodes (Map m) (Map es) = (Map (merge_into (Map es) m), Ret tt).
Proof.
  intros Hu. unfold MergeYamlNodes.
  rewrite process_ready.
  - unfold finish, finish_one. reflexivity.
  - rewrite queue_size_root. lia.
  - split.
    + constructor; [|constructor]. now exists es, m.
    + cbn. split; [constructor | exact I].
Qed.

(** ** The recursive merge, key by key *)

Lemma lookup_merge_into key es : forall m,
  NoDup (map fst es) ->
  lookup key (merge_into (Map es) m) =
  match lookup key es with
  | Some value => Some (merged_value (lookup key m) value)
  | None => lookup key m
  end.
Proof.
  induction es as [|[k v] rest IH]; intros m Hnd; [reflexivity|].
  cbn [map fst] in Hnd. apply NoDup_cons_iff in Hnd as [Hnot Hnd].
  rewrite merge_into_cons, IH by exact Hnd. cbn [lookup].
  destruct (String.eqb_spec k key) as [->|Hne].
  - rewrite (proj2 (lookup_none key rest) Hnot).
    destruct (lookup key m) as [old|] eqn:El.
    + now rewrite lookup_replace_same, El.
    + rewrite lookup_app, El. cbn. now rewrite String.eqb_refl.
  - assert (Hsame : lookup key
                      match lookup k m with
                      | Some old => replace k (merged_value (Some old) v) m
                      | None => (m ++ [(k, v)])%list
                      end = lookup key m).
    { destruct (lookup k m) as [old|].
      - now apply lookup_replace_other.
      - rewrite lookup_app. cbn.
        destruct (String.eqb_spec k key); [contradiction|].
        now destruct (lookup key m). }
    now rewrite Hsame.
Qed.

Lemma keys_merge_into es : forall m,
  NoDup (map fst es) ->
  map fst (merge_into (Map es) m) =
  (map fst m ++ filter (fun key => negb (has_key m key)) (map fst es))%list.
Proof.
  induction es as [|[k v] rest IH]; intros m Hnd.
  - cbn. now rewrite app_nil_r.
  - cbn [map fst] in Hnd. apply NoDup_cons_iff in Hnd as [Hnot Hnd].
    rewrite merge_into_cons, IH by exact Hnd. cbn [map fst filter].
    unfold has_key at 2.
    destruct (lookup k m) as [old|] eqn:El; cbn [negb].
    + rewrite map_fst_replace. f_equal.
      apply filter_ext_in. intros key Hin. unfold has_key.
      rewrite lookup_replace_other; [reflexivity|].
      intros ->. contradiction.
    + rewrite map_app, <- app_assoc. cbn [map fst app]. do 2 f_equal.
      apply filter_ext_in. intros key Hin. unfold has_key.
      rewrite lookup_app. cbn.
      destruct (String.eqb_spec k key) as [->|]; [contradiction|].
      now destruct (lookup key m).
Qed.

Lemma lookup_In key value m : lookup key m = Some value -> In (key, value) m.
Proof.
  induction m as [|[k v] rest IH]; cbn; [discriminate|].
  destruct (String.eqb_spec k key) as [->|Hne].
  - intros [= ->]. now left.
  - intros H. right. now apply IH.
Qed.

Lemma merge_groups_app LoadFile before after : forall config,
  merge_groups LoadFile (before ++ after)%list config =
  match merge_groups LoadFile before config with
  | (config', Ret _) => merge_groups LoadFile after config'
  | r => r
  end.
Proof.
  induction before as [|g rest IH]; intros config; cbn; [reflexivity|].
  destruct (LoadFile (group_file g)) as [file|e]; [|reflexivity].
  destruct (MergeYamlNodes config file) as [config' [u|e]]; [apply IH | reflexivity].
Qed.

Ltac unique_keys_concrete :=
  cbn; repeat split; repeat constructor; cbn; intuition discriminate.

(** X19: On mappings without repeated keys the loop over the queue of node
    pairs computes the recursive merge: every pair of the override is
    merged into the base, and a mapping of the override that meets a mapping
    of the base under the same key is merged into it in the same way.  The
    function ends without an exception. *)
Theorem breadth_first_merge_is_recursive (m es : Entries) :
  unique_keys (Map es) ->
  MergeYamlNodes (Map m) (Map es) = (Map (merge_into (Map es) m), Ret tt).
Proof. apply MergeYamlNodes_maps. Qed.

Lemma breadth_first_merge_is_recursive_witness :
  MergeYamlNodes (Map [("agent", Map [("name", Scalar "a");
                                ("tags", Sequence [Scalar "x"])]);
          ("port", Scalar "1")]) (Map [("agent", Map [("tags", Sequence [Scalar "y"]);
                                ("id", Scalar "7")]);
          ("host", Scalar "h");
          ("port", Scalar "2")]) =
  (Map [("agent", Map [("name", Scalar "a");
                       ("tags", Sequence [Scalar "x"; Scalar "y"]);
                       ("id", Scalar "7")]);
        ("port", Scalar "2");
        ("host", Scalar "h")], Ret tt).
Proof.
  rewrite breadth_first_merge_is_recursive; [reflexivity|].
  unique_keys_concrete.
Defined.

(** X20: The value of every key after the merge: a key the override does
    not have keeps its value; a key the override has gets the override's
    value, except that a sequence meeting a sequence is appended to it and
    a mapping meeting a mapping is merged into it. *)
Theorem merged_value_of_every_key (m es : Entries) :
  unique_keys (Map es) ->
  exists result,
    MergeYamlNodes (Map m) (Map es) = (Map result, Ret tt)
    /\ forall key,
         lookup key result =
         match lookup key es with
         | Some value => Some (merged_value (lookup key m) value)
         | None => lookup key m
         end.
Proof.
  intros Hu. exists (merge_into (Map es) m). split.
  - now apply MergeYamlNodes_maps.
  - intros key. apply lookup_merge_into. exact (proj1 Hu).
Qed.

Lemma merged_value_of_every_key_witness :
  exists result,
    MergeYamlNodes (Map [("agent", Map [("name", Scalar "a");
                                ("tags", Sequence [Scalar "x"])]);
          ("port", Scalar "1")]) (Map [("agent", Map [("tags", Sequence [Scalar "y"]);
                                ("id", Scalar "7")]);
          ("host", Scalar "h");
          ("port", Scalar "2")]) = (Map result, Ret tt)
    /\ lookup "port" result = Some (Scalar "2")
    /\ lookup "host" result = Some (Scalar "h").
Proof.
  destruct (merged_value_of_every_key
              [("agent", Map [("name", Scalar "a");
                              ("tags", Sequence [Scalar "x"])]);
               ("port", Scalar "1")]
              [("agent", Map [("tags", Sequence [Scalar "y"]);
                              ("id", Scalar "7")]);
               ("host", Scalar "h");
               ("port", Scalar "2")])
    as (result & Hm & Hl); [unique_keys_concrete|].
  exists result. split; [exact Hm | split].
  - exact (Hl "port").
  - exact (Hl "host").
Defined.

(** X21: A mapping of the override that meets a mapping of the base under
    the same key gives, under that key, what [MergeYamlNodes] gives for the
    two mappings. *)
Theorem nested_mappings_are_merged (m es om oes : Entries) (key : string) :
  unique_keys (Map es) ->
  lookup key m = Some (Map om) ->
  lookup key es = Some (Map oes) ->
  exists result,
    MergeYamlNodes (Map m) (Map es) = (Map result, Ret tt)
    /\ lookup key result = Some (fst (MergeYamlNodes (Map om) (Map oes))).
Proof.
  intros Hu Hm He. exists (merge_into (Map es) m). split.
  - now apply MergeYamlNodes_maps.
  - rewrite lookup_merge_into by exact (proj1 Hu). rewrite He, Hm. cbn [merged_value].
    rewrite MergeYamlNodes_maps; [reflexivity|].
    eapply unique_keys_in; [exact Hu | apply lookup_In, He].
Qed.

Lemma nested_mappings_are_merged_witness :
  exists result,
    MergeYamlNodes (Map [("agent", Map [("name", Scalar "a");
                                ("tags", Sequence [Scalar "x"])]);
          ("port", Scalar "1")]) (Map [("agent", Map [("tags", Sequence [Scalar "y"]);
                                ("id", Scalar "7")]);
          ("host", Scalar "h");
          ("port", Scalar "2")]) = (Map result, Ret tt)
    /\ lookup "agent" result =
       Some (fst (MergeYamlNodes
                    (Map [("name", Scalar "a"); ("tags", Sequence [Scalar "x"])])
                    (Map [("tags", Sequence [Scalar "y"]); ("id", Scalar "7")]))).
Proof.
  apply (nested_mappings_are_merged
           [("agent", Map [("name", Scalar "a");
                           ("tags", Sequence [Scalar "x"])]);
            ("port", Scalar "1")]
           [("agent", Map [("tags", Sequence [Scalar "y"]);
                           ("id", Scalar "7")]);
            ("host", Scalar "h");
            ("port", Scalar "2")]
           _ _ "agent").
  - unique_keys_concrete.
  - reflexivity.
  - reflexivity.
Defined.

(** X22: The merge keeps the keys of the base in their order and puts the
    keys only the override has after them, in the order of the override. *)
Theorem merged_keys_in_order (m es : Entries) :
  unique_keys (Map es) ->
  exists result,
    MergeYamlNodes (Map m) (Map es) = (Map result, Ret tt)
    /\ map fst result =
       (map fst m
        ++ filter (fun key => negb (has_key m key)) (map fst es))%list.
Proof.
  intros Hu. exists (merge_into (Map es) m). split.
  - now apply MergeYamlNodes_maps.
  - apply keys_merge_into. exact (proj1 Hu).
Qed.

Lemma merged_keys_in_order_witness :
  exists result,
    MergeYamlNodes (Map [("agent", Map [("name", Scalar "a");
                                ("tags", Sequence [Scalar "x"])]);
          ("port", Scalar "1")]) (Map [("agent", Map [("tags", Sequence [Scalar "y"]);
                                ("id", Scalar "7")]);
          ("host", Scalar "h");
          ("port", Scalar "2")]) = (Map result, Ret tt)
    /\ map fst result = ["agent"; "port"; "host"].
Proof.
  apply (merged_keys_in_order
           [("agent", Map [("name", Scalar "a");
                           ("tags", Sequence [Scalar "x"])]);
            ("port", Scalar "1")]
           [("agent", Map [("tags", Sequence [Scalar "y"]);
                           ("id", Scalar "7")]);
            ("host", Scalar "h");
            ("port", Scalar "2")]).
  unique_keys_concrete.
Defined.

(** X23: Merging is not idempotent on sequences: merging the same override
    a second time appends its sequence a second time. *)
Theorem merging_twice_repeats_sequences (m es : Entries) (key : string)
    (old new : list Node) :
  unique_keys (Map es) ->
  lookup key m = Some (Sequence old) ->
  lookup key es = Some (Sequence new) ->
  exists once twice,
    MergeYamlNodes (Map m) (Map es) = (Map once, Ret tt)
    /\ MergeYamlNodes (Map once) (Map es) = (Map twice, Ret tt)
    /\ lookup key twice = Some (Sequence (old ++ new ++ new)).
Proof.
  intros Hu Hm He.
  exists (merge_into (Map es) m), (merge_into (Map es) (merge_into (Map es) m)).
  split; [now apply MergeYamlNodes_maps | split; [now apply MergeYamlNodes_maps|]].
  rewrite !lookup_merge_into by exact (proj1 Hu). rewrite He, Hm.
  cbn [merged_value]. now rewrite <- app_assoc.
Qed.

Lemma merging_twice_repeats_sequences_witness :
  exists once twice,
    MergeYamlNodes (Map [("tags", Sequence [Scalar "x"])])
                   (Map [("tags", Sequence [Scalar "y"])]) = (Map once, Ret tt)
    /\ MergeYamlNodes (Map once) (Map [("tags", Sequence [Scalar "y"])])
       = (Map twice, Ret tt)
    /\ lookup "tags" twice = Some (Sequence [Scalar "x"; Scalar "y"; Scalar "y"]).
Proof.
  apply (merging_twice_repeats_sequences
           [("tags", Sequence [Scalar "x"])] [("tags", Sequence [Scalar "y"])]
           "tags" [Scalar "x"] [Scalar "y"]).
  - unique_keys_concrete.
  - reflexivity.
  - reflexivity.
Defined.

(** X24: The [while] loop ends on every base and every override, after at
    most as many turns as the override has nodes. *)
Theorem merge_loop_ends (base override : Node) :
  exists r,
    process (size override) [([], override)] base = Some r
    /\ MergeYamlNodes base override = r.
Proof.
  destruct (process_total (size override) [([], override)] base) as [r Hr].
  - rewrite queue_size_root. lia.
  - exists r. split; [exact Hr|]. unfold MergeYamlNodes. now rewrite Hr.
Qed.

(** X25: A group whose file cannot be loaded ends the loading with the
    exception of the file: the groups before it stay merged into the
    configuration, the groups after it are not read. *)
Theorem failed_group_keeps_earlier_groups (LoadFile : string -> Except Node)
    (before after : list string) (bad : string) (config merged : Node)
    (e : exception) :
  merge_groups LoadFile before config = (merged, Ret tt) ->
  LoadFile (group_file bad) = Throw e ->
  LoadSharedConfig LoadFile (Some (Ret (before ++ bad :: after)%list)) config
  = (merged, Throw e).
Proof.
  intros Hb He. cbn [LoadSharedConfig].
  rewrite merge_groups_app, Hb. cbn [merge_groups]. now rewrite He.
Qed.

Lemma failed_group_keeps_earlier_groups_witness :
  LoadSharedConfig (fun path =>
       if String.eqb path "/etc/wazuh-agent/shared/a.conf"
       then Ret (Map [("port", Scalar "2")])
       else Throw (std_exception "bad file")) (Some (Ret ["a"; "b"; "c"]))
    (Map [("port", Scalar "1")])
  = (Map [("port", Scalar "2")], Throw (std_exception "bad file")).
Proof.
  apply (failed_group_keeps_earlier_groups (fun path =>
       if String.eqb path "/etc/wazuh-agent/shared/a.conf"
       then Ret (Map [("port", Scalar "2")])
       else Throw (std_exception "bad file")) ["a"] ["c"] "b").
  - reflexivity.
  - reflexivity.
Defined.

(** X26: The last group has the last word: a scalar its file gives for a
    key is the value of the key in the configuration, whatever the file of
    the agent and the groups before it give. *)
Theorem last_group_wins (LoadFile : string -> Except Node)
    (before : list string) (last key text : string) (config : Node)
    (m es : Entries) :
  merge_groups LoadFile before config = (Map m, Ret tt) ->
  LoadFile (group_file last) = Ret (Map es) ->
  unique_keys (Map es) ->
  lookup key es = Some (Scalar text) ->
  exists result,
    LoadSharedConfig LoadFile (Some (Ret (before ++ [last])%list)) config
    = (Map result, Ret tt)
    /\ lookup key result = Some (Scalar text).
Proof.
  intros Hb Hf Hu Hk. exists (merge_into (Map es) m).
  cbn [LoadSharedConfig].
  rewrite merge_groups_app, Hb. cbn [merge_groups].
  rewrite Hf, (MergeYamlNodes_maps _ _ Hu). split; [reflexivity|].
  rewrite lookup_merge_into by exact (proj1 Hu). rewrite Hk.
  now destruct (lookup key m) as [[| | |]|].
Qed.

Lemma last_group_wins_witness :
  exists result,
    LoadSharedConfig (fun path =>
       if String.eqb path "/etc/wazuh-agent/shared/a.conf"
       then Ret (Map [("port", Scalar "2")])
       else if String.eqb path "/etc/wazuh-agent/shared/b.conf"
       then Ret (Map [("port", Scalar "3")])
       else Throw (std_exception "bad file")) (Some (Ret ["a"; "b"]))
      (Map [("port", Scalar "1")])
    = (Map result, Ret tt)
    /\ lookup "port" result = Some (Scalar "3").
Proof.
  apply (last_group_wins (fun path =>
       if String.eqb path "/etc/wazuh-agent/shared/a.conf"
       then Ret (Map [("port", Scalar "2")])
       else if String.eqb path "/etc/wazuh-agent/shared/b.conf"
       then Ret (Map [("port", Scalar "3")])
       else Throw (std_exception "bad file")) ["a"] "b" "port" "3"
           (Map [("port", Scalar "1")]) [("port", Scalar "2")]
           [("port", Scalar "3")]).
  - reflexivity.
  - reflexivity.
  - unique_keys_concrete.
  - reflexivity.
Defined.

(** X27: The file of a group is [<id>.conf] in the shared directory,
    unless the id starts with a slash: then the id itself, with [.conf]
    after it, is the path of the file. *)
Theorem group_file_of_id (groupId : string) :
  group_file groupId =
  if is_absolute groupId
  then groupId ++ ".conf"
  else "/etc/wazuh-agent/shared/" ++ groupId ++ ".conf".
Proof.
  unfold group_file, path_append.
  destruct groupId as [|c rest]; [reflexivity|].
  cbn [is_absolute append].
  destruct c as [[] [] [] [] [] [] [] []]; reflexivity.
Qed.

End YamlMergeFacts.
